(** * batch_worker: the discovery-and-ranking pipeline

    A shallow embedding of the TypeScript sources

    - [bm25.service.ts]     (class [BM25Service]),
    - [crawling.service.ts] (class [CrawlingService]),
    - [batch.service.ts]    (class [BatchService], both versions kept in
                             the repository),

    together with the properties their specification states about them.

    JavaScript strings are sequences of UTF-16 code units, numbers that
    count things are naturals, a number passed in from outside is any
    number of JavaScript, and the BM25 scores, which the code computes
    with [Math.log] and division, are real numbers. *)

From Stdlib Require Import Reals Lra Lia ZArith NArith QArith List String Ascii.
From Stdlib Require Import Permutation Sorted DecimalString.
From stdpp Require Import gmap list.

Local Open Scope N_scope.

(** ** JavaScript strings *)

Module JS.

(** A string is the list of its UTF-16 code units. *)
Definition jsstring : Type := list N.

(** The code units of a Rocq string of ASCII characters. *)
Fixpoint js (s : string) : jsstring :=
  match s with
  | EmptyString => []
  | String a r => N_of_ascii a :: js r
  end.

Definition in_range (lo hi c : N) : bool := (lo <=? c) && (c <=? hi).

Definition is_upper (c : N) : bool := in_range 65 90 c.
Definition is_lower (c : N) : bool := in_range 97 122 c.
Definition is_digit (c : N) : bool := in_range 48 57 c.

(** The class [\w] of a regular expression without the [u] and [i] flags:
    [[A-Za-z0-9_]]. *)
Definition is_word (c : N) : bool :=
  is_upper c || is_lower c || is_digit c || (c =? 95).

(** What a token is made of: [[a-z0-9_]]. *)
Definition is_lower_word (c : N) : bool :=
  is_lower c || is_digit c || (c =? 95).

(** The class [\s]: the white space and line terminator code units of
    ECMAScript. *)
Definition is_space (c : N) : bool :=
  in_range 9 13 c || (c =? 32) || (c =? 160) || (c =? 5760)
  || in_range 8192 8202 c || (c =? 8232) || (c =? 8233) || (c =? 8239)
  || (c =? 8287) || (c =? 12288) || (c =? 65279).

(** Code units of the Hangul blocks: Jamo (U+1100..U+11FF), Compatibility
    Jamo (U+3130..U+318F), Jamo Extended-A (U+A960..U+A97F), Syllables and
    Jamo Extended-B (U+AC00..U+D7FF). *)
Definition is_hangul (c : N) : bool :=
  in_range 4352 4607 c || in_range 12592 12687 c
  || in_range 43360 43391 c || in_range 44032 55295 c.

(** [String.prototype.toLowerCase], one code unit at a time. The mapping is
    the Unicode one on every code unit whose lower-case form can reach a
    token: the ASCII capitals, U+212A KELVIN SIGN (lower case [k]) and
    U+0130 (lower case [i] followed by U+0307). Every other case mapping of
    Unicode sends code units outside ASCII and outside [\s] to code units
    outside ASCII and outside [\s], all of which the tokenizer then
    replaces by a space; they are left in place here. *)
Definition lowerUnit (c : N) : list N :=
  if is_upper c then [c + 32]
  else if c =? 8490 then [107]
  else if c =? 304 then [105; 775]
  else [c].

Definition toLowerCase (s : jsstring) : jsstring := concat (map lowerUnit s).

(** [s.replace(/[^\w\s]/g, ' ')]. *)
Definition replaceNonWord (s : jsstring) : jsstring :=
  map (fun c => if is_word c || is_space c then c else 32) s.

(** [s.split(/\s+/)]: the pieces between the maximal runs of white space.
    [cur] is the piece being read, in reverse; [skip] tells that the last
    code unit read was white space. A run at either end of the string
    leaves an empty piece there, and the empty string splits into one
    empty piece, as in JavaScript. *)
Fixpoint split_go (cur : jsstring) (skip : bool) (s : jsstring)
  : list jsstring :=
  match s with
  | [] => [rev cur]
  | c :: r =>
      if is_space c
      then (if skip then split_go cur true r
            else rev cur :: split_go [] true r)
      else split_go (c :: cur) false r
  end.

Definition splitSpaces (s : jsstring) : list jsstring := split_go [] false s.

Definition nonEmpty (t : jsstring) : bool :=
  match t with [] => false | _ => true end.

(** The pieces of a split that [filter(token => token.length > 0)]
    keeps. *)
Definition tokensFrom (cur : jsstring) (skip : bool) (s : jsstring)
  : list jsstring :=
  List.filter nonEmpty (split_go cur skip s).



(** A natural number in a template literal: its decimal digits. *)
Definition decimal (n : nat) : jsstring :=
  js (NilZero.string_of_uint (Nat.to_uint n)).

(** *** Numbers as arguments

    A [number] that reaches the code from a caller: a finite value (every
    finite double is a rational), an infinity, or [NaN]. *)
Inductive number :=
| Finite (q : Q)
| PosInfinity
| NegInfinity
| NaN.

Definition ofNat (n : nat) : number := Finite (inject_Z (Z.of_nat n)).

Inductive IntegerOrInfinity :=
| Int (z : Z)
| PlusInf
| MinusInf.

(** [ToIntegerOrInfinity]: [NaN] is 0, a finite number loses its fraction
    (towards zero), the infinities stay. *)
Definition toIntegerOrInfinity (x : number) : IntegerOrInfinity :=
  match x with
  | NaN => Int 0
  | PosInfinity => PlusInf
  | NegInfinity => MinusInf
  | Finite q => Int (Z.quot (Qnum q) (Z.pos (Qden q)))
  end.

(** Where [slice(0, end)] stops in an array of [len] elements: a negative
    [end] counts from the end of the array, and the result stays within
    the array. *)
Definition sliceEnd (len : nat) (end_ : number) : nat :=
  match toIntegerOrInfinity end_ with
  | MinusInf => 0%nat
  | PlusInf => len
  | Int k =>
      if (k <? 0)%Z then Z.to_nat (Z.max (Z.of_nat len + k) 0)
      else Z.to_nat (Z.min k (Z.of_nat len))
  end.

(** [Array.prototype.slice(0, end)]. *)
Definition slice0 {A} (l : list A) (end_ : number) : list A :=
  firstn (sliceEnd (length l) end_) l.

End JS.

Import JS.

(** ** The ranking engine ([bm25.service.ts]) *)

Module BM25.

Local Open Scope nat_scope.

(** The documents the service is built over: the orchestrator passes
    [{ title, content }] objects. *)
Record Document := { title : jsstring; content : jsstring }.

Record BM25Config := { k1 : R; b : R }.

(** [Partial<BM25Config>]: each field may be missing. *)
Record PartialConfig := { opt_k1 : option R; opt_b : option R }.

(** The default value of the constructor's second parameter,
    [{ k1: 1.5 }]. *)
Definition defaultPartial : PartialConfig :=
  {| opt_k1 := Some 1.5%R; opt_b := None |}.

(** [{ k1: config.k1 ?? 1.5, b: config.b ?? 0.75 }]. *)
Definition fillConfig (c : PartialConfig) : BM25Config :=
  {| k1 := default 1.5%R (opt_k1 c); b := default 0.75%R (opt_b c) |}.

(** [BM25Service.tokenize]. *)
Definition tokenize (text : jsstring) : list jsstring :=
  List.filter nonEmpty (splitSpaces (replaceNonWord (toLowerCase text))).

(** The three maps [initialize] fills, with its local [totalLength]. *)
Record IndexState := {
  st_docLengths : gmap jsstring nat;
  st_termFrequencies : gmap jsstring (gmap jsstring nat);
  st_documentCntsHasTerm : gmap jsstring nat;
  st_totalLength : nat
}.

Definition emptyIndex : IndexState :=
  {| st_docLengths := ∅; st_termFrequencies := ∅;
     st_documentCntsHasTerm := ∅; st_totalLength := 0 |}.

(** The inner loop
    [termFreq.set(token, (termFreq.get(token) ?? 0) + 1)]. *)
Definition countTerms (tokens : list jsstring) : gmap jsstring nat :=
  List.fold_left
    (fun termFreq token => <[token := default 0 (termFreq !! token) + 1]> termFreq)
    tokens ∅.

(** [new Set(tokens)], in the order a [Set] is iterated: each token once,
    at its first occurrence. *)
Fixpoint uniqueTerms (tokens : list jsstring) : list jsstring :=
  match tokens with
  | [] => []
  | t :: r =>
      t :: List.filter (fun u => negb (bool_decide (u = t))) (uniqueTerms r)
  end.

(** The loop over [uniqueTerms]:
    [documentCntsHasTerm.set(term, documentCntsHasTerm.get(term) ?? 0 + 1)].
    In JavaScript [+] binds tighter than [??], so the new value is
    [get(term) ?? (0 + 1)]. *)
Definition countDocs (cnts : gmap jsstring nat) (terms : list jsstring)
  : gmap jsstring nat :=
  List.fold_left
    (fun cnts term => <[term := default (0 + 1) (cnts !! term)]> cnts)
    terms cnts.

(** One turn of the loop of [initialize] over [this.documents]. *)
Definition indexDocument (st : IndexState) (doc : Document) : IndexState :=
  let tokens := tokenize (content doc) in
  let docLength := length tokens in
  {| st_docLengths := <[title doc := docLength]> (st_docLengths st);
     st_termFrequencies :=
       <[title doc := countTerms tokens]> (st_termFrequencies st);
     st_documentCntsHasTerm :=
       countDocs (st_documentCntsHasTerm st) (uniqueTerms tokens);
     st_totalLength := st_totalLength st + docLength |}.

Definition initialize (docs : list Document) : IndexState :=
  List.fold_left indexDocument docs emptyIndex.

(** The state of a [BM25Service]. [avgDocLength] is
    [totalLength / this.documents.length]; over no document JavaScript
    makes it [NaN], and no score is ever computed from it then. *)
Record BM25Service := {
  documents : list Document;
  config : BM25Config;
  avgDocLength : R;
  docLengths : gmap jsstring nat;
  termFrequencies : gmap jsstring (gmap jsstring nat);
  documentCntsHasTerm : gmap jsstring nat;
  idfCache : gmap jsstring R
}.

(** The constructor. *)
Definition new (docs : list Document) (c : PartialConfig) : BM25Service :=
  let st := initialize docs in
  {| documents := docs;
     config := fillConfig c;
     avgDocLength := (INR (st_totalLength st) / INR (length docs))%R;
     docLengths := st_docLengths st;
     termFrequencies := st_termFrequencies st;
     documentCntsHasTerm := st_documentCntsHasTerm st;
     idfCache := ∅ |}.

Definition setCache (s : BM25Service) (c : gmap jsstring R) : BM25Service :=
  {| documents := documents s; config := config s;
     avgDocLength := avgDocLength s; docLengths := docLengths s;
     termFrequencies := termFrequencies s;
     documentCntsHasTerm := documentCntsHasTerm s; idfCache := c |}.

(** [Math.log((N - df + 0.5) / (df + 0.5) + 1)]. *)
Definition idfValue (N df : nat) : R :=
  ln ((INR N - INR df + 0.5) / (INR df + 0.5) + 1)%R.

(** [calculateIDF]: the value and the service with its cache filled. *)
Definition calculateIDF (s : BM25Service) (term : jsstring)
  : R * BM25Service :=
  match idfCache s !! term with
  | Some v => (v, s)
  | None =>
      let N := length (documents s) in
      let df := default 0 (documentCntsHasTerm s !! term) in
      let idf := idfValue N df in
      (idf, setCache s (<[term := idf]> (idfCache s)))
  end.

(** [numerator / denominator] of [caculateScore]. *)
Definition saturation (k1 b : R) (tf docLength : nat) (avg : R) : R :=
  (INR tf * (k1 + 1)
   / (INR tf + k1 * (1 - b + b * (INR docLength / avg))))%R.

(** One turn of the loop of [caculateScore] over the query terms. *)
Definition scoreStep (docLength : nat) (termFreq : gmap jsstring nat)
    (acc : R * BM25Service) (term : jsstring) : R * BM25Service :=
  let '(score, s) := acc in
  let tf := default 0 (termFreq !! term) in
  if Nat.eqb tf 0 then (score, s)
  else
    let '(idf, s') := calculateIDF s term in
    ((score + idf * saturation (k1 (config s)) (b (config s)) tf docLength
                      (avgDocLength s))%R, s').

(** [caculateScore] (the source's spelling). The sum is taken over the
    real numbers, where the code adds doubles: what is stated of scores
    below is their sign, their order and their closed form, not the
    equality of sums taken in different orders. *)
Definition caculateScore (s : BM25Service) (title : jsstring)
    (queryTerm : list jsstring) : R * BM25Service :=
  let docLength := default 0 (docLengths s !! title) in
  match termFrequencies s !! title with
  | None => (0%R, s)
  | Some termFreq =>
      List.fold_left (scoreStep docLength termFreq) queryTerm (0%R, s)
  end.

Record Result := { document : Document; score : R }.

(** [this.documents.map(doc => ({ document: doc, score: ... }))], the IDF
    cache passing from one document to the next. *)
Fixpoint scoreAll (s : BM25Service) (queryTerms : list jsstring)
    (docs : list Document) : list Result * BM25Service :=
  match docs with
  | [] => ([], s)
  | doc :: rest =>
      let '(sc, s1) := caculateScore s (title doc) queryTerms in
      let '(rs, s2) := scoreAll s1 queryTerms rest in
      ({| document := doc; score := sc |} :: rs, s2)
  end.

Definition Rltb (x y : R) : bool := if Rlt_dec x y then true else false.

(** [Array.prototype.sort] with the comparator [(a, b) => b.score - a.score].
    The sort of ECMAScript is stable, and on numbers this comparator is a
    total preorder, so the result is the one of any stable sort; insertion
    is the simplest. [a] goes after [y] exactly when the comparator is
    positive on [(a, y)], that is when [a.score < y.score]. *)
Fixpoint insertByScore (a : Result) (l : list Result) : list Result :=
  match l with
  | [] => [a]
  | y :: r =>
      if Rltb (score a) (score y) then y :: insertByScore a r
      else a :: y :: r
  end.

Fixpoint sortByScore (l : list Result) : list Result :=
  match l with
  | [] => []
  | a :: r => insertByScore a (sortByScore r)
  end.

(** [search(query, topK)]: [sort], [slice(0, topK)], then
    [filter(result => result.score > 0)]. [topK] is whatever number the
    caller passes. *)
Definition search (s : BM25Service) (query : jsstring) (topK : number)
  : list Result * BM25Service :=
  let queryTerms := tokenize query in
  let '(results, s') := scoreAll s queryTerms (documents s) in
  (List.filter (fun r => Rltb 0 (score r)) (slice0 (sortByScore results) topK),
   s').

(** The default of the parameter, [topK: number = 7]. *)
Definition defaultTopK : number := ofNat 7.

(** *** The scores without the cache

    The cache only remembers values of [idfValue]; what [caculateScore]
    returns is then a function of the index alone. *)

Definition idfOf (s : BM25Service) (term : jsstring) : R :=
  idfValue (length (documents s))
           (default 0 (documentCntsHasTerm s !! term)).

Definition termScore (s : BM25Service) (docLength : nat)
    (termFreq : gmap jsstring nat) (term : jsstring) : R :=
  let tf := default 0 (termFreq !! term) in
  if Nat.eqb tf 0 then 0%R
  else (idfOf s term
        * saturation (k1 (config s)) (b (config s)) tf docLength
                     (avgDocLength s))%R.

Definition scoreOf (s : BM25Service) (title : jsstring)
    (queryTerm : list jsstring) : R :=
  let docLength := default 0 (docLengths s !! title) in
  match termFrequencies s !! title with
  | None => 0%R
  | Some termFreq =>
      List.fold_left
        (fun acc term => (acc + termScore s docLength termFreq term)%R)
        queryTerm 0%R
  end.

Definition resultOf (s : BM25Service) (queryTerms : list jsstring)
    (doc : Document) : Result :=
  {| document := doc; score := scoreOf s (title doc) queryTerms |}.

(** How often a token occurs in a list of tokens. *)
Definition occurrences (t : jsstring) (l : list jsstring) : nat :=
  length (List.filter (fun u => bool_decide (u = t)) l).

(** The loop of [initialize], from any state of the maps. *)
Definition indexFrom (st : IndexState) (docs : list Document) : IndexState :=
  List.fold_left indexDocument docs st.

Definition tokenCount (d : Document) : nat := length (tokenize (content d)).

(** Every cached value is the IDF of its term. *)
Definition cacheOk (s : BM25Service) : Prop :=
  forall term v, idfCache s !! term = Some v -> v = idfOf s term.

(** Two states of one service: all but the cache is the same. *)
Definition sameIndex (s s' : BM25Service) : Prop :=
  exists c, s' = setCache s c.

(** The service after earlier searches. *)
Definition afterSearches (s : BM25Service)
    (earlier : list (jsstring * number))
  : BM25Service :=
  List.fold_left (fun s qk => snd (search s (fst qk) (snd qk))) earlier s.

(** The document whose counts the maps hold under a title: the last one
    of the collection that bears it. *)
Fixpoint indexedUnder (docs : list Document) (t : jsstring)
  : option Document :=
  match docs with
  | [] => None
  | d :: r =>
      match indexedUnder r t with
      | Some d' => Some d'
      | None => if bool_decide (title d = t) then Some d else None
      end
  end.

Definition positive (r : Result) : bool := Rltb 0 (score r).

(** Scores in descending order. *)
Definition descending (x y : Result) : Prop := (score y <= score x)%R.

(** [search] without the cache, keeping the first [kept] results of the
    sorted list. *)
Definition ranked (s : BM25Service) (query : jsstring) (kept : nat)
  : list Result :=
  List.filter positive
    (firstn kept
       (sortByScore (List.map (resultOf s (tokenize query)) (documents s)))).

(** *** The ranking function as the specification words it

    Document frequency is "the number of documents containing term", and
    a document's score sums [IDF(term) * tf*(k1+1) / (tf + k1*(1 - b +
    b*(docLen/avgDocLen)))] over the query terms present in it. *)

Definition containsTerm (term : jsstring) (doc : Document) : bool :=
  bool_decide (term ∈ tokenize (content doc)).

Definition spec_documentFrequency (docs : list Document) (term : jsstring)
  : nat :=
  length (List.filter (containsTerm term) docs).

Definition spec_termFrequency (doc : Document) (term : jsstring) : nat :=
  length (List.filter (fun t => bool_decide (t = term))
                      (tokenize (content doc))).

Definition spec_avgDocLength (docs : list Document) : R :=
  (INR (list_sum (List.map (fun d => length (tokenize (content d))) docs))
   / INR (length docs))%R.

Definition spec_score (docs : list Document) (cfg : BM25Config)
    (doc : Document) (queryTerms : list jsstring) : R :=
  List.fold_right
    (fun term acc =>
       (idfValue (length docs) (spec_documentFrequency docs term)
        * saturation (k1 cfg) (b cfg) (spec_termFrequency doc term)
                     (length (tokenize (content doc)))
                     (spec_avgDocLength docs)
        + acc)%R)
    0%R
    (List.filter (fun term => containsTerm term doc) queryTerms).

(** *** Two collections *)

(** The worked example of the specification: ten tokens with the query
    term three times, five tokens with the query term once. *)
Definition workedD1 : Document :=
  {| title := js "D1";
     content := js "apple pie and apple tart, or apple jam on toast" |}.
Definition workedD2 : Document :=
  {| title := js "D2"; content := js "an apple a day. Yes" |}.
Definition workedDocs : list Document := [workedD1; workedD2].
Definition workedQuery : jsstring := js "apple".

(** Two search results with one title. *)
Definition twinD1 : Document :=
  {| title := js "Home"; content := js "zzz" |}.
Definition twinD2 : Document :=
  {| title := js "Home"; content := js "apple" |}.
Definition twinDocs : list Document := [twinD1; twinD2].

End BM25.

(** ** Effects: a state and exception monad

    An [async] method either returns or throws (its promise is fulfilled
    or rejected), and changes the world [W] it runs in on the way. *)

Module Eff.

(** A thrown value: whether it is an [instanceof Error], its [name] and
    its [message]. *)
Record Exn := {
  exn_isError : bool;
  exn_name : jsstring;
  exn_message : jsstring
}.

(** [new Error(message)]. *)
Definition Error (message : jsstring) : Exn :=
  {| exn_isError := true; exn_name := js "Error"; exn_message := message |}.

Inductive Outcome (A : Type) : Type :=
| Returned (a : A)
| Threw (e : Exn).
Arguments Returned {A} a.
Arguments Threw {A} e.

Definition M (W A : Type) : Type := W -> Outcome A * W.

Definition ret {W A} (a : A) : M W A := fun w => (Returned a, w).

Definition throw {W A} (e : Exn) : M W A := fun w => (Threw e, w).

Definition bind {W A B} (c : M W A) (k : A -> M W B) : M W B :=
  fun w =>
    match c w with
    | (Returned a, w') => k a w'
    | (Threw e, w') => (Threw e, w')
    end.

(** [try { c } catch (error) { h error }]. *)
Definition try_catch {W A} (c : M W A) (h : Exn -> M W A) : M W A :=
  fun w =>
    match c w with
    | (Returned a, w') => (Returned a, w')
    | (Threw e, w') => h e w'
    end.

Definition get {W} : M W W := fun w => (Returned w, w).
Definition modify {W} (f : W -> W) : M W unit := fun w => (Returned tt, f w).

(** Awaiting a value the environment has already decided. *)
Definition await {W A} (o : Outcome A) : M W A := fun w => (o, w).

(** [Promise.all(l.map(f))]: every call is issued, in the order of the
    list; the whole is rejected when one of them is. Which rejection wins
    when several calls fail is a matter of timing; the first of the list
    is taken. *)
Fixpoint promiseAll {W A B} (f : A -> M W B) (l : list A) : M W (list B) :=
  match l with
  | [] => ret []
  | a :: r =>
      fun w =>
        match f a w with
        | (Returned x, w1) =>
            match promiseAll f r w1 with
            | (Returned xs, w2) => (Returned (x :: xs), w2)
            | (Threw e, w2) => (Threw e, w2)
            end
        | (Threw e, w1) => (Threw e, snd (promiseAll f r w1))
        end
  end.

(** A sequential [for ... of] loop that pushes what its body makes. *)
Fixpoint forCollect {W A B} (f : A -> M W B) (l : list A) : M W (list B) :=
  match l with
  | [] => ret []
  | a :: r =>
      bind (f a) (fun x => bind (forCollect f r) (fun xs => ret (x :: xs)))
  end.

(** *** Loops that run side by side

    [Promise.all(tasks.map(async (task) => { for (const x of task) { await f(x) } }))].

    The callbacks are started in the order of the list, and each runs up
    to its first [await]: it issues the call for its first element, or is
    done at once when it has none. From there a callback goes on when
    the call it awaits is settled: on a failure it is rejected;
    otherwise it issues the call for its next element and waits again, or
    is done. The effect of a call is taken to happen when the call is
    issued. Which of the outstanding calls is settled next is for the
    environment to say: [settled] gives, for each such moment, the place
    of that call among the outstanding ones, the oldest first (and the
    oldest is taken when [settled] is used up or names no call). The
    whole is rejected with the first failure met, and the other callbacks
    still run on. *)

(** A callback at an [await]: what the call it awaits will give, and the
    elements it still has to go through. *)
Definition Waiting (A : Type) : Type := (Outcome unit * list A)%type.

Fixpoint startLoops {W A} (f : A -> M W unit) (tasks : list (list A))
    (w : W) : list (Waiting A) * W :=
  match tasks with
  | [] => ([], w)
  | [] :: r => startLoops f r w
  | (x :: rest) :: r =>
      let (o, w1) := f x w in
      let (waiting, w2) := startLoops f r w1 in
      ((o, rest) :: waiting, w2)
  end.

(** [fuel] counts the steps left: one for each call still to issue and
    one for each callback still to finish. *)
Fixpoint resumeLoops {W A} (f : A -> M W unit) (fuel : nat)
    (settled : list nat) (waiting : list (Waiting A)) : M W unit :=
  fun w =>
    match fuel, waiting with
    | S fuel', oldest :: _ =>
        let i := if Nat.ltb (hd 0%nat settled) (length waiting)
                 then hd 0%nat settled else 0%nat in
        let others := firstn i waiting ++ skipn (S i) waiting in
        match nth i waiting oldest with
        | (Threw e, _) =>
            (Threw e, snd (resumeLoops f fuel' (tl settled) others w))
        | (Returned _, []) => resumeLoops f fuel' (tl settled) others w
        | (Returned _, x :: rest) =>
            let (o, w') := f x w in
            resumeLoops f fuel' (tl settled) (others ++ [(o, rest)]) w'
        end
    | _, _ => (Returned tt, w)
    end.

Definition promiseAllLoops {W A} (f : A -> M W unit) (settled : list nat)
    (tasks : list (list A)) : M W unit :=
  fun w =>
    let (waiting, w1) := startLoops f tasks w in
    resumeLoops f (length (concat tasks) + length tasks)%nat settled waiting w1.

Module Notations.
  Notation "'let*' x ':=' c 'in' k" := (bind c (fun x => k))
    (at level 10, x name, c at level 100, k at level 200).
  Notation "c ';;' k" := (bind c (fun _ => k))
    (at level 100, k at level 200, right associativity).
End Notations.

End Eff.

Import Eff Eff.Notations.

(** ** The crawler and its robots policy cache ([crawling.service.ts])

    The calls of the logger are left out throughout. *)

Module Crawling.

Record SearchResult := {
  sr_title : jsstring;
  sr_url : jsstring;
  sr_description : jsstring
}.

Record CrawlResult := { cr_title : jsstring; cr_texts : list jsstring }.

(** A [Response]: its [ok] flag, its [status], and what awaiting
    [response.text()] gives. *)
Record Response := {
  resp_ok : bool;
  resp_status : nat;
  resp_text : Outcome jsstring
}.

(** What the service does to the outside, in order. *)
Inductive Event :=
| EvFetch (url : jsstring)
| EvCacheSet (key : jsstring) (allowed : bool).

(** The platform and the network, as one call of the service meets them:
    - [net_origin targetUrl] is [new URL(targetUrl).origin], and [None]
      when the [URL] constructor throws its [TypeError];
    - [net_fetch url] is what awaiting [fetchWithTimeout(url)] gives;
    - [net_robots robotsUrl robotsTxt targetUrl userAgent] is
      [robotsParser(robotsUrl, robotsTxt).isAllowed(targetUrl, userAgent)],
      a boolean or [undefined];
    - [net_extract html title] is [extractContent], whose selection of
      elements is done by cheerio. *)
Record Net := {
  net_origin : jsstring -> option jsstring;
  net_fetch : jsstring -> Outcome Response;
  net_robots : jsstring -> jsstring -> jsstring -> jsstring -> option bool;
  net_extract : jsstring -> jsstring -> CrawlResult
}.

(** Modelled from the spec: [fetchWithTimeout] ([src/utils/fetch-with-timeout])
    is not among the sources. The specification gives the fetch a bounded
    timeout, after which it "resolves to a failure value"; the service
    recognises that failure as an [Error] whose name is [AbortError], the
    rejection of an aborted [fetch], and logs it as "Timeout fetching
    robots.txt". *)
Definition timeoutError : Exn :=
  {| exn_isError := true; exn_name := js "AbortError";
     exn_message := js "This operation was aborted" |}.

(** [error instanceof Error && error.name === 'AbortError']. *)
Definition isAbortError (e : Exn) : bool :=
  exn_isError e && bool_decide (exn_name e = js "AbortError").

(** The service: its [robotsCache], a [QuickLRU<string, boolean>], and the
    record of what it did. The cache is read as the map of its live
    entries: [has] and [get] are the lookup, and after [set] the key holds
    the value. QuickLRU also drops entries, by age (one hour) and by size
    (1000); that is not followed here, and what is stated below about the
    cache concerns the key a call reads and writes, within one call and
    the call right after it, not the fate of other entries. *)
Record World := {
  robotsCache : gmap jsstring bool;
  trace : list Event
}.

(** The world after a request for [url] has gone out. *)
Definition fetched (url : jsstring) (w : World) : World :=
  {| robotsCache := robotsCache w; trace := trace w ++ [EvFetch url] |}.

(** The world after [this.robotsCache.set(key, value)]. *)
Definition cached (key : jsstring) (value : bool) (w : World) : World :=
  {| robotsCache := <[key := value]> (robotsCache w);
     trace := trace w ++ [EvCacheSet key value] |}.

Definition cacheSet (key : jsstring) (value : bool) : M World unit :=
  modify (cached key value).

Definition fetchWithTimeout (net : Net) (url : jsstring) : M World Response :=
  modify (fetched url) ;; await (net_fetch net url).

(** [`${url.origin}/robots.txt`]. *)
Definition robotsUrlOf (origin : jsstring) : jsstring :=
  origin ++ js "/robots.txt".

(** [BATCH_OPTIONS.USER_AGENT]. *)
Definition USER_AGENT : jsstring := js "Mozilla/5.0".

(** The [TypeError] of [new URL(input)] on an input that is not a URL. *)
Definition invalidUrlError : Exn :=
  {| exn_isError := true; exn_name := js "TypeError";
     exn_message := js "Invalid URL" |}.

(** [isUrlAllowed(targetUrl, userAgent)]. *)
Definition isUrlAllowed (net : Net) (targetUrl userAgent : jsstring)
  : M World bool :=
  match net_origin net targetUrl with
  | None => throw invalidUrlError
  | Some origin =>
      let robotsUrl := robotsUrlOf origin in
      let* w := get in
      match robotsCache w !! robotsUrl with
      | Some cached => ret cached
      | None =>
          try_catch
            (let* response := fetchWithTimeout net robotsUrl in
             (if resp_ok response then ret tt
              else throw (Error (js "HTTP error! status: "
                                 ++ decimal (resp_status response)))) ;;
             let* robotsTxt := await (resp_text response) in
             let isAllowed :=
               default true (net_robots net robotsUrl robotsTxt targetUrl userAgent) in
             cacheSet robotsUrl isAllowed ;;
             ret isAllowed)
            (fun error =>
               if isAbortError error then ret false
               else cacheSet robotsUrl true ;; ret true)
      end
  end.

(** [crawlWebsite({ title, url })]; [None] is [null]. *)
Definition crawlWebsite (net : Net) (r : SearchResult)
  : M World (option CrawlResult) :=
  try_catch
    (let* isAllowed := isUrlAllowed net (sr_url r) USER_AGENT in
     if negb isAllowed then ret None
     else
       let* response := fetchWithTimeout net (sr_url r) in
       if negb (resp_ok response) then ret None
       else
         let* html := await (resp_text response) in
         ret (Some (net_extract net html (sr_title r))))
    (fun _ => ret None).

(** The [catch] block of [isUrlAllowed], on the world it runs in. *)
Definition onError (robotsUrl : jsstring) (e : Exn) (w : World)
  : Outcome bool * World :=
  if isAbortError e then (Returned false, w)
  else (Returned true, cached robotsUrl true w).

(** What [crawlWebsite] returns once [isUrlAllowed] has said yes. *)
Definition pageResult (net : Net) (r : SearchResult) : option CrawlResult :=
  match net_fetch net (sr_url r) with
  | Threw _ => None
  | Returned response =>
      if resp_ok response then
        match resp_text response with
        | Threw _ => None
        | Returned html => Some (net_extract net html (sr_title r))
        end
      else None
  end.

(** What one call adds to the record of the service. *)
Definition eventsOf {A} (c : M World A) (w : World) : list Event :=
  skipn (length (trace w)) (trace (snd (c w))).

(** *** A network for the examples

    [https://example.com/page] has the origin [https://example.com];
    [not a url] has no scheme, and [new URL] throws on it. *)
Definition exampleNet (fetched : Outcome Response) : Net :=
  {| net_origin := fun targetUrl =>
       if bool_decide (targetUrl = js "https://example.com/page")
       then Some (js "https://example.com") else None;
     net_fetch := fun _ => fetched;
     net_robots := fun _ _ _ _ => None;
     net_extract := fun _ title => {| cr_title := title; cr_texts := [] |} |}.

Definition emptyWorld : World := {| robotsCache := ∅; trace := [] |}.

Definition notFound : Response :=
  {| resp_ok := false; resp_status := 404; resp_text := Returned [] |}.

End Crawling.

(** ** Content extraction ([CrawlingService.extractContent])

    cheerio parses the page, removes [REMOVE_SELECTORS] and selects
    [SELECTORS]; what it hands to the callback of [each] is, for every
    selected element in document order, whether a selected element lies
    inside it and what its text is. The callback is the service's own. *)

Module Content.

Import Crawling.

Local Open Scope nat_scope.

Record Element := {
  el_nested : bool;     (* [$(element).find(SELECTORS).length > 0] *)
  el_text : jsstring    (* [$(element).text()] *)
}.

(** [BATCH_OPTIONS.MIN_TEXT_LENGTH]. *)
Definition MIN_TEXT_LENGTH : nat := 30.

(** [s.replace(/\s+/g, ' ')]: [skip] tells that the run of white space
    being read has already given its space. *)
Fixpoint collapse (skip : bool) (s : jsstring) : jsstring :=
  match s with
  | [] => []
  | c :: r =>
      if is_space c
      then (if skip then collapse true r else 32%N :: collapse true r)
      else c :: collapse false r
  end.

Fixpoint trimStart (s : jsstring) : jsstring :=
  match s with
  | [] => []
  | c :: r => if is_space c then trimStart r else s
  end.

(** [String.prototype.trim]. *)
Definition trim (s : jsstring) : jsstring :=
  rev (trimStart (rev (trimStart s))).

(** [$(element).text().replace(/\s+/g, ' ').trim()]. *)
Definition normalize (s : jsstring) : jsstring := trim (collapse false s).

(** [textSet.add(text)] on a [Set] kept in insertion order. *)
Definition setAdd (text : jsstring) (textSet : list jsstring)
  : list jsstring :=
  if bool_decide (text ∈ textSet) then textSet else textSet ++ [text].

(** The callback of [each]. *)
Definition visit (textSet : list jsstring) (element : Element)
  : list jsstring :=
  if el_nested element then textSet
  else
    let text := normalize (el_text element) in
    if Nat.leb MIN_TEXT_LENGTH (length text) then setAdd text textSet
    else textSet.

(** The elements whose text [visit] adds. *)
Definition kept (e : Element) : bool :=
  negb (el_nested e)
  && Nat.leb MIN_TEXT_LENGTH (length (normalize (el_text e))).

(** The normalized texts of the kept elements, in document order. *)
Definition textsOf (elements : list Element) : list jsstring :=
  List.map (fun e => normalize (el_text e)) (List.filter kept elements).

(** Not yet in the set. *)
Definition fresh (acc : list jsstring) (x : jsstring) : bool :=
  negb (bool_decide (x ∈ acc)).

(** [extractContent], from the elements cheerio selects. *)
Definition extractContent (elements : list Element) (title : jsstring)
  : CrawlResult :=
  {| cr_title := title;
     cr_texts := List.fold_left visit elements [] |}.

(** A text in the form [normalize] gives: every white space code unit is
    the space U+0020 and is not followed by white space ([spaced]), and
    there is no white space at either end. *)
Definition startsWithSpace (s : jsstring) : bool :=
  match s with
  | [] => false
  | c :: _ => is_space c
  end.

Fixpoint spaced (s : jsstring) : bool :=
  match s with
  | [] => true
  | c :: r =>
      (if is_space c then (c =? 32)%N && negb (startsWithSpace r) else true)
      && spaced r
  end.

Definition normalForm (s : jsstring) : bool :=
  spaced s && negb (startsWithSpace s) && negb (startsWithSpace (rev s)).

End Content.

(** ** The search client ([brave-search.service.ts]) *)

Module Brave.

Import Crawling.




(** The request: [q], [country] and [search_lang]. *)
Record Request := {
  req_q : jsstring;
  req_country : jsstring;
  req_search_lang : jsstring
}.

(** The requests sent so far. *)
Definition World : Type := list Request.

(** [ERROR_MESSAGE.BRAVE_SEARCH_API_REQUEST_FAILED]. *)
Definition BRAVE_SEARCH_API_REQUEST_FAILED : jsstring :=
  [66; 114; 97; 118; 101; 32; 83; 101; 97; 114; 99; 104; 32; 65; 80; 73;
   32; 50836; 52397; 32; 49892; 54056; 46]%N.



End Brave.

(** ** The orchestrator ([batch.service.ts])

    The calls of the logger are left out. The reads and writes of the
    store are taken to succeed; a transaction then adds its rows, and the
    two errors the store can raise here are the ones the service throws
    itself on a missing row. *)

Module Batch.

Import BM25 Crawling.

Local Open Scope Z_scope.

(** *** The store (Prisma) *)

(** A [Date], as its time value. *)
Definition Date : Type := Z.

(** A keyword row, with the dates of its [TodaysKeyword] relation. *)
Record Keyword := {
  kw_name : jsstring;
  kw_description : jsstring;
  kw_TodaysKeyword : list Date
}.

Record Article := {
  art_id : Z;
  art_title : jsstring;
  art_content : jsstring;
  art_summary : jsstring;
  art_publishedAt : Date;
  art_keywordId : Z
}.

(** The rest of a quiz item is carried as it came from the generation
    service; its [answer] is stored as [String(answer)]. *)
Inductive Answer :=
| AnsString (s : jsstring)
| AnsBoolean (v : bool).

Definition String_ (a : Answer) : jsstring :=
  match a with
  | AnsString s => s
  | AnsBoolean true => js "true"
  | AnsBoolean false => js "false"
  end.

Record QuizItem := { qi_rest : jsstring; qi_answer : Answer }.

Record Quiz := {
  quiz_rest : jsstring;
  quiz_answer : jsstring;
  quiz_articleId : Z
}.

(** Keywords by id (identifiers are [bigint]), the article and quiz
    tables in insertion order, and the next article id the database gives
    out. *)
Record Store := {
  keywords : gmap Z Keyword;
  articles : list Article;
  quizzes : list Quiz;
  nextArticleId : Z
}.

(** *** Prompts

    A prompt is a template literal around its arguments; it is kept as the
    template's name with the arguments. The reference data is
    [JSON.stringify] of the ranked documents and is kept as that list. *)
Inductive Prompt :=
| ConceptPrompt (keyword definition : jsstring) (json : list Document)
| ExamplePrompt (keyword definition : jsstring) (json : list Document)
| RelatedWordsPrompt (keyword definition : jsstring) (json : list Document)
| ImportancePrompt (keyword definition : jsstring) (json : list Document)
| ExplorationPrompt (keyword definition : jsstring) (json : list Document)
| SummaryPrompt (content : jsstring)
| QuizzesPrompt (content : jsstring).

Record TitleAndContent := { tc_title : jsstring; tc_content : jsstring }.

(** *** The collaborators

    What the other services answer during one invocation:
    [BraveSearchService.searchByKeyword], [CrawlingService.crawlWebsite]
    (which never throws), the two shapes of [AiService] calls, the clock
    ([svc_now i] is what [new Date()] gives the [i]-th time it is
    evaluated, counting from 0), and the order in which the store settles
    the writes that are outstanding at the same time. *)
Record Services := {
  svc_search : jsstring -> Outcome (list SearchResult);
  svc_crawl : SearchResult -> option CrawlResult;
  svc_articleFromAi : Prompt -> Outcome TitleAndContent;
  svc_quizzesFromAi : Prompt -> Outcome (list QuizItem);
  svc_textFromAi : Prompt -> Outcome jsstring;
  svc_now : nat -> Date;
  svc_settled : list nat
}.

(** Every call that leaves [BatchService], in order. *)
Inductive Call :=
| KeywordFindUnique (keywordId : Z)
| ArticleFindFirst (keywordId : Z)
| QuizFindFirst (keywordId : Z)
| ArticleFindMany (keywordId : Z)
| PublishedDateFind (keywordId : Z)
| ArticleCreate (a : Article)
| QuizCreate (q : Quiz)
| SearchByKeyword (query : jsstring)
| CrawlWebsite (r : SearchResult)
| Rank (docs : list Document) (query : jsstring)
| GenerateObjFromAi (p : Prompt)
| GenerateTextFromAi (p : Prompt).

Record World := { store : Store; calls : list Call }.

Definition addCalls (cs : list Call) (w : World) : World :=
  {| store := store w; calls := calls w ++ cs |}.

Definition call (c : Call) : M World unit := modify (addCalls [c]).

Definition setStore (f : Store -> Store) : M World unit :=
  modify (fun w => {| store := f (store w); calls := calls w |}).

Definition getStore : M World Store := let* w := get in ret (store w).

(** [ERROR_MESSAGE]. *)
Definition KEYWORD_NOT_FOUND : jsstring :=
  [51316; 51116; 54616; 51648; 32; 50506; 45716; 32; 53412; 50892; 46300;
   32; 51077; 45768; 45796; 46]%N.
Definition CONTENTS_ALREADY_EXISTS : jsstring :=
  [67; 111; 110; 116; 101; 110; 116; 115; 44032; 32; 51060; 48120; 32;
   51316; 51116; 54633; 45768; 45796; 46]%N.
Definition BRAVE_SEARCH_API_REQUEST_FAILED : jsstring :=
  [66; 114; 97; 118; 101; 32; 83; 101; 97; 114; 99; 104; 32; 65; 80; 73;
   32; 50836; 52397; 32; 49892; 54056; 46]%N.
Definition KEYWORD_DATE_NOT_EXISTS : jsstring :=
  [53412; 50892; 46300; 51032; 32; 45216; 51676; 44032; 32; 51316; 51116;
   54616; 51648; 32; 50506; 49845; 45768; 45796; 46]%N.

(** [BATCH_OPTIONS.MAX_TEXT_LENGTH_FOR_BM25]. *)
Definition MAX_TEXT_LENGTH_FOR_BM25 : nat := 1000.

(** *** Reading the store *)

Record KeywordInfo := { name : jsstring; description : jsstring }.

Definition findKeyword (keywordId : Z) : M World KeywordInfo :=
  call (KeywordFindUnique keywordId) ;;
  let* st := getStore in
  match keywords st !! keywordId with
  | None => throw (Error KEYWORD_NOT_FOUND)
  | Some k => ret {| name := kw_name k; description := kw_description k |}
  end.

Definition articlesOf (st : Store) (keywordId : Z) : list Article :=
  List.filter (fun a => art_keywordId a =? keywordId) (articles st).

(** The quizzes reached by [where: { Article: { keywordId } }]. *)
Definition quizzesOf (st : Store) (keywordId : Z) : list Quiz :=
  List.filter
    (fun q => existsb (fun a => art_id a =? quiz_articleId q)
                      (articlesOf st keywordId))
    (quizzes st).

Definition isArticleExists (keywordId : Z) : M World bool :=
  call (ArticleFindFirst keywordId) ;;
  let* st := getStore in
  ret (match articlesOf st keywordId with [] => false | _ => true end).

Definition isQuizExists (keywordId : Z) : M World bool :=
  call (QuizFindFirst keywordId) ;;
  let* st := getStore in
  ret (match quizzesOf st keywordId with [] => false | _ => true end).

Definition getKeywordPublishedDate (keywordId : Z) : M World Date :=
  call (PublishedDateFind keywordId) ;;
  let* st := getStore in
  match keywords st !! keywordId with
  | None => throw (Error KEYWORD_NOT_FOUND)
  | Some k =>
      match kw_TodaysKeyword k with
      | [] => throw (Error KEYWORD_DATE_NOT_EXISTS)
      | date :: _ => ret date
      end
  end.

(** *** Search, crawl, rank *)

(** [s.split('.')[0]]. *)
Fixpoint beforeDot (s : jsstring) : jsstring :=
  match s with
  | [] => []
  | c :: r => if (c =? 46)%N then [] else c :: beforeDot r
  end.

Definition generateQuery (k : KeywordInfo) : jsstring :=
  name k ++ js " " ++ beforeDot (description k).

(** [texts.join('\n')]. *)
Fixpoint join (sep : jsstring) (l : list jsstring) : jsstring :=
  match l with
  | [] => []
  | [x] => x
  | x :: r => x ++ sep ++ join sep r
  end.

Definition validDocsOf (crawledArr : list (option CrawlResult))
  : list Document :=
  List.filter
    (fun d => Nat.leb (length (content d)) MAX_TEXT_LENGTH_FOR_BM25)
    (List.map
       (fun c => {| title := cr_title c;
                    content := join [10%N] (cr_texts c) |})
       (omap (fun c => c) crawledArr)).

Definition generateRelatedData (sv : Services) (k : KeywordInfo)
  : M World (list Document) :=
  let query := generateQuery k in
  call (SearchByKeyword query) ;;
  let* searchResults := await (svc_search sv query) in
  let* crawledArr :=
    promiseAll (fun r => call (CrawlWebsite r) ;; ret (svc_crawl sv r))
               searchResults in
  let validDocs := validDocsOf crawledArr in
  call (Rank validDocs query) ;;
  let bm25Service := BM25.new validDocs defaultPartial in
  ret (List.map document (fst (search bm25Service query defaultTopK))).

Definition createPrompts (sv : Services) (k : KeywordInfo)
  : M World (list Prompt) :=
  let* relatedData := generateRelatedData sv k in
  ret [ ConceptPrompt (name k) (description k) relatedData;
        ExamplePrompt (name k) (description k) relatedData;
        RelatedWordsPrompt (name k) (description k) relatedData;
        ImportancePrompt (name k) (description k) relatedData;
        ExplorationPrompt (name k) (description k) relatedData ].

(** *** Generation and persistence *)

(** [prisma.article.create({ data })] inside the transaction. *)
Definition articleCreate (tc : TitleAndContent) (summary : jsstring)
    (publishedAt : Date) (keywordId : Z) : M World Article :=
  let* st := getStore in
  let a := {| art_id := nextArticleId st; art_title := tc_title tc;
              art_content := tc_content tc; art_summary := summary;
              art_publishedAt := publishedAt; art_keywordId := keywordId |} in
  call (ArticleCreate a) ;;
  setStore (fun st => {| keywords := keywords st;
                         articles := articles st ++ [a];
                         quizzes := quizzes st;
                         nextArticleId := nextArticleId st + 1 |}) ;;
  ret a.

Definition quizCreate (q : Quiz) : M World unit :=
  call (QuizCreate q) ;;
  setStore (fun st => {| keywords := keywords st; articles := articles st;
                         quizzes := quizzes st ++ [q];
                         nextArticleId := nextArticleId st |}).

(** [titleAndContents.map((titleAndContent, idx) => ...)]: the elements
    with their index. *)
Fixpoint indexed {A} (idx : nat) (l : list A) : list (nat * A) :=
  match l with
  | [] => []
  | a :: r => (idx, a) :: indexed (S idx) r
  end.

(** [generateArticles]; the two versions of the service differ in where
    [publishedAt] comes from: the first awaits one date from the store
    before it builds the rows, the second evaluates [new Date()] for each
    row as it builds it. [publishedAt] gives the date of the row at each
    index. The summaries are paired with the articles by index
    ([summaries[idx]]); [Promise.all] keeps the lengths equal. *)
Definition generateArticles (sv : Services)
    (publishedAt : M World (nat -> Date))
    (keywordId : Z) (prompts : list Prompt) : M World (list Article) :=
  let* titleAndContents :=
    promiseAll (fun p => call (GenerateObjFromAi p) ;;
                         await (svc_articleFromAi sv p)) prompts in
  let* summaries :=
    promiseAll (fun tc => let p := SummaryPrompt (tc_content tc) in
                          call (GenerateTextFromAi p) ;;
                          await (svc_textFromAi sv p)) titleAndContents in
  let* publishedAt := publishedAt in
  forCollect
    (fun '(idx, (tc, summary)) =>
       articleCreate tc summary (publishedAt idx) keywordId)
    (indexed 0 (combine titleAndContents summaries)).

(** The first version: [await this.getKeywordPublishedDate(keywordId)],
    one date for every row. *)
Definition publishedAtFromStore (keywordId : Z) : M World (nat -> Date) :=
  let* publishedAt := getKeywordPublishedDate keywordId in
  ret (fun _ : nat => publishedAt).

(** The second version: [publishedAt: new Date()] in the callback of
    [map], evaluated once for each row. *)
Definition publishedAtNow (sv : Services) : M World (nat -> Date) :=
  ret (svc_now sv).

(** The row [generateQuizzes] writes for one item of one article. *)
Definition quizRow (articleId : Z) (item : QuizItem) : Quiz :=
  {| quiz_rest := qi_rest item; quiz_answer := String_ (qi_answer item);
     quiz_articleId := articleId |}.

(** [generateQuizzes]. The generation calls are all issued, one for each
    article, before any is awaited. In the transaction the callbacks of
    the articles run side by side, each creating the rows of its article
    one after the other: the first row of every article is written
    before any second row, and the rest as the store settles the
    writes. *)
Definition generateQuizzes (sv : Services) (keywordId : Z) : M World unit :=
  call (ArticleFindMany keywordId) ;;
  let* st := getStore in
  let* quizzes :=
    promiseAll (fun article =>
                  let p := QuizzesPrompt (art_content article) in
                  call (GenerateObjFromAi p) ;;
                  let* items := await (svc_quizzesFromAi sv p) in
                  ret (art_id article, items))
               (articlesOf st keywordId) in
  promiseAllLoops quizCreate (svc_settled sv)
    (List.map (fun '(articleId, items) => List.map (quizRow articleId) items)
              quizzes).

(** [generateContents], first version of the file (the article check
    comes first, the keyword is resolved on the way to the prompts). *)
Definition generateContents (sv : Services) (keywordId : Z) : M World unit :=
  let* articleExists := isArticleExists keywordId in
  if articleExists then
    let* quizExists := isQuizExists keywordId in
    if quizExists then throw (Error CONTENTS_ALREADY_EXISTS)
    else generateQuizzes sv keywordId
  else
    let* keywordInfo := findKeyword keywordId in
    let* prompts := createPrompts sv keywordInfo in
    generateArticles sv (publishedAtFromStore keywordId) keywordId prompts ;;
    generateQuizzes sv keywordId.

(** [generateContents], second version of the file (the keyword is
    resolved first; each article is dated by its own [new Date()]). *)
Definition generateContents2 (sv : Services) (keywordId : Z) : M World unit :=
  let* keywordInfo := findKeyword keywordId in
  let* articleExists := isArticleExists keywordId in
  if articleExists then
    let* quizExists := isQuizExists keywordId in
    if quizExists then throw (Error CONTENTS_ALREADY_EXISTS)
    else generateQuizzes sv keywordId
  else
    let* prompts := createPrompts sv keywordInfo in
    generateArticles sv (publishedAtNow sv) keywordId prompts ;;
    generateQuizzes sv keywordId.

(** *** Reading the record of calls *)

(** What one invocation adds to the record. *)
Definition callsOf {A} (c : M World A) (w : World) : list Call :=
  skipn (length (calls w)) (calls (snd (c w))).


(** The calls that write to the store. *)
Definition writeCall (c : Call) : bool :=
  match c with
  | ArticleCreate _ | QuizCreate _ => true
  | _ => false
  end.

(** What [Promise.all] makes of the outcomes of its calls. *)
Fixpoint allOutcomes {A} (l : list (Outcome A)) : Outcome (list A) :=
  match l with
  | [] => Returned []
  | Returned x :: r =>
      match allOutcomes r with
      | Returned xs => Returned (x :: xs)
      | Threw e => Threw e
      end
  | Threw e :: _ => Threw e
  end.

(** The rows of the generated items, article by article. *)
Definition quizRows (generated : list (Z * list QuizItem)) : list Quiz :=
  List.concat
    (List.map (fun '(articleId, items) => List.map (quizRow articleId) items)
              generated).

(** The first row of every article that has one, in the order of the
    articles. *)
Definition firstRows (generated : list (Z * list QuizItem)) : list Quiz :=
  List.concat
    (List.map
       (fun '(articleId, items) => firstn 1 (List.map (quizRow articleId) items))
       generated).

(** The world after the quiz rows [rows] have been written. *)
Definition persistQuizzes (rows : list Quiz) (w : World) : World :=
  {| store := {| keywords := keywords (store w);
                 articles := articles (store w);
                 quizzes := quizzes (store w) ++ rows;
                 nextArticleId := nextArticleId (store w) |};
     calls := calls w ++ List.map QuizCreate rows |}.

(** What the generation service gives for the articles of a keyword: the
    items of each article with its id, or the first failure. *)
Definition quizPromptOf (a : Article) : Prompt :=
  QuizzesPrompt (art_content a).

Definition generatedQuizzes (sv : Services) (arts : list Article)
  : Outcome (list (Z * list QuizItem)) :=
  allOutcomes
    (List.map
       (fun a =>
          match svc_quizzesFromAi sv (quizPromptOf a) with
          | Returned items => Returned (art_id a, items)
          | Threw e => Threw e
          end)
       arts).

Definition nonEmptyList {A} (l : list A) : bool :=
  match l with [] => false | _ => true end.

(** *** The article stage, run *)

(** The five prompts of [createPrompts]. *)
Definition promptsOf (k : KeywordInfo) (relatedData : list Document)
  : list Prompt :=
  [ ConceptPrompt (name k) (description k) relatedData;
    ExamplePrompt (name k) (description k) relatedData;
    RelatedWordsPrompt (name k) (description k) relatedData;
    ImportancePrompt (name k) (description k) relatedData;
    ExplorationPrompt (name k) (description k) relatedData ].

(** The documents [generateRelatedData] hands on, for given search
    results. *)
Definition relatedDataOf (sv : Services) (query : jsstring)
    (searchResults : list SearchResult) : list Document :=
  let validDocs := validDocsOf (List.map (svc_crawl sv) searchResults) in
  List.map document
    (fst (search (BM25.new validDocs defaultPartial) query defaultTopK)).

(** The rows the transaction of [generateArticles] creates, the first
    under the id [next], all with one date. *)
Fixpoint newArticles (next : Z) (publishedAt : Date) (keywordId : Z)
    (l : list (TitleAndContent * jsstring)) : list Article :=
  match l with
  | [] => []
  | (tc, summary) :: r =>
      {| art_id := next; art_title := tc_title tc;
         art_content := tc_content tc; art_summary := summary;
         art_publishedAt := publishedAt; art_keywordId := keywordId |}
      :: newArticles (next + 1) publishedAt keywordId r
  end.

(** The same rows, each with the date of its index. *)
Fixpoint newArticlesAt (next : Z) (publishedAt : nat -> Date)
    (keywordId : Z) (l : list (nat * (TitleAndContent * jsstring)))
  : list Article :=
  match l with
  | [] => []
  | (idx, (tc, summary)) :: r =>
      {| art_id := next; art_title := tc_title tc;
         art_content := tc_content tc; art_summary := summary;
         art_publishedAt := publishedAt idx; art_keywordId := keywordId |}
      :: newArticlesAt (next + 1) publishedAt keywordId r
  end.

(** The world after the article rows [rows] have been written. *)
Definition persistArticles (rows : list Article) (w : World) : World :=
  {| store := {| keywords := keywords (store w);
                 articles := articles (store w) ++ rows;
                 quizzes := quizzes (store w);
                 nextArticleId := nextArticleId (store w)
                                  + Z.of_nat (length rows) |};
     calls := calls w ++ List.map ArticleCreate rows |}.

Definition summaryPromptOf (tc : TitleAndContent) : Prompt :=
  SummaryPrompt (tc_content tc).

(** What the store answers to [getKeywordPublishedDate]. *)
Definition publishedDateOf (st : Store) (keywordId : Z) : Outcome Date :=
  match keywords st !! keywordId with
  | None => Threw (Error KEYWORD_NOT_FOUND)
  | Some k =>
      match kw_TodaysKeyword k with
      | [] => Threw (Error KEYWORD_DATE_NOT_EXISTS)
      | date :: _ => Returned date
      end
  end.

Definition infoOf (kw : Keyword) : KeywordInfo :=
  {| name := kw_name kw; description := kw_description kw |}.

(** The calls of discovery and ranking, for given search results. *)
Definition discoveryCalls (sv : Services) (query : jsstring)
    (searchResults : list SearchResult) : list Call :=
  SearchByKeyword query
    :: List.map CrawlWebsite searchResults
    ++ [Rank (validDocsOf (List.map (svc_crawl sv) searchResults)) query].

(** The calls that generate the articles and their summaries. *)
Definition generationCalls (prompts : list Prompt)
    (tcs : list TitleAndContent) : list Call :=
  List.map GenerateObjFromAi prompts
  ++ List.map (fun tc => GenerateTextFromAi (summaryPromptOf tc)) tcs.

Definition generatedArticles (sv : Services) (prompts : list Prompt)
  : Outcome (list TitleAndContent) :=
  allOutcomes (List.map (svc_articleFromAi sv) prompts).

Definition generatedSummaries (sv : Services) (tcs : list TitleAndContent)
  : Outcome (list jsstring) :=
  allOutcomes (List.map (fun tc => svc_textFromAi sv (summaryPromptOf tc)) tcs).

(** What both versions of [generateContents] do once the keyword is
    resolved and no article was found. *)
Definition articlesThenQuizzes (sv : Services)
    (publishedAt : M World (nat -> Date))
    (keywordId : Z) (keywordInfo : KeywordInfo) : M World unit :=
  let* prompts := createPrompts sv keywordInfo in
  generateArticles sv publishedAt keywordId prompts ;;
  generateQuizzes sv keywordId.

(** *** Stores and collaborators for the examples *)

Definition inflation : Keyword :=
  {| kw_name := js "inflation";
     kw_description :=
       js "A sustained rise in prices. It reduces purchasing power.";
     kw_TodaysKeyword := [20250101] |}.

Definition conceptArticle : Article :=
  {| art_id := 10; art_title := js "What inflation is";
     art_content := js "Prices rise over time."; art_summary := js "Prices rise.";
     art_publishedAt := 20250101; art_keywordId := 1 |}.

Definition conceptQuiz : Quiz :=
  {| quiz_rest := js "Do prices rise under inflation?";
     quiz_answer := js "true"; quiz_articleId := 10 |}.

Definition emptyStore : Store :=
  {| keywords := ∅; articles := []; quizzes := []; nextArticleId := 1 |}.

(** Keyword 1 with one article and no quiz. *)
Definition articleOnlyStore : Store :=
  {| keywords := {[ 1 := inflation ]}; articles := [conceptArticle];
     quizzes := []; nextArticleId := 11 |}.

(** Keyword 1 with one article and one quiz. *)
Definition completeStore : Store :=
  {| keywords := {[ 1 := inflation ]}; articles := [conceptArticle];
     quizzes := [conceptQuiz]; nextArticleId := 11 |}.

Definition exampleItem : QuizItem :=
  {| qi_rest := js "Inflation lowers purchasing power.";
     qi_answer := AnsBoolean true |}.

Definition exampleServices : Services :=
  {| svc_search := fun _ => Returned [];
     svc_crawl := fun _ => None;
     svc_articleFromAi := fun _ =>
       Returned {| tc_title := js "title"; tc_content := js "content" |};
     svc_quizzesFromAi := fun _ => Returned [exampleItem];
     svc_textFromAi := fun _ => Returned (js "summary");
     svc_now := fun i => 20250102 + Z.of_nat i;
     svc_settled := [] |}.

(** An article and a quiz whose keyword row is gone. *)
Definition orphanStore : Store :=
  {| keywords := ∅; articles := [conceptArticle]; quizzes := [conceptQuiz];
     nextArticleId := 11 |}.

Definition worldOf (st : Store) : World := {| store := st; calls := [] |}.

(** Keyword 1 with its row only. *)
Definition keywordOnlyStore : Store :=
  {| keywords := {[ 1 := inflation ]}; articles := []; quizzes := [];
     nextArticleId := 1 |}.

(** Keyword 1 without a date in [TodaysKeyword]. *)
Definition undatedStore : Store :=
  {| keywords :=
       {[ 1 := {| kw_name := kw_name inflation;
                  kw_description := kw_description inflation;
                  kw_TodaysKeyword := [] |} ]};
     articles := []; quizzes := []; nextArticleId := 1 |}.

(** The collaborators when the search API answers with an error. *)
Definition failingSearch : Services :=
  {| svc_search := fun _ => Threw (Error BRAVE_SEARCH_API_REQUEST_FAILED);
     svc_crawl := svc_crawl exampleServices;
     svc_articleFromAi := svc_articleFromAi exampleServices;
     svc_quizzesFromAi := svc_quizzesFromAi exampleServices;
     svc_textFromAi := svc_textFromAi exampleServices;
     svc_now := svc_now exampleServices;
     svc_settled := svc_settled exampleServices |}.

(** The collaborators when the generation service has no quiz to give. *)
Definition noQuizServices : Services :=
  {| svc_search := svc_search exampleServices;
     svc_crawl := svc_crawl exampleServices;
     svc_articleFromAi := svc_articleFromAi exampleServices;
     svc_quizzesFromAi := fun _ => Returned [];
     svc_textFromAi := svc_textFromAi exampleServices;
     svc_now := svc_now exampleServices;
     svc_settled := svc_settled exampleServices |}.

(** Keyword 1 with two articles and no quiz. *)
Definition exampleArticle : Article :=
  {| art_id := 11; art_title := js "Inflation in daily life";
     art_content := js "Bread costs more than last year.";
     art_summary := js "Bread costs more.";
     art_publishedAt := 20250101; art_keywordId := 1 |}.

Definition twoArticleStore : Store :=
  {| keywords := {[ 1 := inflation ]};
     articles := [conceptArticle; exampleArticle];
     quizzes := []; nextArticleId := 12 |}.

Definition secondItem : QuizItem :=
  {| qi_rest := js "Which word names a general rise in prices?";
     qi_answer := AnsString (js "inflation") |}.


(** The same, the store settling the newest outstanding write first. *)
Definition newestFirstServices : Services :=
  {| svc_search := svc_search exampleServices;
     svc_crawl := svc_crawl exampleServices;
     svc_articleFromAi := svc_articleFromAi exampleServices;
     svc_quizzesFromAi := fun _ => Returned [exampleItem; secondItem];
     svc_textFromAi := svc_textFromAi exampleServices;
     svc_now := svc_now exampleServices;
     svc_settled := [1; 1; 1; 1]%nat |}.

End Batch.

(** * Properties *)

(** ** The tokenizer *)

Module TokenizeFacts.

Import BM25.

Local Open Scope N_scope.

(** Decide the comparisons of a goal one after the other, dropping at once
    the branches the context refutes. *)
Ltac cases_N :=
  repeat match goal with
    | |- context [N.leb ?a ?b] =>
        destruct (N.leb_spec a b); try lia; simpl
    | |- context [N.eqb ?a ?b] =>
        destruct (N.eqb_spec a b); try lia; simpl
    end.

Lemma in_range_spec lo hi c :
  in_range lo hi c = true <-> lo <= c <= hi.
Proof.
  unfold in_range. rewrite andb_true_iff, !N.leb_le. tauto.
Qed.

Lemma is_hangul_spec c :
  is_hangul c = true <->
  4352 <= c <= 4607 \/ 12592 <= c <= 12687 \/ 43360 <= c <= 43391
  \/ 44032 <= c <= 55295.
Proof.
  unfold is_hangul. rewrite !orb_true_iff, !in_range_spec. tauto.
Qed.

Lemma hangul_lowerUnit c : is_hangul c = true -> lowerUnit c = [c].
Proof.
  rewrite is_hangul_spec. intros H.
  unfold lowerUnit, is_upper, in_range.
  destruct H as [H | [H | [H | H]]]; cases_N; reflexivity.
Qed.

Lemma hangul_not_word c : is_hangul c = true -> is_word c = false.
Proof.
  rewrite is_hangul_spec. intros H.
  unfold is_word, is_upper, is_lower, is_digit, in_range.
  destruct H as [H | [H | [H | H]]]; cases_N; reflexivity.
Qed.


Lemma lower_word_of_word c :
  is_word c = true -> is_upper c = false -> is_lower_word c = true.
Proof.
  unfold is_word, is_lower_word. intros H Hu. rewrite Hu in H. exact H.
Qed.

Lemma lower_word_is_word c : is_lower_word c = true -> is_word c = true.
Proof.
  unfold is_word, is_lower_word.
  destruct (is_upper c), (is_lower c), (is_digit c), (c =? 95);
    simpl; congruence.
Qed.

(** No capital letter is left by [toLowerCase]. *)
Lemma lowerUnit_no_upper c :
  Forall (fun u => is_upper u = false) (lowerUnit c).
Proof.
  unfold lowerUnit. destruct (is_upper c) eqn:Hu.
  - constructor; [| constructor].
    unfold is_upper, in_range in *.
    apply andb_true_iff in Hu. destruct Hu as [H1 H2].
    apply N.leb_le in H1. apply N.leb_le in H2. cases_N; reflexivity.
  - destruct (N.eqb_spec c 8490).
    + repeat constructor.
    + destruct (N.eqb_spec c 304).
      * repeat constructor.
      * constructor; [exact Hu | constructor].
Qed.

Lemma toLowerCase_no_upper s :
  Forall (fun u => is_upper u = false) (toLowerCase s).
Proof.
  unfold toLowerCase. induction s as [| c s IH]; simpl.
  - constructor.
  - apply Forall_app. split; [apply lowerUnit_no_upper | exact IH].
Qed.

Lemma toLowerCase_app s1 s2 :
  toLowerCase (s1 ++ s2) = toLowerCase s1 ++ toLowerCase s2.
Proof. unfold toLowerCase. rewrite map_app. apply concat_app. Qed.

Lemma replaceNonWord_app s1 s2 :
  replaceNonWord (s1 ++ s2) = replaceNonWord s1 ++ replaceNonWord s2.
Proof. unfold replaceNonWord. apply map_app. Qed.

(** After the replacement a code unit is white space or one of
    [[a-z0-9_]]. *)
Lemma replaced_units s :
  Forall (fun u => is_space u = false -> is_lower_word u = true)
         (replaceNonWord (toLowerCase s)).
Proof.
  unfold replaceNonWord. apply Forall_map.
  pose proof (toLowerCase_no_upper s) as Hall.
  rewrite Forall_forall in *. intros u Hin. specialize (Hall u Hin).
  simpl in Hall. simpl. rename Hall into Hu.
  destruct (is_word u) eqn:Hw; simpl.
  - intros _. apply lower_word_of_word; assumption.
  - destruct (is_space u) eqn:Hs; [congruence |].
    intros H. discriminate H.
Qed.

(** The pieces of [split] hold what was being read and the code units
    that are not white space. *)
Lemma split_go_pieces (P : N -> Prop) s : forall cur skip,
  Forall P cur ->
  Forall (fun u => is_space u = false -> P u) s ->
  Forall (Forall P) (split_go cur skip s).
Proof.
  induction s as [| c r IH]; intros cur skip Hcur Hs; simpl.
  - constructor; [| constructor]. apply Forall_rev. exact Hcur.
  - inversion Hs as [| ? ? Hc Hr]; subst.
    destruct (is_space c) eqn:Hsp.
    + destruct skip.
      * apply IH; assumption.
      * constructor; [apply Forall_rev; exact Hcur |].
        apply IH; [constructor | assumption].
    + apply IH; [| assumption]. constructor; [apply Hc; reflexivity | exact Hcur].
Qed.

Lemma tokensFrom_skip s : tokensFrom [] true s = tokensFrom [] false s.
Proof.
  unfold tokensFrom. destruct s as [| c r]; simpl; [reflexivity |].
  destruct (is_space c); reflexivity.
Qed.

Lemma tokensFrom_space sp s :
  is_space sp = true -> tokensFrom [] false (sp :: s) = tokensFrom [] false s.
Proof.
  intros H. unfold tokensFrom. simpl. rewrite H. simpl.
  apply tokensFrom_skip.
Qed.

(** A white space code unit ends the piece before it and starts a new
    one. *)
Lemma tokensFrom_cons_piece piece s :
  List.filter nonEmpty (piece :: split_go [] true s)
  = List.filter nonEmpty [piece] ++ tokensFrom [] true s.
Proof. simpl. destruct (nonEmpty piece); reflexivity. Qed.

Lemma tokensFrom_sep sp s2 s1 : forall cur skip,
  (skip = true -> cur = []) ->
  is_space sp = true ->
  tokensFrom cur skip (s1 ++ sp :: s2)
  = tokensFrom cur skip s1 ++ tokensFrom [] false s2.
Proof.
  induction s1 as [| c r IH]; intros cur skip Hinv Hsp.
  - unfold tokensFrom at 1 2. simpl. rewrite Hsp. destruct skip.
    + rewrite (Hinv eq_refl). simpl. apply tokensFrom_skip.
    + rewrite tokensFrom_cons_piece, tokensFrom_skip. reflexivity.
  - unfold tokensFrom at 1 2. simpl. destruct (is_space c) eqn:Hc.
    + destruct skip.
      * apply IH; assumption.
      * rewrite !tokensFrom_cons_piece, <- app_assoc. f_equal.
        apply IH; auto.
    + apply IH; [discriminate | assumption].
Qed.

Lemma tokensFrom_run sps s1 s2 :
  sps <> [] -> Forall (fun u => is_space u = true) sps ->
  tokensFrom [] false (s1 ++ sps ++ s2)
  = tokensFrom [] false s1 ++ tokensFrom [] false s2.
Proof.
  intros Hne Hall. destruct sps as [| sp r]; [congruence |].
  inversion Hall as [| ? ? Hsp Hr]; subst. clear Hne Hall.
  simpl. rewrite tokensFrom_sep by (auto; discriminate). f_equal.
  induction r as [| c r IH]; simpl; [reflexivity |].
  inversion Hr; subst. rewrite tokensFrom_space by assumption. auto.
Qed.

Lemma tokenize_tokensFrom text :
  tokenize text = tokensFrom [] false (replaceNonWord (toLowerCase text)).
Proof. reflexivity. Qed.

(** A code unit whose lower-case form has nothing of [[a-z0-9_]] is turned
    into white space. *)
Lemma replaced_to_space c :
  Forall (fun u => is_lower_word u = false) (lowerUnit c) ->
  Forall (fun u => is_space u = true) (replaceNonWord (toLowerCase [c])).
Proof.
  intros H. unfold toLowerCase. simpl. rewrite app_nil_r.
  unfold replaceNonWord. apply Forall_map.
  pose proof (lowerUnit_no_upper c) as Hu.
  rewrite Forall_forall in *. intros u Hin. simpl.
  specialize (H u Hin). specialize (Hu u Hin). simpl in H, Hu.
  destruct (is_word u) eqn:Hw.
  - rewrite (lower_word_of_word u Hw Hu) in H. discriminate.
  - simpl. destruct (is_space u) eqn:Hs; [exact Hs | reflexivity].
Qed.

Lemma lowerUnit_nonempty c : lowerUnit c <> [].
Proof.
  unfold lowerUnit. destruct (is_upper c); [discriminate |].
  destruct (c =? 8490); [discriminate |].
  destruct (c =? 304); discriminate.
Qed.

Lemma tokenize_separator c s1 s2 :
  Forall (fun u => is_lower_word u = false) (lowerUnit c) ->
  tokenize (s1 ++ c :: s2) = tokenize s1 ++ tokenize s2.
Proof.
  intros H. rewrite !tokenize_tokensFrom.
  change (c :: s2) with ([c] ++ s2).
  rewrite !toLowerCase_app, !replaceNonWord_app.
  apply tokensFrom_run; [| apply replaced_to_space; exact H].
  unfold toLowerCase. simpl. rewrite app_nil_r. unfold replaceNonWord.
  intros Hnil. apply map_eq_nil in Hnil. exact (lowerUnit_nonempty c Hnil).
Qed.

Lemma hangul_separator c :
  is_hangul c = true ->
  Forall (fun u => is_lower_word u = false) (lowerUnit c).
Proof.
  intros H. rewrite (hangul_lowerUnit c H). constructor; [| constructor].
  destruct (is_lower_word c) eqn:Hl; [| reflexivity].
  apply lower_word_is_word in Hl. rewrite (hangul_not_word c H) in Hl.
  discriminate.
Qed.

Lemma tokenize_nil : tokenize [] = [].
Proof. reflexivity. Qed.

Lemma tokenize_all_separators text :
  Forall (fun c => Forall (fun u => is_lower_word u = false) (lowerUnit c)) text ->
  tokenize text = [].
Proof.
  induction 1 as [| c r Hc Hr IH]; [reflexivity |].
  change (c :: r) with ([] ++ c :: r).
  rewrite tokenize_separator by exact Hc. rewrite IH. reflexivity.
Qed.

Lemma tokenize_tokens text tok :
  In tok (tokenize text) ->
  tok <> [] /\ Forall (fun c => is_lower_word c = true) tok.
Proof.
  unfold tokenize. intros Hin. apply filter_In in Hin.
  destruct Hin as [Hin Hne]. split.
  - intros ->. discriminate Hne.
  - pose proof (split_go_pieces (fun c => is_lower_word c = true)
                  (replaceNonWord (toLowerCase text)) [] false
                  (List.Forall_nil _) (replaced_units text)) as Hall.
    rewrite List.Forall_forall in Hall. apply Hall. exact Hin.
Qed.







End TokenizeFacts.

(** ** The index *)

Module IndexFacts.

Import BM25.

Local Open Scope nat_scope.

Lemma uniqueTerms_In t l : In t (uniqueTerms l) <-> In t l.
Proof.
  induction l as [| x r IH]; simpl; [tauto |].
  rewrite filter_In, IH. split.
  - intros [H | [H _]]; auto.
  - intros [H | H]; [auto |].
    destruct (decide (t = x)) as [-> | Hne]; [auto |].
    right. split; [exact H |].
    rewrite bool_decide_eq_false_2 by exact Hne. reflexivity.
Qed.

(** A stored count never moves once it is there. *)
Lemma countDocs_values terms : forall cnts : gmap jsstring nat,
  (forall t c, cnts !! t = Some c -> c = 1) ->
  forall t c, countDocs cnts terms !! t = Some c -> c = 1.
Proof.
  unfold countDocs.
  induction terms as [| x r IH]; intros cnts Hinv t c; simpl.
  - apply Hinv.
  - apply IH. intros t' c'. rewrite lookup_insert. case_decide.
    + intros [= <-]. destruct (cnts !! x) as [c0 |] eqn:Hx; simpl.
      * eapply Hinv; eassumption.
      * reflexivity.
    + apply Hinv.
Qed.

Lemma countDocs_dom terms : forall (cnts : gmap jsstring nat) t,
  is_Some (countDocs cnts terms !! t) <-> In t terms \/ is_Some (cnts !! t).
Proof.
  unfold countDocs.
  induction terms as [| x r IH]; intros cnts t; simpl.
  - tauto.
  - rewrite IH, lookup_insert. case_decide as Hx.
    + subst. split; [auto | intros _; right; eexists; reflexivity].
    + split; intros [H | H]; auto. destruct H; [congruence | auto].
Qed.

(** An entry that is already [Some] keeps its value whatever comes. *)
Lemma countDocs_keeps terms : forall (cnts : gmap jsstring nat) t c,
  cnts !! t = Some c -> countDocs cnts terms !! t = Some c.
Proof.
  unfold countDocs.
  induction terms as [| x r IH]; intros cnts t c H; simpl; [exact H |].
  apply IH. rewrite lookup_insert. case_decide as Hx; [| exact H].
  subst. rewrite H. reflexivity.
Qed.

Lemma countTerms_from l : forall (m : gmap jsstring nat) t,
  default 0
    (List.fold_left
       (fun termFreq token =>
          <[token := default 0 (termFreq !! token) + 1]> termFreq) l m !! t)
  = default 0 (m !! t) + occurrences t l.
Proof.
  unfold occurrences.
  induction l as [| x r IH]; intros m t; simpl; [lia |].
  rewrite IH, lookup_insert. case_decide as Hx.
  - subst. rewrite bool_decide_eq_true_2 by reflexivity. simpl. lia.
  - rewrite bool_decide_eq_false_2 by exact Hx. reflexivity.
Qed.

Lemma countTerms_lookup l t :
  default 0 (countTerms l !! t) = occurrences t l.
Proof.
  unfold countTerms. rewrite countTerms_from, lookup_empty. reflexivity.
Qed.

Lemma occurrences_pos t l : 0 < occurrences t l <-> In t l.
Proof.
  unfold occurrences. induction l as [| x r IH]; simpl.
  - split; [lia | tauto].
  - case_bool_decide as Hx; simpl.
    + subst. split; [auto | lia].
    + rewrite IH. split; [auto | intros [H | H]; [congruence | exact H]].
Qed.

Lemma indexFrom_cons st d r :
  indexFrom st (d :: r) = indexFrom (indexDocument st d) r.
Proof. reflexivity. Qed.

Lemma indexFrom_termFrequencies docs : forall st t,
  st_termFrequencies (indexFrom st docs) !! t
  = match indexedUnder docs t with
    | Some d => Some (countTerms (tokenize (content d)))
    | None => st_termFrequencies st !! t
    end.
Proof.
  induction docs as [| d r IH]; intros st t; [reflexivity |].
  rewrite indexFrom_cons, IH. simpl.
  destruct (indexedUnder r t); [reflexivity |].
  rewrite lookup_insert. case_decide as Hd.
  - rewrite bool_decide_eq_true_2 by exact Hd. reflexivity.
  - rewrite bool_decide_eq_false_2 by exact Hd. reflexivity.
Qed.

Lemma indexFrom_docLengths docs : forall st t,
  st_docLengths (indexFrom st docs) !! t
  = match indexedUnder docs t with
    | Some d => Some (length (tokenize (content d)))
    | None => st_docLengths st !! t
    end.
Proof.
  induction docs as [| d r IH]; intros st t; [reflexivity |].
  rewrite indexFrom_cons, IH. simpl.
  destruct (indexedUnder r t); [reflexivity |].
  rewrite lookup_insert. case_decide as Hd.
  - rewrite bool_decide_eq_true_2 by exact Hd. reflexivity.
  - rewrite bool_decide_eq_false_2 by exact Hd. reflexivity.
Qed.

Lemma indexFrom_totalLength docs : forall st,
  st_totalLength (indexFrom st docs)
  = st_totalLength st + list_sum (List.map tokenCount docs).
Proof.
  induction docs as [| d r IH]; intros st.
  - unfold indexFrom. simpl. lia.
  - rewrite indexFrom_cons, IH. simpl. unfold tokenCount. lia.
Qed.

Lemma indexFrom_counts_values docs : forall st,
  (forall t c, st_documentCntsHasTerm st !! t = Some c -> c = 1) ->
  forall t c, st_documentCntsHasTerm (indexFrom st docs) !! t = Some c -> c = 1.
Proof.
  induction docs as [| d r IH]; intros st Hinv; [exact Hinv |].
  rewrite indexFrom_cons. apply IH. simpl.
  apply countDocs_values. exact Hinv.
Qed.

Lemma indexFrom_counts_dom docs : forall st t,
  is_Some (st_documentCntsHasTerm (indexFrom st docs) !! t)
  <-> (exists d, In d docs /\ In t (tokenize (content d)))
      \/ is_Some (st_documentCntsHasTerm st !! t).
Proof.
  induction docs as [| d r IH]; intros st t.
  - unfold indexFrom. simpl. split; [auto | intros [[d [[] _]] | H]; exact H].
  - rewrite indexFrom_cons, IH. simpl. rewrite countDocs_dom, uniqueTerms_In.
    split.
    + intros [[d' [Hin Ht]] | [Ht | Hs]]; eauto 6.
    + intros [[d' [[-> | Hin] Ht]] | Hs]; eauto 6.
Qed.

Lemma indexedUnder_In docs t d :
  indexedUnder docs t = Some d -> In d docs /\ title d = t.
Proof.
  induction docs as [| x r IH]; simpl; [discriminate |].
  destruct (indexedUnder r t) as [d' |].
  - intros [= ->]. destruct (IH eq_refl). auto.
  - case_bool_decide as Hx; [| discriminate].
    intros [= ->]. auto.
Qed.

Lemma indexedUnder_None docs t :
  indexedUnder docs t = None -> forall d, In d docs -> title d <> t.
Proof.
  induction docs as [| x r IH]; simpl; [tauto |].
  destruct (indexedUnder r t) as [d' |]; [discriminate |].
  case_bool_decide as Hx; [discriminate |].
  intros _ d [<- | Hin]; [exact Hx | apply IH; auto].
Qed.

Lemma indexedUnder_NoDup docs d :
  List.NoDup (List.map title docs) -> In d docs ->
  indexedUnder docs (title d) = Some d.
Proof.
  induction docs as [| x r IH]; simpl; [tauto |].
  intros Hnd Hin. apply List.NoDup_cons_iff in Hnd. destruct Hnd as [Hx Hnd].
  destruct Hin as [-> | Hin].
  - destruct (indexedUnder r (title d)) as [d' |] eqn:Hr.
    + apply indexedUnder_In in Hr. destruct Hr as [Hin Ht].
      exfalso. apply Hx. rewrite <- Ht. apply in_map. exact Hin.
    + rewrite bool_decide_eq_true_2 by reflexivity. reflexivity.
  - rewrite (IH Hnd Hin). reflexivity.
Qed.

(** What [initialize] leaves in [documentCntsHasTerm]: 1 for a term some
    document contains, nothing for the others. *)
Lemma counts_stunted docs c t :
  documentCntsHasTerm (new docs c) !! t
  = if bool_decide (Exists (fun d => t ∈ tokenize (content d)) docs)
    then Some 1 else None.
Proof.
  change (documentCntsHasTerm (new docs c))
    with (st_documentCntsHasTerm (indexFrom emptyIndex docs)).
  pose proof (indexFrom_counts_dom docs emptyIndex t) as Hdom.
  pose proof (indexFrom_counts_values docs emptyIndex) as Hval.
  simpl in Hdom, Hval.
  case_bool_decide as Hex.
  - destruct Hdom as [_ Hdom].
    destruct Hdom as [n Hn].
    + left. apply List.Exists_exists in Hex. destruct Hex as [d [Hin Ht]].
      exists d. split; [exact Hin | apply list_elem_of_In; exact Ht].
    + rewrite Hn. f_equal. eapply Hval; [| exact Hn].
      intros t' c'. rewrite lookup_empty. discriminate.
  - destruct (st_documentCntsHasTerm (indexFrom emptyIndex docs) !! t)
      as [n |] eqn:Hn; [| reflexivity].
    exfalso. apply Hex. destruct Hdom as [Hdom _].
    destruct Hdom as [[d [Hin Ht]] | Hs]; [eexists; reflexivity | |].
    + apply List.Exists_exists. exists d. split; [exact Hin |].
      apply list_elem_of_In. exact Ht.
    + rewrite lookup_empty in Hs. destruct Hs; discriminate.
Qed.

Lemma termFrequencies_new docs c t :
  termFrequencies (new docs c) !! t
  = (fun d => countTerms (tokenize (content d))) <$> indexedUnder docs t.
Proof.
  change (termFrequencies (new docs c))
    with (st_termFrequencies (indexFrom emptyIndex docs)).
  rewrite indexFrom_termFrequencies. simpl.
  destruct (indexedUnder docs t); [reflexivity | apply lookup_empty].
Qed.

Lemma docLengths_new docs c t :
  docLengths (new docs c) !! t = tokenCount <$> indexedUnder docs t.
Proof.
  change (docLengths (new docs c))
    with (st_docLengths (indexFrom emptyIndex docs)).
  rewrite indexFrom_docLengths. simpl.
  destruct (indexedUnder docs t); [reflexivity | apply lookup_empty].
Qed.

Lemma avgDocLength_new docs c :
  avgDocLength (new docs c)
  = (INR (list_sum (List.map tokenCount docs)) / INR (length docs))%R.
Proof.
  change (avgDocLength (new docs c))
    with (INR (st_totalLength (indexFrom emptyIndex docs))
          / INR (length docs))%R.
  rewrite indexFrom_totalLength. reflexivity.
Qed.

End IndexFacts.

(** ** Scores and the IDF cache *)

Module ScoreFacts.

Import BM25 IndexFacts.

Local Open Scope nat_scope.

Lemma sameIndex_refl s : sameIndex s s.
Proof. exists (idfCache s). destruct s; reflexivity. Qed.

Lemma sameIndex_trans s1 s2 s3 :
  sameIndex s1 s2 -> sameIndex s2 s3 -> sameIndex s1 s3.
Proof. intros [c1 ->] [c2 ->]. exists c2. reflexivity. Qed.

Lemma cacheOk_new docs c : cacheOk (new docs c).
Proof. intros t v. simpl. rewrite lookup_empty. discriminate. Qed.

Lemma calculateIDF_ok s t :
  cacheOk s ->
  fst (calculateIDF s t) = idfOf s t
  /\ cacheOk (snd (calculateIDF s t))
  /\ sameIndex s (snd (calculateIDF s t)).
Proof.
  intros Hok. unfold calculateIDF.
  destruct (idfCache s !! t) as [v |] eqn:Hc; simpl.
  - split; [apply Hok; exact Hc |]. split; [exact Hok | apply sameIndex_refl].
  - split; [reflexivity |]. split.
    + intros t' v'. simpl. rewrite lookup_insert. case_decide as Ht.
      * intros [= <-]. subst. reflexivity.
      * intros H. apply (Hok t' v' H).
    + eexists. reflexivity.
Qed.

Lemma scoreStep_fold docLength termFreq q : forall s0 s acc,
  sameIndex s0 s -> cacheOk s ->
  let r := List.fold_left (scoreStep docLength termFreq) q (acc, s) in
  fst r = List.fold_left
            (fun a t => (a + termScore s0 docLength termFreq t)%R) q acc
  /\ cacheOk (snd r) /\ sameIndex s0 (snd r).
Proof.
  induction q as [| t q IH]; intros s0 s acc Hsame Hok; simpl.
  - auto.
  - destruct (Nat.eqb (default 0 (termFreq !! t)) 0) eqn:Htf.
    + replace (termScore s0 docLength termFreq t) with 0%R
        by (unfold termScore; rewrite Htf; reflexivity).
      rewrite Rplus_0_r. apply IH; assumption.
    + destruct (calculateIDF_ok s t Hok) as [Hv [Hok' Hsame']].
      destruct (calculateIDF s t) as [idf s'] eqn:Hcalc. simpl in *.
      subst idf. destruct Hsame as [c0 ->].
      replace (termScore s0 docLength termFreq t)
        with (idfOf s0 t
              * saturation (k1 (config s0)) (b (config s0))
                  (default 0%nat (termFreq !! t)) docLength
                  (avgDocLength s0))%R
        by (unfold termScore; rewrite Htf; reflexivity).
      apply IH; [| exact Hok'].
      eapply sameIndex_trans; [eexists; reflexivity | exact Hsame'].
Qed.

Lemma caculateScore_ok s title q :
  cacheOk s ->
  fst (caculateScore s title q) = scoreOf s title q
  /\ cacheOk (snd (caculateScore s title q))
  /\ sameIndex s (snd (caculateScore s title q)).
Proof.
  intros Hok. unfold caculateScore, scoreOf.
  destruct (termFrequencies s !! title) as [termFreq |]; simpl.
  - apply (scoreStep_fold _ _ q s s 0%R (sameIndex_refl s) Hok).
  - split; [reflexivity |]. split; [exact Hok | apply sameIndex_refl].
Qed.

Lemma scoreAll_ok q docs : forall s0 s,
  sameIndex s0 s -> cacheOk s ->
  fst (scoreAll s q docs) = List.map (resultOf s0 q) docs
  /\ cacheOk (snd (scoreAll s q docs))
  /\ sameIndex s0 (snd (scoreAll s q docs)).
Proof.
  induction docs as [| d r IH]; intros s0 s Hsame Hok; simpl.
  - auto.
  - destruct (caculateScore_ok s (title d) q Hok) as [Hv [Hok1 Hsame1]].
    destruct (caculateScore s (title d) q) as [sc s1]. simpl in *.
    assert (Hs01 : sameIndex s0 s1) by (eapply sameIndex_trans; eassumption).
    destruct (IH s0 s1 Hs01 Hok1) as [Hrs [Hok2 Hsame2]].
    destruct (scoreAll s1 q r) as [rs s2]. simpl in *.
    split; [| auto]. rewrite Hrs. f_equal.
    unfold resultOf. f_equal. rewrite Hv.
    destruct Hsame as [c0 ->]. reflexivity.
Qed.

Lemma insertByScore_length a l :
  length (insertByScore a l) = S (length l).
Proof.
  induction l as [| y r IH]; simpl; [reflexivity |].
  destruct (Rltb (score a) (score y)); simpl; [rewrite IH |]; reflexivity.
Qed.

Lemma sortByScore_length l : length (sortByScore l) = length l.
Proof.
  induction l as [| a r IH]; simpl; [reflexivity |].
  rewrite insertByScore_length, IH. reflexivity.
Qed.

(** A natural number as [topK]: [slice] keeps that many elements, or all
    there are. *)
Lemma sliceEnd_ofNat len n : sliceEnd len (ofNat n) = Nat.min n len.
Proof.
  unfold sliceEnd, ofNat, toIntegerOrInfinity, inject_Z. cbn [Qnum Qden].
  rewrite Z.quot_1_r.
  destruct (Z.ltb_spec (Z.of_nat n) 0) as [Hneg | _]; [lia |].
  rewrite <- Nat2Z.inj_min. apply Nat2Z.id.
Qed.

Lemma sliceEnd_le len topK : sliceEnd len topK <= len.
Proof.
  unfold sliceEnd. destruct (toIntegerOrInfinity topK) as [k | |]; try lia.
  destruct (Z.ltb_spec k 0); lia.
Qed.

Lemma search_ok s query topK :
  cacheOk s ->
  fst (search s query topK)
  = ranked s query (sliceEnd (length (documents s)) topK)
  /\ cacheOk (snd (search s query topK))
  /\ sameIndex s (snd (search s query topK)).
Proof.
  intros Hok. unfold search, ranked, slice0.
  destruct (scoreAll_ok (tokenize query) (documents s) s s
              (sameIndex_refl s) Hok) as [Hrs [Hok' Hsame]].
  destruct (scoreAll s (tokenize query) (documents s)) as [rs s'].
  simpl in *. rewrite Hrs, sortByScore_length, length_map. auto.
Qed.

Lemma afterSearches_ok earlier : forall s,
  cacheOk s ->
  cacheOk (afterSearches s earlier) /\ sameIndex s (afterSearches s earlier).
Proof.
  unfold afterSearches.
  induction earlier as [| [q k] e IH]; intros s Hok; simpl.
  - split; [exact Hok | apply sameIndex_refl].
  - destruct (search_ok s q k Hok) as [_ [Hok' Hsame]].
    destruct (IH _ Hok') as [Hok2 Hsame2].
    split; [exact Hok2 | eapply sameIndex_trans; eassumption].
Qed.

Lemma ranked_sameIndex s s' query topK :
  sameIndex s s' -> ranked s' query topK = ranked s query topK.
Proof. intros [c ->]. reflexivity. Qed.

(** What a search returns on a service built by [new], whatever was
    searched before. *)
Lemma search_new docs c earlier query topK :
  fst (search (afterSearches (new docs c) earlier) query topK)
  = ranked (new docs c) query (sliceEnd (length docs) topK).
Proof.
  destruct (afterSearches_ok earlier (new docs c) (cacheOk_new docs c))
    as [Hok Hsame].
  destruct (search_ok _ query topK Hok) as [-> _].
  destruct Hsame as [c' ->]. reflexivity.
Qed.

End ScoreFacts.

(** ** Sorting and truncation *)

Module RankFacts.

Import BM25 IndexFacts ScoreFacts.

Local Open Scope nat_scope.

Lemma Rltb_true x y : Rltb x y = true <-> (x < y)%R.
Proof.
  unfold Rltb. destruct (Rlt_dec x y); split; auto; discriminate.
Qed.

Lemma Rltb_false x y : Rltb x y = false <-> (y <= x)%R.
Proof.
  unfold Rltb. destruct (Rlt_dec x y); split; auto; try discriminate; lra.
Qed.

Lemma positive_spec r : positive r = true <-> (0 < score r)%R.
Proof. apply Rltb_true. Qed.

Lemma In_firstn {A} (x : A) k : forall l, In x (firstn k l) -> In x l.
Proof.
  induction k as [| k IH]; intros [| a r]; simpl; try tauto.
  intros [H | H]; [left; exact H | right; apply IH; exact H].
Qed.

Lemma insertByScore_perm a l : Permutation (insertByScore a l) (a :: l).
Proof.
  induction l as [| y r IH]; simpl; [reflexivity |].
  destruct (Rltb (score a) (score y)); [| reflexivity].
  rewrite IH. apply perm_swap.
Qed.

Lemma sortByScore_perm l : Permutation (sortByScore l) l.
Proof.
  induction l as [| a r IH]; simpl; [reflexivity |].
  rewrite insertByScore_perm. apply perm_skip. exact IH.
Qed.

Lemma insertByScore_sorted a l :
  StronglySorted descending l -> StronglySorted descending (insertByScore a l).
Proof.
  induction 1 as [| y r Hr IH Hy]; simpl.
  - constructor; [constructor | constructor].
  - destruct (Rltb (score a) (score y)) eqn:Hlt.
    + apply Rltb_true in Hlt. constructor; [exact IH |].
      rewrite List.Forall_forall in *. intros z Hz.
      apply (Permutation_in _ (insertByScore_perm a r)) in Hz.
      destruct Hz as [<- | Hz]; [unfold descending; lra | apply Hy; exact Hz].
    + apply Rltb_false in Hlt.
      constructor; [constructor; assumption |].
      constructor; [exact Hlt |].
      rewrite List.Forall_forall in *. intros z Hz.
      specialize (Hy z Hz). unfold descending in *. lra.
Qed.

Lemma sortByScore_sorted l : StronglySorted descending (sortByScore l).
Proof.
  induction l as [| a r IH]; simpl; [constructor |].
  apply insertByScore_sorted. exact IH.
Qed.

Lemma sorted_firstn k : forall l,
  StronglySorted descending l -> StronglySorted descending (firstn k l).
Proof.
  induction k as [| k IH]; intros l Hl; simpl; [constructor |].
  destruct l as [| a r]; [constructor |].
  inversion Hl as [| ? ? Hr Ha]; subst.
  constructor; [apply IH; exact Hr |].
  rewrite List.Forall_forall in *. intros z Hz. apply Ha.
  eapply In_firstn; eauto.
Qed.

Lemma sorted_filter (f : Result -> bool) l :
  StronglySorted descending l -> StronglySorted descending (List.filter f l).
Proof.
  induction 1 as [| a r Hr IH Ha]; simpl; [constructor |].
  destruct (f a); [| exact IH].
  constructor; [exact IH |].
  rewrite List.Forall_forall in *. intros z Hz.
  apply filter_In in Hz. apply Ha. tauto.
Qed.

(** Below a result that is not positive nothing is. *)
Lemma no_positive_below a r :
  positive a = false -> Forall (descending a) r -> List.filter positive r = [].
Proof.
  intros Ha Hall. apply Rltb_false in Ha.
  induction r as [| z r IH]; simpl; [reflexivity |].
  inversion Hall as [| ? ? Hz Hr]; subst.
  replace (positive z) with false; [apply IH; exact Hr |].
  symmetry. apply Rltb_false. unfold descending in Hz. lra.
Qed.

(** In a descending list the positive results come first: cutting at [k]
    keeps [min k p] of the [p] positive ones. *)
Lemma positive_prefix k : forall l,
  StronglySorted descending l ->
  length (List.filter positive (firstn k l))
  = Nat.min k (length (List.filter positive l)).
Proof.
  induction k as [| k IH]; intros l Hl; simpl; [reflexivity |].
  destruct l as [| a r]; simpl; [reflexivity |].
  inversion Hl as [| ? ? Hr Ha]; subst.
  destruct (positive a) eqn:Hp; simpl.
  - rewrite IH by exact Hr. reflexivity.
  - rewrite (no_positive_below a r Hp Ha).
    assert (Hf : Forall (descending a) (firstn k r)).
    { rewrite List.Forall_forall in *. intros z Hz. apply Ha.
      eapply In_firstn; eauto. }
    rewrite (no_positive_below a _ Hp Hf). reflexivity.
Qed.

Lemma filter_length_perm (f : Result -> bool) l l' :
  Permutation l l' ->
  length (List.filter f l) = length (List.filter f l').
Proof.
  induction 1 as [| x l l' _ IH | x y l | l l' l'' _ IH1 _ IH2]; simpl.
  - reflexivity.
  - destruct (f x); simpl; congruence.
  - destruct (f x), (f y); reflexivity.
  - congruence.
Qed.

Lemma ranked_length s query topK :
  length (ranked s query topK)
  = Nat.min topK
      (length (List.filter positive
                 (List.map (resultOf s (tokenize query)) (documents s)))).
Proof.
  unfold ranked. rewrite positive_prefix by apply sortByScore_sorted.
  f_equal. apply filter_length_perm, sortByScore_perm.
Qed.

Lemma ranked_sorted s query topK :
  StronglySorted descending (ranked s query topK).
Proof.
  unfold ranked. apply sorted_filter, sorted_firstn, sortByScore_sorted.
Qed.

Lemma ranked_In s query topK r :
  In r (ranked s query topK) ->
  (0 < score r)%R
  /\ exists d, In d (documents s) /\ r = resultOf s (tokenize query) d.
Proof.
  unfold ranked. intros H. apply filter_In in H. destruct H as [H Hp].
  split; [apply positive_spec; exact Hp |].
  apply In_firstn in H.
  apply (Permutation_in _ (sortByScore_perm _)) in H.
  apply in_map_iff in H. destruct H as [d [<- Hd]]. eauto.
Qed.

(** With room for every document, each positive one is returned. *)
Lemma ranked_complete s query topK d :
  In d (documents s) -> length (documents s) <= topK ->
  (0 < scoreOf s (title d) (tokenize query))%R ->
  In (resultOf s (tokenize query) d) (ranked s query topK).
Proof.
  intros Hd Hk Hpos. unfold ranked. apply filter_In. split.
  - rewrite firstn_all2.
    + apply (Permutation_in _ (Permutation_sym (sortByScore_perm _))).
      apply in_map. exact Hd.
    + rewrite (Permutation_length (sortByScore_perm _)), length_map.
      exact Hk.
  - apply positive_spec. exact Hpos.
Qed.

(** The scores the [map] step of [search] computes. *)
Lemma scoreAll_new docs c earlier query :
  fst (scoreAll (afterSearches (new docs c) earlier) (tokenize query) docs)
  = List.map (resultOf (new docs c) (tokenize query)) docs.
Proof.
  destruct (afterSearches_ok earlier (new docs c) (cacheOk_new docs c))
    as [Hok Hsame].
  apply (scoreAll_ok (tokenize query) docs (new docs c) _ Hsame Hok).
Qed.

(** The number of results, for any [topK]. *)
Lemma search_length docs c earlier query topK :
  length (fst (search (afterSearches (new docs c) earlier) query topK))
  = Nat.min (sliceEnd (length docs) topK)
      (length (List.filter positive
                 (List.map (resultOf (new docs c) (tokenize query)) docs))).
Proof. rewrite search_new. apply ranked_length. Qed.

Lemma filter_length_le (f : Result -> bool) l :
  length (List.filter f l) <= length l.
Proof.
  induction l as [| x r IH]; simpl; [lia |]. destruct (f x); simpl; lia.
Qed.

(** C7. For every indexed collection, whatever was searched before, and
    every query, with [p] the number of documents whose computed score is
    strictly positive. Whatever number [topK] is, the results come in
    descending order of score, and there are [min(e, p)] of them, where
    [e] is the place at which [slice(0, topK)] stops in the collection.
    When [topK] is a natural number, [search] returns at most [topK]
    results and at least [min(topK, p)]: exactly [min(topK, p)]. *)
Theorem search_topK_sorted :
  forall (docs : list Document) (c : PartialConfig)
         (earlier : list (jsstring * number)) (query : jsstring),
    let s := afterSearches (new docs c) earlier in
    let positives :=
      length (List.filter positive
                (fst (scoreAll s (tokenize query) (documents s)))) in
    (forall topK : number,
       let results := fst (search s query topK) in
       StronglySorted descending results
       /\ length results = Nat.min (sliceEnd (length docs) topK) positives)
    /\ (forall n : nat,
          let results := fst (search s query (ofNat n)) in
          length results <= n
          /\ Nat.min n positives <= length results
          /\ length results = Nat.min n positives).
Proof.
  intros docs c earlier query s positives.
  assert (Hdocs : documents s = docs).
  { destruct (afterSearches_ok earlier (new docs c) (cacheOk_new docs c))
      as [_ [c' Hs]]. subst s. rewrite Hs. reflexivity. }
  assert (Hpos : positives
                 = length (List.filter positive
                             (List.map (resultOf (new docs c) (tokenize query))
                                       docs))).
  { subst positives. rewrite Hdocs. subst s. rewrite scoreAll_new.
    reflexivity. }
  assert (Hle : positives <= length docs).
  { rewrite Hpos.
    etransitivity; [apply filter_length_le | rewrite length_map; lia]. }
  split.
  - intros topK results. subst results s. split.
    + rewrite search_new. apply ranked_sorted.
    + rewrite Hpos. apply search_length.
  - intros n results.
    assert (Hlen : length results = Nat.min n positives).
    { subst results s. rewrite search_length, <- Hpos, sliceEnd_ofNat. lia. }
    rewrite Hlen. repeat split; lia.
Qed.

End RankFacts.

(** ** The sign of a score *)

Module SignFacts.

Import BM25 IndexFacts ScoreFacts RankFacts.

Local Open Scope nat_scope.

Section Sums.

Variable f : jsstring -> R.

Let step (a : R) (t : jsstring) : R := (a + f t)%R.

Lemma fold_sum_zero q : forall acc,
  (forall t, In t q -> f t = 0%R) -> List.fold_left step q acc = acc.
Proof.
  induction q as [| x r IH]; intros acc H; simpl; [reflexivity |].
  rewrite IH by (intros t Ht; apply H; right; exact Ht).
  unfold step. rewrite (H x) by (left; reflexivity). lra.
Qed.

Lemma fold_sum_nonneg q : forall acc,
  (forall t, In t q -> (0 <= f t)%R) ->
  (acc <= List.fold_left step q acc)%R.
Proof.
  induction q as [| x r IH]; intros acc H; simpl; [lra |].
  assert (Hx : (0 <= f x)%R) by (apply H; left; reflexivity).
  assert (Hr : (step acc x <= List.fold_left step r (step acc x))%R)
    by (apply IH; intros t Ht; apply H; right; exact Ht).
  unfold step in *. lra.
Qed.

Lemma fold_sum_pos q : forall acc,
  (forall t, In t q -> (0 <= f t)%R) ->
  (exists t, In t q /\ (0 < f t)%R) ->
  (acc < List.fold_left step q acc)%R.
Proof.
  induction q as [| x r IH]; intros acc H [t [Hin Hpos]]; simpl;
    [destruct Hin |].
  assert (Hx : (0 <= f x)%R) by (apply H; left; reflexivity).
  assert (Hr : forall u, In u r -> (0 <= f u)%R)
    by (intros u Hu; apply H; right; exact Hu).
  destruct Hin as [-> | Hin].
  - pose proof (fold_sum_nonneg r (step acc t) Hr) as Hge.
    unfold step in *. lra.
  - assert (Hlt : (step acc x < List.fold_left step r (step acc x))%R)
      by (apply IH; eauto).
    unfold step in *. lra.
Qed.

End Sums.

(** [Math.log((N - df + 0.5) / (df + 0.5) + 1)] is positive as long as the
  count does not exceed the number of documents. *)
Lemma idfValue_pos N df : df <= N -> (0 < idfValue N df)%R.
Proof.
intros Hle. unfold idfValue. rewrite <- ln_1.
apply ln_increasing; [lra |].
apply le_INR in Hle. pose proof (pos_INR df) as Hdf.
assert (H : (0 < (INR N - INR df + 0.5) / (INR df + 0.5))%R)
  by (apply Rdiv_lt_0_compat; lra).
lra.
Qed.

Lemma saturation_pos k1 b tf docLength avg :
(0 <= k1)%R -> (0 <= b <= 1)%R -> 0 < tf -> (0 < avg)%R ->
(0 < saturation k1 b tf docLength avg)%R.
Proof.
intros Hk Hb Htf Havg. unfold saturation.
apply lt_INR in Htf. simpl in Htf.
pose proof (pos_INR docLength) as Hdl.
assert (Hq : (0 <= INR docLength / avg)%R).
{ unfold Rdiv. apply Rmult_le_pos; [exact Hdl |].
  left. apply Rinv_0_lt_compat. exact Havg. }
assert (Hn : (0 <= b * (INR docLength / avg))%R)
  by (apply Rmult_le_pos; lra).
assert (Hd : (0 <= k1 * (1 - b + b * (INR docLength / avg)))%R)
  by (apply Rmult_le_pos; lra).
apply Rdiv_lt_0_compat; [| lra].
apply Rmult_lt_0_compat; lra.
Qed.

Lemma tokenCount_le_sum d docs :
In d docs -> tokenCount d <= list_sum (List.map tokenCount docs).
Proof.
induction docs as [| x r IH]; simpl; [tauto |].
intros [-> | H]; [lia |]. specialize (IH H). lia.
Qed.

Lemma occurrences_le t l : occurrences t l <= length l.
Proof.
unfold occurrences. induction l as [| x r IH]; simpl; [lia |].
destruct (bool_decide (x = t)); simpl; lia.
Qed.

Section OneDocument.

Variables (docs : list Document) (c : PartialConfig).
Variables (t : jsstring) (d : Document).
Hypothesis Hd : indexedUnder docs t = Some d.

Let s := new docs c.
Let termFreq := countTerms (tokenize (content d)).

Lemma termScore_absent term :
  ~ In term (tokenize (content d)) ->
  termScore s (tokenCount d) termFreq term = 0%R.
Proof.
  intros Hnot. unfold termScore, termFreq. rewrite countTerms_lookup.
  destruct (occurrences term (tokenize (content d))) as [| n] eqn:Ho;
    [reflexivity |].
  exfalso. apply Hnot. apply occurrences_pos. lia.
Qed.

Lemma termScore_present term :
  (0 <= k1 (fillConfig c))%R -> (0 <= b (fillConfig c) <= 1)%R ->
  In term (tokenize (content d)) ->
  (0 < termScore s (tokenCount d) termFreq term)%R.
Proof.
  intros Hk Hb Hin. unfold termScore, termFreq.
  rewrite countTerms_lookup.
  pose proof (proj2 (occurrences_pos term _) Hin) as Hocc.
  destruct (indexedUnder_In docs t d Hd) as [Hdocs _].
  assert (HN : 1 <= length docs).
  { destruct docs; [destruct Hdocs | simpl; lia]. }
  destruct (Nat.eqb_spec (occurrences term (tokenize (content d))) 0)
    as [H0 | _]; [lia |].
  apply Rmult_lt_0_compat.
  - unfold idfOf, s. rewrite counts_stunted.
    case_bool_decide; simpl; apply idfValue_pos; simpl; lia.
  - apply saturation_pos; try assumption. unfold s.
    rewrite avgDocLength_new.
    pose proof (tokenCount_le_sum d docs Hdocs) as Hsum.
    pose proof (occurrences_le term (tokenize (content d))) as Hlen.
    unfold tokenCount in Hsum at 1.
    apply Rdiv_lt_0_compat; apply lt_0_INR; lia.
Qed.

End OneDocument.

Lemma scoreOf_new docs c t q :
  scoreOf (new docs c) t q
  = match indexedUnder docs t with
    | None => 0%R
    | Some d =>
        List.fold_left
          (fun acc term =>
             (acc + termScore (new docs c) (tokenCount d)
                      (countTerms (tokenize (content d))) term)%R)
          q 0%R
    end.
Proof.
  unfold scoreOf. rewrite termFrequencies_new, docLengths_new.
  destruct (indexedUnder docs t); reflexivity.
Qed.

Lemma scoreOf_nonneg docs c t q :
  (0 <= k1 (fillConfig c))%R -> (0 <= b (fillConfig c) <= 1)%R ->
  (0 <= scoreOf (new docs c) t q)%R.
Proof.
  intros Hk Hb. rewrite scoreOf_new.
  destruct (indexedUnder docs t) as [d |] eqn:Hd; [| lra].
  apply (fold_sum_nonneg
           (termScore (new docs c) (tokenCount d)
                      (countTerms (tokenize (content d))))).
  intros term _.
  destruct (in_dec (list_eq_dec) term (tokenize (content d))) as [Hin | Hnot].
  - left. eapply termScore_present; eassumption.
  - rewrite (termScore_absent docs c d term Hnot). lra.
Qed.

(** A positive score needs a query token in the document the index holds
    under the title. *)
Lemma scoreOf_pos_shares docs c t q :
  (0 < scoreOf (new docs c) t q)%R ->
  exists d term,
    indexedUnder docs t = Some d /\ In term q
    /\ In term (tokenize (content d)).
Proof.
  rewrite scoreOf_new.
  destruct (indexedUnder docs t) as [d |] eqn:Hd; [| lra].
  intros Hpos.
  destruct (List.Exists_dec (fun term => In term (tokenize (content d))) q)
    as [Hex | Hnex].
  - intros term. apply in_dec, list_eq_dec.
  - apply List.Exists_exists in Hex. destruct Hex as [term [H1 H2]]. eauto.
  - exfalso.
    rewrite (fold_sum_zero
               (termScore (new docs c) (tokenCount d)
                          (countTerms (tokenize (content d))))) in Hpos.
    + lra.
    + intros term Hin. apply (termScore_absent docs c d).
      intros Hc. apply Hnex. apply List.Exists_exists. eauto.
Qed.

Lemma scoreOf_shares_pos docs c t q d term :
  (0 <= k1 (fillConfig c))%R -> (0 <= b (fillConfig c) <= 1)%R ->
  indexedUnder docs t = Some d -> In term q ->
  In term (tokenize (content d)) ->
  (0 < scoreOf (new docs c) t q)%R.
Proof.
  intros Hk Hb Hd Hq Hin. rewrite scoreOf_new, Hd.
  apply (fold_sum_pos
           (termScore (new docs c) (tokenCount d)
                      (countTerms (tokenize (content d))))).
  - intros u _.
    destruct (in_dec (list_eq_dec) u (tokenize (content d))) as [Hu | Hnot].
    + left. eapply termScore_present; eassumption.
    + rewrite (termScore_absent docs c d u Hnot). lra.
  - exists term. split; [exact Hq |]. eapply termScore_present; eassumption.
Qed.

End SignFacts.

(** ** The claims on the ranking engine *)

Module RankingClaims.

Import BM25 IndexFacts ScoreFacts RankFacts SignFacts.

Local Open Scope nat_scope.

Lemma search_fresh docs c query topK :
  fst (search (new docs c) query topK)
  = ranked (new docs c) query (sliceEnd (length docs) topK).
Proof. apply (search_new docs c [] query topK). Qed.

Lemma idfValue_2_1 : idfValue 2 1 = ln 2.
Proof. unfold idfValue. f_equal. simpl. lra. Qed.

Lemma idfValue_2_2 : idfValue 2 2 = ln (6 / 5).
Proof. unfold idfValue. f_equal. simpl. lra. Qed.

Lemma saturation_D1 :
  saturation 1.5 0.75 3 10 (INR 15 / INR 2) = (20 / 13)%R.
Proof. unfold saturation. simpl. lra. Qed.

Lemma saturation_D2 :
  saturation 1.5 0.75 1 5 (INR 15 / INR 2) = (20 / 17)%R.
Proof. unfold saturation. simpl. lra. Qed.

Lemma worked_tokens :
  tokenize workedQuery = [js "apple"]
  /\ indexedUnder workedDocs (js "D1") = Some workedD1
  /\ indexedUnder workedDocs (js "D2") = Some workedD2
  /\ tokenCount workedD1 = 10 /\ tokenCount workedD2 = 5
  /\ occurrences (js "apple") (tokenize (content workedD1)) = 3
  /\ occurrences (js "apple") (tokenize (content workedD2)) = 1
  /\ list_sum (List.map tokenCount workedDocs) = 15.
Proof. vm_compute. repeat split; reflexivity. Qed.

Lemma worked_counts :
  documentCntsHasTerm (new workedDocs defaultPartial) !! js "apple" = Some 1.
Proof.
  change (documentCntsHasTerm (new workedDocs defaultPartial))
    with (st_documentCntsHasTerm (initialize workedDocs)).
  vm_compute. reflexivity.
Qed.

Lemma worked_spec_counts :
  spec_documentFrequency workedDocs (js "apple") = 2
  /\ spec_termFrequency workedD1 (js "apple") = 3
  /\ spec_termFrequency workedD2 (js "apple") = 1
  /\ List.filter (fun term => containsTerm term workedD1) [js "apple"]
     = [js "apple"]
  /\ List.filter (fun term => containsTerm term workedD2) [js "apple"]
     = [js "apple"]
  /\ length (tokenize (content workedD1)) = 10
  /\ length (tokenize (content workedD2)) = 5.
Proof. vm_compute. repeat split; reflexivity. Qed.

Lemma worked_avg :
  avgDocLength (new workedDocs defaultPartial) = (INR 15 / INR 2)%R.
Proof.
  rewrite avgDocLength_new.
  destruct worked_tokens as (_ & _ & _ & _ & _ & _ & _ & ->). reflexivity.
Qed.

Lemma worked_spec_avg : spec_avgDocLength workedDocs = (INR 15 / INR 2)%R.
Proof.
  unfold spec_avgDocLength.
  destruct worked_tokens as (_ & _ & _ & _ & _ & _ & _ & H).
  unfold tokenCount in H. rewrite H. reflexivity.
Qed.

Lemma worked_score_D1 :
  scoreOf (new workedDocs defaultPartial) (js "D1") [js "apple"]
  = (ln 2 * (20 / 13))%R.
Proof.
  destruct worked_tokens as (_ & H1 & _ & Hl & _ & Ho & _ & _).
  rewrite scoreOf_new, H1. cbn [List.fold_left].
  unfold termScore. rewrite countTerms_lookup, Ho, Hl. cbn [Nat.eqb].
  unfold idfOf. rewrite worked_counts, worked_avg.
  change (length (documents (new workedDocs defaultPartial))) with 2.
  change (k1 (config (new workedDocs defaultPartial))) with 1.5%R.
  change (b (config (new workedDocs defaultPartial))) with 0.75%R.
  change (default 0 (Some 1)) with 1.
  rewrite idfValue_2_1, saturation_D1. lra.
Qed.

Lemma worked_score_D2 :
  scoreOf (new workedDocs defaultPartial) (js "D2") [js "apple"]
  = (ln 2 * (20 / 17))%R.
Proof.
  destruct worked_tokens as (_ & _ & H2 & _ & Hl & _ & Ho & _).
  rewrite scoreOf_new, H2. cbn [List.fold_left].
  unfold termScore. rewrite countTerms_lookup, Ho, Hl. cbn [Nat.eqb].
  unfold idfOf. rewrite worked_counts, worked_avg.
  change (length (documents (new workedDocs defaultPartial))) with 2.
  change (k1 (config (new workedDocs defaultPartial))) with 1.5%R.
  change (b (config (new workedDocs defaultPartial))) with 0.75%R.
  change (default 0 (Some 1)) with 1.
  rewrite idfValue_2_1, saturation_D2. lra.
Qed.

Lemma worked_spec_D1 :
  spec_score workedDocs (fillConfig defaultPartial) workedD1 [js "apple"]
  = (ln (6 / 5) * (20 / 13))%R.
Proof.
  destruct worked_spec_counts as (Hdf & Htf & _ & Hf & _ & Hl & _).
  unfold spec_score. rewrite Hf. cbn [List.fold_right].
  rewrite Hdf, Htf, Hl, worked_spec_avg.
  change (length workedDocs) with 2.
  change (k1 (fillConfig defaultPartial)) with 1.5%R.
  change (b (fillConfig defaultPartial)) with 0.75%R.
  rewrite idfValue_2_2, saturation_D1. lra.
Qed.

Lemma worked_spec_D2 :
  spec_score workedDocs (fillConfig defaultPartial) workedD2 [js "apple"]
  = (ln (6 / 5) * (20 / 17))%R.
Proof.
  destruct worked_spec_counts as (Hdf & _ & Htf & _ & Hf & _ & Hl).
  unfold spec_score. rewrite Hf. cbn [List.fold_right].
  rewrite Hdf, Htf, Hl, worked_spec_avg.
  change (length workedDocs) with 2.
  change (k1 (fillConfig defaultPartial)) with 1.5%R.
  change (b (fillConfig defaultPartial)) with 0.75%R.
  rewrite idfValue_2_2, saturation_D2. lra.
Qed.

Lemma ln_6_5_lt_ln_2 : (ln (6 / 5) < ln 2)%R.
Proof. apply ln_increasing; lra. Qed.

Lemma ln_2_pos : (0 < ln 2)%R.
Proof. rewrite <- ln_1. apply ln_increasing; lra. Qed.

(** The ranked list of the worked example, cut after [kept] results:
    [D1], then [D2]. *)
Lemma worked_ranked kept :
  ranked (new workedDocs defaultPartial) workedQuery kept
  = firstn kept
      [ {| document := workedD1; score := (ln 2 * (20 / 13))%R |};
        {| document := workedD2; score := (ln 2 * (20 / 17))%R |} ].
Proof.
  unfold ranked.
  destruct worked_tokens as (-> & _).
  change (List.map (resultOf (new workedDocs defaultPartial) [js "apple"])
            (documents (new workedDocs defaultPartial)))
    with [ {| document := workedD1;
              score := scoreOf (new workedDocs defaultPartial) (js "D1")
                         [js "apple"] |};
           {| document := workedD2;
              score := scoreOf (new workedDocs defaultPartial) (js "D2")
                         [js "apple"] |} ].
  rewrite worked_score_D1, worked_score_D2.
  pose proof ln_2_pos as Hpos.
  cbn [sortByScore insertByScore score].
  replace (Rltb (ln 2 * (20 / 13)) (ln 2 * (20 / 17))) with false
    by (symmetry; apply Rltb_false; nra).
  assert (H1 : Rltb 0 (ln 2 * (20 / 13)) = true) by (apply Rltb_true; nra).
  assert (H2 : Rltb 0 (ln 2 * (20 / 17)) = true) by (apply Rltb_true; nra).
  destruct kept as [| [| k]]; cbn [firstn List.filter]; unfold positive;
    cbn [score]; rewrite ?H1, ?H2; rewrite ?firstn_nil; reflexivity.
Qed.

Lemma worked_search :
  fst (search (new workedDocs defaultPartial) workedQuery defaultTopK)
  = [ {| document := workedD1; score := (ln 2 * (20 / 13))%R |};
      {| document := workedD2; score := (ln 2 * (20 / 17))%R |} ].
Proof.
  rewrite search_fresh, worked_ranked. unfold defaultTopK.
  rewrite sliceEnd_ofNat. reflexivity.
Qed.

(** With [topK = -1], [slice(0, -1)] drops the last of the two sorted
    results and [search] returns one result, more than [topK]. With
    [topK = 1.5] it returns one result as well, fewer than
    [min(1.5, 2)], both documents having a positive score. *)
Lemma search_topK_not_a_count :
  let s := new workedDocs defaultPartial in
  let first := {| document := workedD1; score := (ln 2 * (20 / 13))%R |} in
  fst (search s workedQuery (Finite (-1 # 1))) = [first]
  /\ ~ (inject_Z (Z.of_nat (length (fst (search s workedQuery
                                           (Finite (-1 # 1))))))
        <= -1 # 1)%Q
  /\ fst (search s workedQuery (Finite (3 # 2))) = [first]
  /\ length (List.filter positive
               (fst (scoreAll s (tokenize workedQuery) (documents s))))
     = 2
  /\ (inject_Z (Z.of_nat (length (fst (search s workedQuery
                                         (Finite (3 # 2))))))
      < 3 # 2)%Q
  /\ length (fst (search s workedQuery (Finite (3 # 2)))) < 2.
Proof.
  intros s first. subst s.
  assert (Hneg : fst (search (new workedDocs defaultPartial) workedQuery
                        (Finite (-1 # 1))) = [first]).
  { rewrite search_fresh, worked_ranked. reflexivity. }
  assert (Hfrac : fst (search (new workedDocs defaultPartial) workedQuery
                         (Finite (3 # 2))) = [first]).
  { rewrite search_fresh, worked_ranked. reflexivity. }
  split; [exact Hneg |]. split; [| split; [exact Hfrac | split]].
  - rewrite Hneg. cbv. intros H. apply H. reflexivity.
  - change (documents (new workedDocs defaultPartial)) with workedDocs.
    rewrite (proj1 (scoreAll_ok (tokenize workedQuery) workedDocs _ _
                      (sameIndex_refl _)
                      (cacheOk_new workedDocs defaultPartial))).
    pose proof (ranked_length (new workedDocs defaultPartial) workedQuery 2)
      as Hlen.
    rewrite worked_ranked in Hlen.
    change (documents (new workedDocs defaultPartial)) with workedDocs in Hlen.
    pose proof (filter_length_le positive
                  (List.map (resultOf (new workedDocs defaultPartial)
                               (tokenize workedQuery)) workedDocs)) as Hle.
    rewrite length_map in Hle.
    change (length workedDocs) with 2 in Hle.
    cbn [firstn length] in Hlen. lia.
  - split; rewrite Hfrac; [cbv; reflexivity | simpl; lia].
Qed.

(** C1. On the worked example of the specification (two documents that
    both contain [apple]) the stored document frequency of [apple] is 1,
    while two documents of the collection contain the term. *)
Theorem documentCntsHasTerm_worked_example :
  documentCntsHasTerm (new workedDocs defaultPartial) !! js "apple" = Some 1
  /\ spec_documentFrequency workedDocs (js "apple") = 2.
Proof.
  split; [exact worked_counts |].
  destruct worked_spec_counts as [H _]. exact H.
Qed.

(** C2. On the worked example ([D1]: 10 tokens, the query term 3 times;
    [D2]: 5 tokens, the term once; [k1 = 1.5], [b = 0.75]) the scores
    [search] computes and returns are [ln 2 * 20/13] and [ln 2 * 20/17]:
    the IDF is taken at the stored count 1. The closed form of the
    specification, with [N = 2] and [df = 2], is [ln (6/5) * 20/13] and
    [ln (6/5) * 20/17], and differs from both. *)
Theorem caculateScore_worked_example :
  let s := new workedDocs defaultPartial in
  let terms := tokenize workedQuery in
  List.map score (fst (scoreAll s terms (documents s)))
  = [ (ln 2 * (20 / 13))%R; (ln 2 * (20 / 17))%R ]
  /\ fst (search s workedQuery defaultTopK)
     = [ {| document := workedD1; score := (ln 2 * (20 / 13))%R |};
         {| document := workedD2; score := (ln 2 * (20 / 17))%R |} ]
  /\ List.map (fun d => spec_score workedDocs (config s) d terms) workedDocs
     = [ (ln (6 / 5) * (20 / 13))%R; (ln (6 / 5) * (20 / 17))%R ]
  /\ (ln 2 * (20 / 13))%R <> (ln (6 / 5) * (20 / 13))%R
  /\ (ln 2 * (20 / 17))%R <> (ln (6 / 5) * (20 / 17))%R.
Proof.
  intros s terms. pose proof ln_6_5_lt_ln_2 as Hln.
  assert (Hterms : terms = [js "apple"]) by (destruct worked_tokens; assumption).
  repeat split.
  - subst s. change (documents (new workedDocs defaultPartial)) with workedDocs.
    rewrite (proj1 (scoreAll_ok terms workedDocs _ _ (sameIndex_refl _)
                      (cacheOk_new workedDocs defaultPartial))).
    rewrite Hterms.
    change (List.map score
              (List.map (resultOf (new workedDocs defaultPartial) [js "apple"])
                        workedDocs))
      with [scoreOf (new workedDocs defaultPartial) (js "D1") [js "apple"];
            scoreOf (new workedDocs defaultPartial) (js "D2") [js "apple"]].
    rewrite worked_score_D1, worked_score_D2. reflexivity.
  - exact worked_search.
  - rewrite Hterms.
    change (List.map
              (fun d => spec_score workedDocs (config s) d [js "apple"])
              workedDocs)
      with [spec_score workedDocs (fillConfig defaultPartial) workedD1
              [js "apple"];
            spec_score workedDocs (fillConfig defaultPartial) workedD2
              [js "apple"]].
    rewrite worked_spec_D1, worked_spec_D2. reflexivity.
  - lra.
  - lra.
Qed.

Lemma new_documents_after docs c earlier :
  documents (afterSearches (new docs c) earlier) = docs.
Proof.
  destruct (afterSearches_ok earlier (new docs c) (cacheOk_new docs c))
    as [_ [c' ->]].
  reflexivity.
Qed.

(** C8, as the code has it. With [k1 >= 0] and [0 <= b <= 1] (the defaults
    are [1.5] and [0.75]) the score computed for every indexed document is
    non-negative. Every result of [search] has a score strictly above 0,
    and some query token occurs in the document the index holds under the
    result's title, which is the last document of the collection with
    that title. When the titles of the collection are pairwise distinct,
    that document is the result's own: a document sharing no token with
    the query is not returned. *)
Theorem search_scores_sign :
  forall (docs : list Document) (c : PartialConfig)
         (earlier : list (jsstring * number)) (query : jsstring)
         (topK : number),
    (0 <= k1 (fillConfig c))%R ->
    (0 <= b (fillConfig c) <= 1)%R ->
    let s := afterSearches (new docs c) earlier in
    (forall r, In r (fst (scoreAll s (tokenize query) (documents s))) ->
               (0 <= score r)%R)
    /\ (forall r, In r (fst (search s query topK)) ->
          (0 < score r)%R
          /\ exists d term,
               indexedUnder docs (title (document r)) = Some d
               /\ In term (tokenize query)
               /\ In term (tokenize (content d)))
    /\ (List.NoDup (List.map title docs) ->
        forall r, In r (fst (search s query topK)) ->
          exists term,
            In term (tokenize query)
            /\ In term (tokenize (content (document r)))).
Proof.
  intros docs c earlier query topK Hk Hb s.
  assert (Hres : forall r, In r (fst (search s query topK)) ->
            (0 < score r)%R
            /\ exists d, In d docs
                         /\ r = resultOf (new docs c) (tokenize query) d).
  { intros r Hr. subst s. rewrite search_new in Hr.
    apply ranked_In in Hr. exact Hr. }
  split; [| split].
  - intros r Hr. subst s. rewrite new_documents_after, scoreAll_new in Hr.
    apply in_map_iff in Hr. destruct Hr as [d [<- _]].
    apply scoreOf_nonneg; assumption.
  - intros r Hr. destruct (Hres r Hr) as [Hpos [d [Hd ->]]].
    split; [exact Hpos |]. apply (scoreOf_pos_shares docs c). exact Hpos.
  - intros Hnd r Hr. destruct (Hres r Hr) as [Hpos [d [Hd ->]]].
    destruct (scoreOf_pos_shares docs c _ _ Hpos) as [d' [term [Hi [Hq Ht]]]].
    simpl in Hi. rewrite (indexedUnder_NoDup docs d Hnd Hd) in Hi.
    injection Hi as <-. exists term. auto.
Qed.

Lemma search_scores_sign_witness :
  (0 <= k1 (fillConfig defaultPartial))%R
  /\ (0 <= b (fillConfig defaultPartial) <= 1)%R
  /\ Forall (fun r => (0 < score r)%R)
       (fst (search (new workedDocs defaultPartial) workedQuery defaultTopK)).
Proof.
  assert (Hk : (0 <= k1 (fillConfig defaultPartial))%R) by (simpl; lra).
  assert (Hb : (0 <= b (fillConfig defaultPartial) <= 1)%R) by (simpl; lra).
  split; [exact Hk |]. split; [exact Hb |].
  apply List.Forall_forall. intros r Hr.
  exact (proj1 (proj1 (proj2 (search_scores_sign workedDocs defaultPartial []
                                workedQuery defaultTopK Hk Hb)) r Hr)).
Defined.

(** Two documents with one title: the index keeps the counts of the
    second under it, so the first is scored, and returned, on the words
    of the second. *)
Lemma twin_titles_returned :
  exists r,
    In r (fst (search (new twinDocs defaultPartial) (js "apple") defaultTopK))
    /\ document r = twinD1
    /\ forall term, In term (tokenize (js "apple")) ->
                    ~ In term (tokenize (content twinD1)).
Proof.
  exists (resultOf (new twinDocs defaultPartial) (tokenize (js "apple")) twinD1).
  split; [| split].
  - rewrite search_fresh. apply ranked_complete.
    + left. reflexivity.
    + vm_compute. lia.
    + apply (scoreOf_shares_pos twinDocs defaultPartial _ _ twinD2 (js "apple")).
      * simpl. lra.
      * simpl. lra.
      * vm_compute. reflexivity.
      * vm_compute. left. reflexivity.
      * vm_compute. left. reflexivity.
  - reflexivity.
  - intros term. vm_compute. intros [<- | []] [H | []]. discriminate H.
Qed.

End RankingClaims.

(** ** The claims on the robots policy cache *)

Module CrawlingClaims.

Import Crawling.

Lemma timeoutError_isAbort : isAbortError timeoutError = true.
Proof. reflexivity. Qed.

Lemma httpError_notAbort msg : isAbortError (Error msg) = false.
Proof. reflexivity. Qed.

Lemma isUrlAllowed_miss net targetUrl userAgent w origin :
  net_origin net targetUrl = Some origin ->
  robotsCache w !! robotsUrlOf origin = None ->
  isUrlAllowed net targetUrl userAgent w
  = let robotsUrl := robotsUrlOf origin in
    let w1 := fetched robotsUrl w in
    match net_fetch net robotsUrl with
    | Threw e => onError robotsUrl e w1
    | Returned response =>
        if resp_ok response then
          match resp_text response with
          | Threw e => onError robotsUrl e w1
          | Returned robotsTxt =>
              let isAllowed :=
                default true
                  (net_robots net robotsUrl robotsTxt targetUrl userAgent) in
              (Returned isAllowed, cached robotsUrl isAllowed w1)
          end
        else (Returned true, cached robotsUrl true w1)
    end.
Proof.
  intros Ho Hmiss. unfold isUrlAllowed. rewrite Ho. cbn zeta.
  unfold bind at 1, get. rewrite Hmiss.
  unfold try_catch, fetchWithTimeout, cacheSet, bind, modify, await, onError.
  destruct (net_fetch net (robotsUrlOf origin)) as [response | e].
  - destruct (resp_ok response).
    + unfold ret. destruct (resp_text response) as [robotsTxt | e].
      * reflexivity.
      * destruct (isAbortError e); reflexivity.
    + unfold throw. rewrite httpError_notAbort. reflexivity.
  - destruct (isAbortError e); reflexivity.
Qed.

Lemma isUrlAllowed_hit net targetUrl userAgent w origin v :
  net_origin net targetUrl = Some origin ->
  robotsCache w !! robotsUrlOf origin = Some v ->
  isUrlAllowed net targetUrl userAgent w = (Returned v, w).
Proof.
  intros Ho Hhit. unfold isUrlAllowed. rewrite Ho. cbn zeta.
  unfold bind at 1, get. rewrite Hhit. reflexivity.
Qed.

Lemma isUrlAllowed_invalid net targetUrl userAgent w :
  net_origin net targetUrl = None ->
  isUrlAllowed net targetUrl userAgent w = (Threw invalidUrlError, w).
Proof. intros Ho. unfold isUrlAllowed. rewrite Ho. reflexivity. Qed.

Lemma eventsOf_fetched {A} (c : M World A) w url (r : Outcome A) tr cache :
  c w = (r, {| robotsCache := cache; trace := (trace w ++ [EvFetch url]) ++ tr |}) ->
  eventsOf c w = EvFetch url :: tr.
Proof.
  intros H. unfold eventsOf. rewrite H. simpl.
  rewrite <- app_assoc. rewrite skipn_app, skipn_all, Nat.sub_diag.
  reflexivity.
Qed.

(** On a miss the first thing the service does is fetch robots.txt. *)
Lemma isUrlAllowed_miss_fetches net targetUrl userAgent w origin :
  net_origin net targetUrl = Some origin ->
  robotsCache w !! robotsUrlOf origin = None ->
  exists tr,
    eventsOf (isUrlAllowed net targetUrl userAgent) w
    = EvFetch (robotsUrlOf origin) :: tr.
Proof.
  intros Ho Hmiss.
  assert (Hshape : exists r cache tr,
            isUrlAllowed net targetUrl userAgent w
            = (r, {| robotsCache := cache;
                     trace := (trace w ++ [EvFetch (robotsUrlOf origin)]) ++ tr |})).
  { rewrite (isUrlAllowed_miss _ _ _ _ _ Ho Hmiss). cbn zeta.
    unfold onError, cached, fetched. cbn [robotsCache trace].
    destruct (net_fetch net (robotsUrlOf origin)) as [response | e].
    - destruct (resp_ok response).
      + destruct (resp_text response) as [robotsTxt | e].
        * eexists _, _, [_]. reflexivity.
        * destruct (isAbortError e).
          -- eexists _, _, []. rewrite app_nil_r. reflexivity.
          -- eexists _, _, [_]. reflexivity.
      + eexists _, _, [_]. reflexivity.
    - destruct (isAbortError e).
      + eexists _, _, []. rewrite app_nil_r. reflexivity.
      + eexists _, _, [_]. reflexivity. }
  destruct Hshape as (r & cache & tr & H).
  exists tr. eapply eventsOf_fetched. exact H.
Qed.

(** C3. Let the robots.txt of the target's origin not be cached. If the
    fetch is rejected by the timeout (an [AbortError]), [isUrlAllowed]
    returns [false] and leaves the cache as it was, so that the next call
    for a URL of that origin fetches robots.txt again. If the fetch is
    rejected by any other error, or answers with a non-success status,
    [isUrlAllowed] returns [true] and stores [true] for the origin, and the
    next call returns [true] without a fetch. *)
Theorem robots_fetch_failure :
  forall (net : Net) (w : World) (targetUrl userAgent origin : jsstring),
    net_origin net targetUrl = Some origin ->
    robotsCache w !! robotsUrlOf origin = None ->
    let robotsUrl := robotsUrlOf origin in
    let result := isUrlAllowed net targetUrl userAgent w in
    (forall e,
        net_fetch net robotsUrl = Threw e -> isAbortError e = true ->
        fst result = Returned false
        /\ robotsCache (snd result) = robotsCache w
        /\ eventsOf (isUrlAllowed net targetUrl userAgent) w = [EvFetch robotsUrl]
        /\ forall net' targetUrl' userAgent',
             net_origin net' targetUrl' = Some origin ->
             exists tr,
               eventsOf (isUrlAllowed net' targetUrl' userAgent') (snd result)
               = EvFetch robotsUrl :: tr)
    /\ ((exists e, net_fetch net robotsUrl = Threw e /\ isAbortError e = false)
        \/ (exists response,
              net_fetch net robotsUrl = Returned response
              /\ resp_ok response = false) ->
        fst result = Returned true
        /\ robotsCache (snd result) !! robotsUrl = Some true
        /\ eventsOf (isUrlAllowed net targetUrl userAgent) w
           = [EvFetch robotsUrl; EvCacheSet robotsUrl true]
        /\ forall net' targetUrl' userAgent',
             net_origin net' targetUrl' = Some origin ->
             isUrlAllowed net' targetUrl' userAgent' (snd result)
             = (Returned true, snd result)).
Proof.
  intros net w targetUrl userAgent origin Ho Hmiss robotsUrl result.
  pose proof (isUrlAllowed_miss net targetUrl userAgent w origin Ho Hmiss)
    as Hrun.
  cbn zeta in Hrun. fold robotsUrl in Hrun. split.
  - intros e Hfetch Habort.
    rewrite Hfetch in Hrun. unfold onError in Hrun. rewrite Habort in Hrun.
    subst result. rewrite Hrun. cbn [fst snd].
    split; [reflexivity |]. split; [reflexivity |]. split.
    + apply (eventsOf_fetched _ w robotsUrl (Returned false) [] (robotsCache w)).
      rewrite Hrun, app_nil_r. reflexivity.
    + intros net' targetUrl' userAgent' Ho'.
      apply isUrlAllowed_miss_fetches; [exact Ho' | exact Hmiss].
  - intros Hfail.
    assert (Hres : result = (Returned true, cached robotsUrl true (fetched robotsUrl w))).
    { subst result. rewrite Hrun.
      destruct Hfail as [[e [Hfetch Hna]] | [response [Hfetch Hnok]]];
        rewrite Hfetch.
      - unfold onError. rewrite Hna. reflexivity.
      - rewrite Hnok. reflexivity. }
    rewrite Hres. cbn [fst snd].
    split; [reflexivity |]. split; [apply lookup_insert_eq |]. split.
    + apply (eventsOf_fetched _ w robotsUrl (Returned true)
               [EvCacheSet robotsUrl true]
               (<[robotsUrl := true]> (robotsCache w))).
      exact Hres.
    + intros net' targetUrl' userAgent' Ho'.
      apply (isUrlAllowed_hit _ _ _ _ origin); [exact Ho' |].
      apply lookup_insert_eq.
Qed.

Lemma robots_fetch_failure_witness :
  let url := js "https://example.com/page" in
  fst (isUrlAllowed (exampleNet (Threw timeoutError)) url USER_AGENT emptyWorld)
  = Returned false
  /\ robotsCache
       (snd (isUrlAllowed (exampleNet (Threw timeoutError)) url USER_AGENT
               emptyWorld))
     = robotsCache emptyWorld
  /\ fst (isUrlAllowed (exampleNet (Returned notFound)) url USER_AGENT emptyWorld)
     = Returned true
  /\ robotsCache
       (snd (isUrlAllowed (exampleNet (Returned notFound)) url USER_AGENT
               emptyWorld))
     !! js "https://example.com/robots.txt" = Some true.
Proof.
  intros url.
  assert (Ho : forall o, net_origin (exampleNet o) url
                         = Some (js "https://example.com"))
    by (intros o; vm_compute; reflexivity).
  assert (Hmiss : robotsCache emptyWorld
                  !! robotsUrlOf (js "https://example.com") = None)
    by apply lookup_empty.
  destruct (robots_fetch_failure (exampleNet (Threw timeoutError)) emptyWorld
              url USER_AGENT _ (Ho _) Hmiss) as [Htimeout _].
  destruct (Htimeout timeoutError eq_refl eq_refl) as (H1 & H2 & _).
  destruct (robots_fetch_failure (exampleNet (Returned notFound)) emptyWorld
              url USER_AGENT _ (Ho _) Hmiss) as [_ Hother].
  destruct Hother as (H3 & H4 & _).
  { right. exists notFound. split; reflexivity. }
  repeat split; assumption.
Defined.

Lemma crawlWebsite_returns net r w :
  exists res, fst (crawlWebsite net r w) = Returned res.
Proof.
  unfold crawlWebsite, try_catch.
  match goal with |- context [match ?c w with _ => _ end] =>
    destruct (c w) as [[res | e] w'] end.
  - exists res. reflexivity.
  - exists None. reflexivity.
Qed.

Lemma isUrlAllowed_valid_returns net targetUrl userAgent w origin :
  net_origin net targetUrl = Some origin ->
  exists allowed,
    fst (isUrlAllowed net targetUrl userAgent w) = Returned allowed.
Proof.
  intros Ho.
  destruct (robotsCache w !! robotsUrlOf origin) as [v |] eqn:Hc.
  - rewrite (isUrlAllowed_hit _ _ _ _ _ _ Ho Hc). eauto.
  - rewrite (isUrlAllowed_miss _ _ _ _ _ Ho Hc). cbn zeta. unfold onError.
    destruct (net_fetch net (robotsUrlOf origin)) as [response | e].
    + destruct (resp_ok response); [| eauto].
      destruct (resp_text response) as [txt | e]; [eauto |].
      destruct (isAbortError e); eauto.
    + destruct (isAbortError e); eauto.
Qed.

(** C4, as the code has it. [isUrlAllowed] returns a boolean whenever
    [new URL(targetUrl)] succeeds, whatever the cache holds and whatever
    the fetch does. On a [targetUrl] that is not a URL the constructor's
    [TypeError] leaves [isUrlAllowed], before the cache is read and with
    nothing fetched; [crawlWebsite], its caller, catches it and returns
    [null], and never throws itself. *)
Theorem isUrlAllowed_returns_or_invalid :
  forall (net : Net) (targetUrl userAgent : jsstring) (w : World),
    (forall origin, net_origin net targetUrl = Some origin ->
       exists allowed,
         fst (isUrlAllowed net targetUrl userAgent w) = Returned allowed)
    /\ (net_origin net targetUrl = None ->
          isUrlAllowed net targetUrl userAgent w = (Threw invalidUrlError, w))
    /\ (forall r, exists res, fst (crawlWebsite net r w) = Returned res)
    /\ (forall r, net_origin net (sr_url r) = None ->
          crawlWebsite net r w = (Returned None, w)).
Proof.
  intros net targetUrl userAgent w. split; [| split; [| split]].
  - intros origin Ho. eapply isUrlAllowed_valid_returns. exact Ho.
  - apply isUrlAllowed_invalid.
  - intros r. apply crawlWebsite_returns.
  - intros r Ho. unfold crawlWebsite, try_catch, bind.
    rewrite (isUrlAllowed_invalid _ _ _ _ Ho). reflexivity.
Qed.

Lemma isUrlAllowed_returns_or_invalid_witness :
  (exists allowed,
     fst (isUrlAllowed (exampleNet (Returned notFound))
            (js "https://example.com/page") USER_AGENT emptyWorld)
     = Returned allowed)
  /\ crawlWebsite (exampleNet (Returned notFound))
       {| sr_title := js "t"; sr_url := js "not a url";
          sr_description := js "d" |} emptyWorld
     = (Returned None, emptyWorld).
Proof.
  split.
  - apply (proj1 (isUrlAllowed_returns_or_invalid (exampleNet (Returned notFound))
                    (js "https://example.com/page") USER_AGENT emptyWorld)
             (js "https://example.com")).
    vm_compute. reflexivity.
  - apply (proj2 (proj2 (proj2
             (isUrlAllowed_returns_or_invalid (exampleNet (Returned notFound))
                (js "not a url") USER_AGENT emptyWorld)))).
    vm_compute. reflexivity.
Defined.

(** [isUrlAllowed("not a url")] throws. *)
Lemma isUrlAllowed_throws_on_invalid_url :
  fst (isUrlAllowed (exampleNet (Returned notFound)) (js "not a url")
         USER_AGENT emptyWorld)
  = Threw invalidUrlError.
Proof. vm_compute. reflexivity. Qed.

End CrawlingClaims.

(** ** The claims on the orchestrator *)

Module BatchClaims.

Import BM25 Crawling Batch.

Local Open Scope Z_scope.

Lemma addCalls_addCalls cs1 cs2 w :
  addCalls cs2 (addCalls cs1 w) = addCalls (cs1 ++ cs2) w.
Proof. unfold addCalls. simpl. rewrite app_assoc. reflexivity. Qed.

Lemma persistQuizzes_nil w : persistQuizzes [] w = w.
Proof.
  unfold persistQuizzes. simpl. rewrite !app_nil_r.
  destruct w as [[kws arts qs next] cs]. reflexivity.
Qed.

Lemma persistQuizzes_app rows1 rows2 w :
  persistQuizzes rows2 (persistQuizzes rows1 w)
  = persistQuizzes (rows1 ++ rows2) w.
Proof.
  unfold persistQuizzes. simpl. rewrite map_app, !app_assoc. reflexivity.
Qed.

Lemma isArticleExists_run k w :
  isArticleExists k w
  = (Returned (nonEmptyList (articlesOf (store w) k)),
     addCalls [ArticleFindFirst k] w).
Proof. reflexivity. Qed.

Lemma isQuizExists_run k w :
  isQuizExists k w
  = (Returned (nonEmptyList (quizzesOf (store w) k)),
     addCalls [QuizFindFirst k] w).
Proof. reflexivity. Qed.

Lemma findKeyword_run k w :
  findKeyword k w
  = (match keywords (store w) !! k with
     | None => Threw (Error KEYWORD_NOT_FOUND)
     | Some kw =>
         Returned {| name := kw_name kw; description := kw_description kw |}
     end,
     addCalls [KeywordFindUnique k] w).
Proof.
  unfold findKeyword, bind, call, modify, getStore, get, ret. simpl.
  destruct (keywords (store w) !! k); reflexivity.
Qed.

(** [Promise.all] over calls that each leave one entry in the record and
    take their outcome from the environment. *)
Lemma promiseAll_calls {A B} (f : A -> M World B) (C : A -> Call)
    (o : A -> Outcome B) :
  (forall a w, f a w = (o a, addCalls [C a] w)) ->
  forall l w,
    promiseAll f l w = (allOutcomes (List.map o l), addCalls (List.map C l) w).
Proof.
  intros Hf. induction l as [| a r IH]; intros w; simpl.
  - unfold ret, addCalls. rewrite app_nil_r. destruct w; reflexivity.
  - rewrite Hf, IH, addCalls_addCalls. simpl.
    destruct (o a) as [x | e]; [| reflexivity].
    destruct (allOutcomes (List.map o r)); reflexivity.
Qed.

Lemma quizCreate_run q w :
  quizCreate q w = (Returned tt, persistQuizzes [q] w).
Proof. reflexivity. Qed.

(** The callbacks of the quiz transaction, started: the first row of
    every article is written, and the callbacks with a row wait. *)
Lemma startLoops_quizCreate tasks : forall w,
  startLoops quizCreate tasks w
  = (List.map (fun t => (Returned tt, tl t)) (List.filter nonEmptyList tasks),
     persistQuizzes (List.concat (List.map (firstn 1) tasks)) w).
Proof.
  induction tasks as [| [| x rest] r IH]; intros w.
  - simpl. rewrite persistQuizzes_nil. reflexivity.
  - simpl. apply IH.
  - cbn [startLoops]. rewrite quizCreate_run, IH.
    rewrite persistQuizzes_app. reflexivity.
Qed.

Lemma nth_split_perm {A} (l : list A) (d : A) : forall i,
  (i < length l)%nat ->
  Permutation l (nth i l d :: (firstn i l ++ skipn (S i) l)).
Proof.
  induction l as [| a r IH]; intros i Hi; simpl in Hi; [lia |].
  destruct i as [| i]; [reflexivity |].
  cbn [nth firstn skipn app].
  etransitivity; [| apply perm_swap].
  apply perm_skip, IH. lia.
Qed.

Lemma concat_perm {A} (l l' : list (list A)) :
  Permutation l l' -> Permutation (List.concat l) (List.concat l').
Proof.
  induction 1 as [| x l l' _ IH | x y l | l l' l'' _ IH1 _ IH2]; simpl.
  - reflexivity.
  - apply Permutation_app_head, IH.
  - rewrite !app_assoc. apply Permutation_app_tail, Permutation_app_comm.
  - etransitivity; eassumption.
Qed.

(** The callbacks of the quiz transaction, resumed: whatever the order in
    which the store settles the writes, every remaining row is
    written. *)
Lemma resumeLoops_quizCreate fuel : forall settled waiting w,
  List.Forall (fun e : Waiting Quiz => fst e = Returned tt) waiting ->
  (length (List.concat (List.map snd waiting)) + length waiting <= fuel)%nat ->
  exists written,
    resumeLoops quizCreate fuel settled waiting w
    = (Returned tt, persistQuizzes written w)
    /\ Permutation written (List.concat (List.map snd waiting)).
Proof.
  induction fuel as [| fuel IH]; intros settled waiting w Hall Hfuel.
  - destruct waiting as [| e r]; [| simpl in Hfuel; lia].
    exists []. rewrite persistQuizzes_nil. split; reflexivity.
  - destruct waiting as [| oldest r].
    { exists []. rewrite persistQuizzes_nil. split; reflexivity. }
    cbn [resumeLoops].
    set (waiting := oldest :: r) in *.
    set (i := if Nat.ltb (hd 0%nat settled) (length waiting)
              then hd 0%nat settled else 0%nat).
    assert (Hi : (i < length waiting)%nat).
    { subst i. destruct (Nat.ltb_spec (hd 0%nat settled) (length waiting));
        [assumption | simpl; lia]. }
    pose proof (nth_split_perm waiting oldest i Hi) as Hperm.
    set (others := firstn i waiting ++ skipn (S i) waiting) in *.
    assert (Hin : In (nth i waiting oldest) waiting) by (apply nth_In; exact Hi).
    assert (Hothers : List.Forall (fun e : Waiting Quiz => fst e = Returned tt)
                        others).
    { apply List.Forall_forall. intros e He.
      rewrite List.Forall_forall in Hall. apply Hall.
      apply (Permutation_in _ (Permutation_sym Hperm)). right. exact He. }
    pose proof (proj1 (List.Forall_forall _ _) Hall _ Hin) as Hfst.
    pose proof (concat_perm _ _ (Permutation_map snd Hperm)) as Hrows.
    pose proof (Permutation_length Hperm) as Hlen.
    pose proof (Permutation_length Hrows) as Hlen'.
    clearbody others. clearbody i. clearbody waiting.
    destruct (nth i waiting oldest) as [o rest]. cbn [fst] in Hfst. subst o.
    cbn [List.map snd List.concat length] in Hrows, Hlen, Hlen'.
    rewrite length_app in Hlen'.
    destruct rest as [| x rest].
    + destruct (IH (tl settled) others w Hothers) as [written [Hrun Hw]];
        [unfold Waiting in *; simpl in Hlen'; lia |].
      exists written. split; [exact Hrun |].
      etransitivity; [exact Hw | symmetry; exact Hrows].
    + rewrite quizCreate_run.
      destruct (IH (tl settled) (others ++ [(Returned tt, rest)])
                  (persistQuizzes [x] w)) as [written [Hrun Hw]].
      * apply Forall_app. split; [exact Hothers |].
        constructor; [reflexivity | constructor].
      * rewrite map_app, concat_app, !length_app.
        cbn [List.map snd List.concat length] in *. rewrite app_nil_r.
        unfold Waiting in *. lia.
      * exists (x :: written). rewrite Hrun, persistQuizzes_app.
        split; [reflexivity |].
        etransitivity; [| symmetry; exact Hrows].
        cbn [app]. apply perm_skip.
        etransitivity; [exact Hw |].
        rewrite map_app, concat_app. cbn [List.map snd List.concat].
        rewrite app_nil_r. apply Permutation_app_comm.
Qed.

Lemma started_rows (tasks : list (list Quiz)) :
  Permutation
    (List.concat (List.map (firstn 1) tasks)
     ++ List.concat (List.map tl (List.filter nonEmptyList tasks)))
    (List.concat tasks).
Proof.
  induction tasks as [| [| x rest] r IH]; simpl.
  - reflexivity.
  - exact IH.
  - apply perm_skip.
    etransitivity; [| apply Permutation_app_head; exact IH].
    rewrite !app_assoc. apply Permutation_app_tail, Permutation_app_comm.
Qed.

Lemma started_fuel (tasks : list (list Quiz)) :
  (length (List.concat (List.map tl (List.filter nonEmptyList tasks)))
   + length (List.filter nonEmptyList tasks)
   <= length (List.concat tasks) + length tasks)%nat.
Proof.
  induction tasks as [| [| x rest] r IH]; simpl.
  - lia.
  - lia.
  - rewrite !length_app. lia.
Qed.

(** The quiz transaction: the first row of every article, then the rest
    in some order; every row is written. *)
Lemma promiseAllLoops_quizCreate settled tasks w :
  exists later,
    promiseAllLoops quizCreate settled tasks w
    = (Returned tt,
       persistQuizzes (List.concat (List.map (firstn 1) tasks) ++ later) w)
    /\ Permutation (List.concat (List.map (firstn 1) tasks) ++ later)
                   (List.concat tasks).
Proof.
  unfold promiseAllLoops. rewrite startLoops_quizCreate.
  destruct (resumeLoops_quizCreate
              (length (List.concat tasks) + length tasks) settled
              (List.map (fun t => (Returned tt, tl t))
                        (List.filter nonEmptyList tasks))
              (persistQuizzes (List.concat (List.map (firstn 1) tasks)) w))
    as [later [Hrun Hperm]].
  - apply List.Forall_forall. intros e He.
    apply in_map_iff in He. destruct He as [t [<- _]]. reflexivity.
  - rewrite List.map_map, length_map. cbn [snd]. apply started_fuel.
  - exists later. rewrite Hrun, persistQuizzes_app. split; [reflexivity |].
    rewrite List.map_map in Hperm. cbn [snd] in Hperm.
    etransitivity; [apply Permutation_app_head; exact Hperm |].
    apply started_rows.
Qed.

(** [generateQuizzes], up to the transaction. *)
Lemma generateQuizzes_generated sv k w :
  generateQuizzes sv k w
  = let arts := articlesOf (store w) k in
    let w1 :=
      addCalls (ArticleFindMany k
                  :: List.map (fun a => GenerateObjFromAi (quizPromptOf a)) arts)
               w in
    match generatedQuizzes sv arts with
    | Threw e => (Threw e, w1)
    | Returned generated =>
        promiseAllLoops quizCreate (svc_settled sv)
          (List.map (fun '(articleId, items) =>
                       List.map (quizRow articleId) items) generated) w1
    end.
Proof.
  unfold generateQuizzes. unfold bind at 1. unfold call at 1, modify.
  unfold bind at 1. unfold getStore at 1, bind at 1, get, ret.
  cbn [store addCalls].
  unfold bind at 1.
  rewrite (promiseAll_calls _
             (fun a => GenerateObjFromAi (quizPromptOf a))
             (fun a =>
                match svc_quizzesFromAi sv (quizPromptOf a) with
                | Returned items => Returned (art_id a, items)
                | Threw e => Threw e
                end)).
  - rewrite addCalls_addCalls. cbn zeta. cbn [app].
    fold (generatedQuizzes sv (articlesOf (store w) k)).
    destruct (generatedQuizzes sv (articlesOf (store w) k)) as [generated | e];
      reflexivity.
  - intros a w0. unfold bind, call, modify, await, ret, quizPromptOf.
    destruct (svc_quizzesFromAi sv (QuizzesPrompt (art_content a)));
      reflexivity.
Qed.

Lemma firstRows_tasks generated :
  List.concat
    (List.map (firstn 1)
       (List.map (fun '(articleId, items) =>
                    List.map (quizRow articleId) items) generated))
  = firstRows generated.
Proof.
  unfold firstRows. rewrite List.map_map. f_equal.
  apply map_ext. intros [articleId items]. reflexivity.
Qed.

(** [generateQuizzes], run: when a generation fails nothing is written;
    otherwise the first row of every article is written, then the rest,
    and every row is. *)
Lemma generateQuizzes_run sv k w :
  let arts := articlesOf (store w) k in
  let w1 :=
    addCalls (ArticleFindMany k
                :: List.map (fun a => GenerateObjFromAi (quizPromptOf a)) arts)
             w in
  match generatedQuizzes sv arts with
  | Threw e => generateQuizzes sv k w = (Threw e, w1)
  | Returned generated =>
      exists later,
        generateQuizzes sv k w
        = (Returned tt, persistQuizzes (firstRows generated ++ later) w1)
        /\ Permutation (firstRows generated ++ later) (quizRows generated)
  end.
Proof.
  cbn zeta. rewrite generateQuizzes_generated. cbn zeta.
  destruct (generatedQuizzes sv (articlesOf (store w) k)) as [generated | e];
    [| reflexivity].
  destruct (promiseAllLoops_quizCreate (svc_settled sv)
              (List.map (fun '(articleId, items) =>
                           List.map (quizRow articleId) items) generated)
              (addCalls (ArticleFindMany k
                           :: List.map
                                (fun a => GenerateObjFromAi (quizPromptOf a))
                                (articlesOf (store w) k)) w))
    as [later [Hrun Hperm]].
  exists later. rewrite firstRows_tasks in Hrun, Hperm.
  split; [exact Hrun | exact Hperm].
Qed.

Lemma callsOf_addCalls {A} (c : M World A) w (r : Outcome A) cs :
  c w = (r, addCalls cs w) -> callsOf c w = cs.
Proof.
  intros H. unfold callsOf. rewrite H. simpl.
  rewrite skipn_app, skipn_all, Nat.sub_diag. reflexivity.
Qed.


Lemma nonEmptyList_true {A} (l : list A) : l <> [] -> nonEmptyList l = true.
Proof. destruct l; [congruence | reflexivity]. Qed.

(** The first version, on a keyword that has articles. *)
Lemma generateContents_with_articles sv k w :
  articlesOf (store w) k <> [] ->
  generateContents sv k w
  = if nonEmptyList (quizzesOf (store w) k)
    then (Threw (Error CONTENTS_ALREADY_EXISTS),
          addCalls [ArticleFindFirst k; QuizFindFirst k] w)
    else generateQuizzes sv k (addCalls [ArticleFindFirst k; QuizFindFirst k] w).
Proof.
  intros Ha. unfold generateContents. unfold bind at 1.
  rewrite isArticleExists_run, (nonEmptyList_true _ Ha).
  unfold bind at 1. rewrite isQuizExists_run, addCalls_addCalls.
  cbn [store addCalls app].
  destruct (nonEmptyList (quizzesOf (store w) k)); reflexivity.
Qed.

(** The first version, on a keyword without articles and without a row. *)
Lemma generateContents_absent sv k w :
  articlesOf (store w) k = [] -> keywords (store w) !! k = None ->
  generateContents sv k w
  = (Threw (Error KEYWORD_NOT_FOUND),
     addCalls [ArticleFindFirst k; KeywordFindUnique k] w).
Proof.
  intros Ha Hk. unfold generateContents. unfold bind at 1.
  rewrite isArticleExists_run, Ha. cbn [nonEmptyList].
  unfold bind at 1. rewrite findKeyword_run, addCalls_addCalls.
  cbn [store addCalls app]. rewrite Hk. reflexivity.
Qed.

(** The second version, on a keyword without a row. *)
Lemma generateContents2_absent sv k w :
  keywords (store w) !! k = None ->
  generateContents2 sv k w
  = (Threw (Error KEYWORD_NOT_FOUND), addCalls [KeywordFindUnique k] w).
Proof.
  intros Hk. unfold generateContents2. unfold bind at 1.
  rewrite findKeyword_run, Hk. reflexivity.
Qed.

(** The second version, on a keyword that has a row, articles and
    quizzes. *)
Lemma generateContents2_complete sv k w kw :
  keywords (store w) !! k = Some kw ->
  articlesOf (store w) k <> [] -> quizzesOf (store w) k <> [] ->
  generateContents2 sv k w
  = (Threw (Error CONTENTS_ALREADY_EXISTS),
     addCalls [KeywordFindUnique k; ArticleFindFirst k; QuizFindFirst k] w).
Proof.
  intros Hk Ha Hq. unfold generateContents2. unfold bind at 1.
  rewrite findKeyword_run, Hk. unfold bind at 1.
  rewrite isArticleExists_run. cbn [store addCalls].
  rewrite (nonEmptyList_true _ Ha), addCalls_addCalls.
  unfold bind at 1. rewrite isQuizExists_run. cbn [store addCalls].
  rewrite (nonEmptyList_true _ Hq), addCalls_addCalls. reflexivity.
Qed.

Lemma generatedQuizzes_ids sv arts : forall generated,
  generatedQuizzes sv arts = Returned generated ->
  List.map fst generated = List.map art_id arts.
Proof.
  unfold generatedQuizzes.
  induction arts as [| a r IH]; simpl; intros generated H.
  - injection H as <-. reflexivity.
  - destruct (svc_quizzesFromAi sv (quizPromptOf a)) as [items | e];
      [| discriminate].
    destruct (allOutcomes _) as [xs | e]; [| discriminate].
    injection H as <-. simpl. f_equal. apply IH. reflexivity.
Qed.

(** C5, as the code has it. On a keyword id without a row in the store,
    the second version of [generateContents] resolves the keyword first
    and fails with [KEYWORD_NOT_FOUND] after that one read. The first
    version looks for an article first; when the store holds no article of
    the absent keyword, it resolves the keyword next and fails with
    [KEYWORD_NOT_FOUND] too. In both the store is left as it was and
    nothing is searched, crawled, generated or written. *)
Theorem generateContents_keyword_absent :
  forall (sv : Services) (k : Z) (w : World),
    keywords (store w) !! k = None ->
    generateContents2 sv k w
    = (Threw (Error KEYWORD_NOT_FOUND), addCalls [KeywordFindUnique k] w)
    /\ (articlesOf (store w) k = [] ->
        generateContents sv k w
        = (Threw (Error KEYWORD_NOT_FOUND),
           addCalls [ArticleFindFirst k; KeywordFindUnique k] w)).
Proof.
  intros sv k w Hk. split.
  - apply generateContents2_absent. exact Hk.
  - intros Ha. apply generateContents_absent; assumption.
Qed.

Lemma generateContents_keyword_absent_witness :
  keywords (store (worldOf emptyStore)) !! 1 = None
  /\ generateContents2 exampleServices 1 (worldOf emptyStore)
     = (Threw (Error KEYWORD_NOT_FOUND),
        addCalls [KeywordFindUnique 1] (worldOf emptyStore))
  /\ generateContents exampleServices 1 (worldOf emptyStore)
     = (Threw (Error KEYWORD_NOT_FOUND),
        addCalls [ArticleFindFirst 1; KeywordFindUnique 1] (worldOf emptyStore)).
Proof.
  assert (Hk : keywords (store (worldOf emptyStore)) !! 1 = None)
    by apply lookup_empty.
  destruct (generateContents_keyword_absent exampleServices 1
              (worldOf emptyStore) Hk) as [H2 H1].
  split; [exact Hk |]. split; [exact H2 | apply H1; reflexivity].
Defined.

(** In the first version the article check comes before the keyword is
    resolved: on the empty store the first read is [article.findFirst]. *)
Lemma generateContents_checks_articles_first :
  keywords emptyStore !! 1 = None
  /\ callsOf (generateContents exampleServices 1) (worldOf emptyStore)
     = [ArticleFindFirst 1; KeywordFindUnique 1].
Proof.
  split; [apply lookup_empty |].
  eapply callsOf_addCalls. apply generateContents_absent.
  - reflexivity.
  - apply lookup_empty.
Qed.

(** ... and an article and quiz left behind by a deleted keyword make it
    fail with [CONTENTS_ALREADY_EXISTS]. *)
Lemma generateContents_orphan_contents :
  keywords orphanStore !! 1 = None
  /\ fst (generateContents exampleServices 1 (worldOf orphanStore))
     = Threw (Error CONTENTS_ALREADY_EXISTS).
Proof.
  split; [apply lookup_empty |].
  rewrite generateContents_with_articles by (vm_compute; discriminate).
  replace (nonEmptyList (quizzesOf (store (worldOf orphanStore)) 1))
    with true by (vm_compute; reflexivity).
  reflexivity.
Qed.

(** C6. On a keyword that has an article and a quiz, [generateContents]
    fails with [CONTENTS_ALREADY_EXISTS]; all it does is the two reads
    that find the article and the quiz, so that the store is unchanged and
    nothing is searched, crawled or generated. The second version does
    the same after its read of the keyword row. *)
Theorem generateContents_already_exists :
  forall (sv : Services) (k : Z) (w : World),
    articlesOf (store w) k <> [] ->
    quizzesOf (store w) k <> [] ->
    fst (generateContents sv k w) = Threw (Error CONTENTS_ALREADY_EXISTS)
    /\ store (snd (generateContents sv k w)) = store w
    /\ callsOf (generateContents sv k) w
       = [ArticleFindFirst k; QuizFindFirst k]
    /\ (forall kw, keywords (store w) !! k = Some kw ->
          fst (generateContents2 sv k w)
          = Threw (Error CONTENTS_ALREADY_EXISTS)
          /\ store (snd (generateContents2 sv k w)) = store w
          /\ callsOf (generateContents2 sv k) w
             = [KeywordFindUnique k; ArticleFindFirst k; QuizFindFirst k]).
Proof.
  intros sv k w Ha Hq.
  pose proof (generateContents_with_articles sv k w Ha) as H1.
  rewrite (nonEmptyList_true _ Hq) in H1.
  split; [rewrite H1; reflexivity |].
  split; [rewrite H1; reflexivity |].
  split; [eapply callsOf_addCalls; exact H1 |].
  intros kw Hk.
  pose proof (generateContents2_complete sv k w kw Hk Ha Hq) as H2.
  split; [rewrite H2; reflexivity |].
  split; [rewrite H2; reflexivity |].
  eapply callsOf_addCalls. exact H2.
Qed.

Lemma generateContents_already_exists_witness :
  fst (generateContents exampleServices 1 (worldOf completeStore))
  = Threw (Error CONTENTS_ALREADY_EXISTS)
  /\ store (snd (generateContents exampleServices 1 (worldOf completeStore)))
     = completeStore
  /\ callsOf (generateContents exampleServices 1) (worldOf completeStore)
     = [ArticleFindFirst 1; QuizFindFirst 1].
Proof.
  assert (Ha : articlesOf (store (worldOf completeStore)) 1 <> [])
    by (vm_compute; discriminate).
  assert (Hq : quizzesOf (store (worldOf completeStore)) 1 <> [])
    by (vm_compute; discriminate).
  destruct (generateContents_already_exists exampleServices 1
              (worldOf completeStore) Ha Hq) as (H1 & H2 & H3 & _).
  repeat split; assumption.
Defined.




(** The same two articles, the store settling the newest outstanding
    write first: the first rows are written as before, the second rows
    the other way round. *)
Lemma quiz_rows_follow_the_store :
  quizzes (store (snd (generateContents newestFirstServices 1
                         (worldOf twoArticleStore))))
  = [quizRow 10 exampleItem; quizRow 11 exampleItem;
     quizRow 11 secondItem; quizRow 10 secondItem].
Proof. vm_compute. reflexivity. Qed.

End BatchClaims.

(** ** More on the tokenizer *)

Module TokenizeMore.

Import BM25 TokenizeFacts.

Local Open Scope N_scope.

Lemma is_lower_word_spec c :
  is_lower_word c = true <-> 97 <= c <= 122 \/ 48 <= c <= 57 \/ c = 95.
Proof.
  unfold is_lower_word, is_lower, is_digit.
  rewrite !orb_true_iff, !in_range_spec, N.eqb_eq. tauto.
Qed.

Lemma lower_word_lowerUnit c : is_lower_word c = true -> lowerUnit c = [c].
Proof.
  rewrite is_lower_word_spec. intros H.
  unfold lowerUnit, is_upper, in_range.
  destruct H as [H | [H | H]]; cases_N; reflexivity.
Qed.

Lemma lower_word_not_space c : is_lower_word c = true -> is_space c = false.
Proof.
  rewrite is_lower_word_spec. intros H.
  unfold is_space, in_range.
  destruct H as [H | [H | H]]; cases_N; reflexivity.
Qed.

Lemma toLowerCase_token tok :
  Forall (fun c => is_lower_word c = true) tok -> toLowerCase tok = tok.
Proof.
  unfold toLowerCase. induction 1 as [| c r Hc _ IH]; simpl; [reflexivity |].
  rewrite (lower_word_lowerUnit c Hc), IH. reflexivity.
Qed.

Lemma replaceNonWord_token tok :
  Forall (fun c => is_lower_word c = true) tok -> replaceNonWord tok = tok.
Proof.
  unfold replaceNonWord. induction 1 as [| c r Hc _ IH]; simpl; [reflexivity |].
  rewrite (lower_word_is_word c Hc), IH. reflexivity.
Qed.

Lemma split_go_no_space tok : forall cur skip,
  Forall (fun c => is_space c = false) tok ->
  split_go cur skip tok = [rev cur ++ tok].
Proof.
  induction tok as [| c r IH]; intros cur skip H; simpl.
  - rewrite app_nil_r. reflexivity.
  - inversion H as [| ? ? Hc Hr]; subst. rewrite Hc.
    rewrite (IH (c :: cur) false Hr). simpl. rewrite <- app_assoc.
    reflexivity.
Qed.

(** A token is its own only token. *)
Lemma tokenize_token tok :
  tok <> [] -> Forall (fun c => is_lower_word c = true) tok ->
  tokenize tok = [tok].
Proof.
  intros Hne Hall. unfold tokenize, splitSpaces.
  rewrite (toLowerCase_token tok Hall), (replaceNonWord_token tok Hall).
  rewrite split_go_no_space.
  - simpl. destruct tok; [congruence | reflexivity].
  - rewrite List.Forall_forall in *. intros c Hc.
    apply lower_word_not_space, Hall, Hc.
Qed.

Lemma space_separates s1 s2 :
  tokenize (s1 ++ 32 :: s2) = tokenize s1 ++ tokenize s2.
Proof. apply tokenize_separator. repeat constructor. Qed.

Lemma tokenize_join_tokens toks :
  Forall (fun tok => tok <> [] /\ Forall (fun c => is_lower_word c = true) tok)
         toks ->
  tokenize (Batch.join [32] toks) = toks.
Proof.
  induction 1 as [| tok r [Hne Hall] Hr IH]; [reflexivity |].
  destruct r as [| tok' r'].
  - simpl. apply tokenize_token; assumption.
  - change (Batch.join [32] (tok :: tok' :: r'))
      with (tok ++ 32 :: Batch.join [32] (tok' :: r')).
    rewrite space_separates, IH, (tokenize_token tok Hne Hall). reflexivity.
Qed.

(** X1. The tokens of a text, written out with a space between them and
    tokenized again, are the same tokens: the tokenizer is a normal form,
    and a document can be replaced by its token list without changing the
    index. *)
Theorem tokenize_of_joined_tokens :
  forall text : jsstring,
    tokenize (Batch.join [32] (tokenize text)) = tokenize text.
Proof.
  intros text. apply tokenize_join_tokens.
  apply List.Forall_forall. intros tok Hin.
  apply (tokenize_tokens text tok Hin).
Qed.

Lemma lowerUnit_cases c :
  (lowerUnit c = [c + 32] /\ is_lower_word (c + 32) = true)
  \/ lowerUnit c = [107] \/ lowerUnit c = [105; 775] \/ lowerUnit c = [c].
Proof.
  unfold lowerUnit. destruct (is_upper c) eqn:Hu.
  - left. split; [reflexivity |].
    apply in_range_spec in Hu. apply is_lower_word_spec. lia.
  - destruct (c =? 8490); [auto |]. destruct (c =? 304); auto.
Qed.

Lemma toLowerCase_unit c : toLowerCase [c] = lowerUnit c.
Proof. unfold toLowerCase. simpl. apply app_nil_r. Qed.

Lemma toLowerCase_lowerUnit c : toLowerCase (lowerUnit c) = lowerUnit c.
Proof.
  destruct (lowerUnit_cases c) as [[H Hl] | [H | [H | H]]].
  - rewrite H, toLowerCase_unit. apply lower_word_lowerUnit. exact Hl.
  - rewrite H. reflexivity.
  - rewrite H. reflexivity.
  - rewrite H at 1. rewrite toLowerCase_unit. reflexivity.
Qed.

Lemma toLowerCase_idempotent s : toLowerCase (toLowerCase s) = toLowerCase s.
Proof.
  induction s as [| c r IH]; [reflexivity |].
  change (toLowerCase (c :: r)) with (lowerUnit c ++ toLowerCase r).
  rewrite toLowerCase_app, toLowerCase_lowerUnit, IH. reflexivity.
Qed.

(** X2. Tokenizing does not see letter case: a text and its lower-case
    form have the same tokens, and turning one ASCII capital of a text
    into its small letter changes no token. *)
Theorem tokenize_ignores_case :
  (forall text : jsstring, tokenize (toLowerCase text) = tokenize text)
  /\ (forall (c : N) (s1 s2 : jsstring),
        is_upper c = true ->
        tokenize (s1 ++ c :: s2) = tokenize (s1 ++ (c + 32) :: s2)).
Proof.
  split.
  - intros text. unfold tokenize. rewrite toLowerCase_idempotent.
    reflexivity.
  - intros c s1 s2 Hu. unfold tokenize. f_equal. f_equal. f_equal.
    change (c :: s2) with ([c] ++ s2).
    change ((c + 32) :: s2) with ([c + 32] ++ s2).
    rewrite !toLowerCase_app. f_equal. f_equal.
    unfold toLowerCase. simpl. rewrite !app_nil_r.
    unfold lowerUnit at 1. rewrite Hu.
    symmetry. apply lower_word_lowerUnit.
    apply in_range_spec in Hu. apply is_lower_word_spec. lia.
Qed.

Lemma tokenize_ignores_case_witness :
  tokenize (js "GDP up") = tokenize (js "gDP up").
Proof.
  apply (proj2 tokenize_ignores_case 71 [] (js "DP up")). reflexivity.
Defined.

End TokenizeMore.

(** ** More on the index *)

Module IndexMore.

Import BM25 IndexFacts.

Local Open Scope nat_scope.

Lemma indexedUnder_some docs d :
  In d docs -> exists d', indexedUnder docs (title d) = Some d'.
Proof.
  intros Hin. destruct (indexedUnder docs (title d)) as [d' |] eqn:H;
    [eauto |].
  exfalso. exact (indexedUnder_None docs (title d) H d Hin eq_refl).
Qed.

(** X3. The maps of the index are keyed by title. For a document of the
    collection, [docLengths] and [termFrequencies] hold, under its title,
    the token count and the occurrence counts of the last document of the
    collection with that title (the document itself when titles are
    distinct). A title has an entry in one map exactly when it has one in
    the other, and a title of no document has none. *)
Theorem index_holds_last_document :
  forall (docs : list Document) (c : PartialConfig),
    let s := new docs c in
    (forall d, In d docs ->
       exists d' termFreq,
         In d' docs /\ title d' = title d
         /\ indexedUnder docs (title d) = Some d'
         /\ docLengths s !! title d = Some (length (tokenize (content d')))
         /\ termFrequencies s !! title d = Some termFreq
         /\ (forall term,
               default 0 (termFreq !! term)
               = occurrences term (tokenize (content d')))
         /\ (List.NoDup (List.map title docs) -> d' = d))
    /\ (forall t, is_Some (docLengths s !! t)
                  <-> is_Some (termFrequencies s !! t))
    /\ (forall t, (forall d, In d docs -> title d <> t) ->
          docLengths s !! t = None /\ termFrequencies s !! t = None).
Proof.
  intros docs c s. subst s. split; [| split].
  - intros d Hin. destruct (indexedUnder_some docs d Hin) as [d' Hd'].
    destruct (indexedUnder_In docs _ _ Hd') as [Hin' Ht].
    exists d', (countTerms (tokenize (content d'))).
    rewrite docLengths_new, termFrequencies_new, Hd'.
    repeat split; try assumption; try reflexivity.
    + intros term. apply countTerms_lookup.
    + intros Hnd. rewrite (indexedUnder_NoDup docs d Hnd Hin) in Hd'.
      congruence.
  - intros t. rewrite docLengths_new, termFrequencies_new.
    destruct (indexedUnder docs t); simpl; split; intros [x Hx];
      try discriminate; eauto.
  - intros t Hno. rewrite docLengths_new, termFrequencies_new.
    destruct (indexedUnder docs t) as [d |] eqn:Hd; [| auto].
    destruct (indexedUnder_In docs t d Hd) as [Hin Ht].
    exfalso. exact (Hno d Hin Ht).
Qed.

Lemma index_holds_last_document_witness :
  docLengths (new twinDocs defaultPartial) !! js "Home" = Some 1
  /\ docLengths (new twinDocs defaultPartial) !! js "Away" = None.
Proof.
  destruct (index_holds_last_document twinDocs defaultPartial)
    as (Hin & _ & Hout).
  split.
  - destruct (Hin twinD1) as (d' & tf & _ & _ & Hd' & Hl & _).
    { left. reflexivity. }
    change (title twinD1) with (js "Home") in *.
    assert (Hd : indexedUnder twinDocs (js "Home") = Some twinD2)
      by (vm_compute; reflexivity).
    rewrite Hd in Hd'. injection Hd' as <-. exact Hl.
  - apply (Hout (js "Away")).
    intros d [<- | [<- | []]]; vm_compute; discriminate.
Defined.

Lemma uniqueTerms_NoDup l : List.NoDup (uniqueTerms l).
Proof.
  induction l as [| x r IH]; simpl; constructor.
  - rewrite filter_In. intros [_ H].
    rewrite bool_decide_eq_true_2 in H by reflexivity. discriminate.
  - apply List.NoDup_filter. exact IH.
Qed.

Lemma list_sum_map_add {A} (f g : A -> nat) l :
  list_sum (List.map (fun x => f x + g x) l)
  = list_sum (List.map f l) + list_sum (List.map g l).
Proof. induction l as [| x r IH]; simpl; [reflexivity | lia]. Qed.

Lemma indicator_sum (x : jsstring) ts :
  List.NoDup ts -> In x ts ->
  list_sum (List.map (fun t => if bool_decide (x = t) then 1 else 0) ts) = 1.
Proof.
  induction 1 as [| y r Hy Hr IH]; simpl; [tauto |].
  intros [-> | Hin].
  - rewrite bool_decide_eq_true_2 by reflexivity.
    assert (H0 : list_sum
                   (List.map (fun t => if bool_decide (x = t) then 1 else 0) r)
                 = 0).
    { clear IH Hr. induction r as [| z r IH]; simpl; [reflexivity |].
      rewrite bool_decide_eq_false_2.
      - apply IH. intros H. apply Hy. right. exact H.
      - intros ->. apply Hy. left. reflexivity. }
    rewrite H0. reflexivity.
  - rewrite bool_decide_eq_false_2 by (intros ->; exact (Hy Hin)).
    simpl. apply IH. exact Hin.
Qed.

Lemma occurrences_sum l : forall ts,
  List.NoDup ts -> (forall x, In x l -> In x ts) ->
  list_sum (List.map (fun t => occurrences t l) ts) = length l.
Proof.
  induction l as [| x r IH]; intros ts Hnd Hall.
  - unfold occurrences. simpl. induction ts; simpl; auto.
    apply IHts; [inversion Hnd; assumption | intros ? []].
  - transitivity
      (list_sum
         (List.map
            (fun t => (if bool_decide (x = t) then 1 else 0) + occurrences t r)
            ts)).
    + f_equal. apply map_ext. intros t. unfold occurrences. simpl.
      destruct (bool_decide (x = t)); reflexivity.
    + rewrite list_sum_map_add, indicator_sum, IH; auto.
      * intros y Hy. apply Hall. right. exact Hy.
      * apply Hall. left. reflexivity.
Qed.

(** X4. The term counts of a document add up to its length: summed over the
    distinct tokens of the document, the frequencies [initialize] stores
    give the token count it stores in [docLengths]. *)
Theorem term_counts_add_up :
  forall (docs : list Document) (c : PartialConfig) (d : Document)
         (termFreq : gmap jsstring nat) (docLength : nat),
    termFrequencies (new docs c) !! title d = Some termFreq ->
    docLengths (new docs c) !! title d = Some docLength ->
    exists d',
      indexedUnder docs (title d) = Some d'
      /\ list_sum
           (List.map (fun term => default 0 (termFreq !! term))
                     (uniqueTerms (tokenize (content d'))))
         = docLength.
Proof.
  intros docs c d termFreq docLength.
  rewrite termFrequencies_new, docLengths_new.
  destruct (indexedUnder docs (title d)) as [d' |]; simpl; [| discriminate].
  intros [= <-] [= <-]. exists d'. split; [reflexivity |].
  unfold tokenCount.
  rewrite <- (occurrences_sum (tokenize (content d'))
                (uniqueTerms (tokenize (content d')))
                (uniqueTerms_NoDup _)
                (fun x H => proj2 (uniqueTerms_In x _) H)).
  f_equal. apply map_ext. intros t. apply countTerms_lookup.
Qed.

Lemma term_counts_add_up_witness :
  exists d',
    indexedUnder workedDocs (title workedD1) = Some d'
    /\ list_sum
         (List.map
            (fun term =>
               default 0 (countTerms (tokenize (content workedD1)) !! term))
            (uniqueTerms (tokenize (content d'))))
       = 10.
Proof.
  apply (term_counts_add_up workedDocs defaultPartial workedD1).
  - rewrite termFrequencies_new.
    replace (indexedUnder workedDocs (title workedD1)) with (Some workedD1)
      by (vm_compute; reflexivity).
    reflexivity.
  - rewrite docLengths_new.
    replace (indexedUnder workedDocs (title workedD1)) with (Some workedD1)
      by (vm_compute; reflexivity).
    vm_compute. reflexivity.
Defined.

(** X5. Whatever the collection, [documentCntsHasTerm] holds the number 1
    for every term that occurs in some document and has no entry for any
    other term: the count of a term is set when its first document is
    indexed and written back unchanged for every later one. *)
Theorem documentCnts_one_or_absent :
  forall (docs : list Document) (c : PartialConfig) (term : jsstring),
    ((exists d, In d docs /\ In term (tokenize (content d))) ->
       documentCntsHasTerm (new docs c) !! term = Some 1)
    /\ ((forall d, In d docs -> ~ In term (tokenize (content d))) ->
          documentCntsHasTerm (new docs c) !! term = None).
Proof.
  intros docs c term. rewrite counts_stunted. split.
  - intros [d [Hin Ht]]. rewrite bool_decide_eq_true_2; [reflexivity |].
    apply List.Exists_exists. exists d. split; [exact Hin |].
    apply list_elem_of_In. exact Ht.
  - intros Hno. rewrite bool_decide_eq_false_2; [reflexivity |].
    intros Hex. apply List.Exists_exists in Hex.
    destruct Hex as [d [Hin Ht]]. apply (Hno d Hin).
    apply list_elem_of_In. exact Ht.
Qed.

Lemma documentCnts_one_or_absent_witness :
  documentCntsHasTerm (new twinDocs defaultPartial) !! js "zzz" = Some 1
  /\ documentCntsHasTerm (new twinDocs defaultPartial) !! js "pear" = None.
Proof.
  split.
  - apply (proj1 (documentCnts_one_or_absent twinDocs defaultPartial (js "zzz"))).
    exists twinD1. split; [left; reflexivity | vm_compute; auto].
  - apply (proj2 (documentCnts_one_or_absent twinDocs defaultPartial (js "pear"))).
    intros d [<- | [<- | []]]; vm_compute; intros [H | []]; discriminate H.
Defined.

End IndexMore.

(** ** More on searching *)

Module SearchMore.

Import BM25 IndexFacts ScoreFacts RankFacts SignFacts TokenizeFacts.

Local Open Scope nat_scope.

(** X6. A search changes nothing but the IDF cache, and the cache changes
    no result: after any searches the documents, the hyperparameters, the
    average length and the three maps of the index are those the
    constructor built, every cached value is the IDF of its term, and a
    search returns what it returns on the fresh service. *)
Theorem search_only_fills_cache :
  forall (docs : list Document) (c : PartialConfig)
         (earlier : list (jsstring * number)) (query : jsstring)
         (topK : number),
    let s := afterSearches (new docs c) earlier in
    fst (search s query topK) = fst (search (new docs c) query topK)
    /\ documents s = docs
    /\ config s = fillConfig c
    /\ avgDocLength s = avgDocLength (new docs c)
    /\ docLengths s = docLengths (new docs c)
    /\ termFrequencies s = termFrequencies (new docs c)
    /\ documentCntsHasTerm s = documentCntsHasTerm (new docs c)
    /\ (forall term v,
          idfCache s !! term = Some v ->
          v = idfValue (length docs)
                (default 0 (documentCntsHasTerm (new docs c) !! term))).
Proof.
  intros docs c earlier query topK s.
  destruct (afterSearches_ok earlier (new docs c) (cacheOk_new docs c))
    as [Hok [c' Hs]].
  fold s in Hok, Hs. split.
  - subst s. rewrite search_new. symmetry.
    apply (search_new docs c [] query topK).
  - rewrite Hs. repeat split. intros term v Hv.
    rewrite <- Hs in Hv. rewrite (Hok term v Hv). rewrite Hs. reflexivity.
Qed.

Lemma filter_none (l : list Result) :
  (forall r, In r l -> positive r = false) -> List.filter positive l = [].
Proof.
  induction l as [| a r IH]; simpl; intros H; [reflexivity |].
  rewrite (H a) by (left; reflexivity). apply IH.
  intros x Hx. apply H. right. exact Hx.
Qed.

Lemma ranked_no_terms s query topK :
  tokenize query = [] -> ranked s query topK = [].
Proof.
  intros Hq. unfold ranked. apply filter_none. intros r Hr.
  apply In_firstn in Hr.
  apply (Permutation_in _ (sortByScore_perm _)) in Hr.
  apply in_map_iff in Hr. destruct Hr as [d [<- _]].
  apply Rltb_false. unfold resultOf, scoreOf. simpl. rewrite Hq.
  destruct (termFrequencies s !! title d); simpl; lra.
Qed.

Lemma is_space_spec c :
  is_space c = true <->
  (9 <= c <= 13 \/ c = 32 \/ c = 160 \/ c = 5760 \/ 8192 <= c <= 8202
   \/ c = 8232 \/ c = 8233 \/ c = 8239 \/ c = 8287 \/ c = 12288
   \/ c = 65279)%N.
Proof.
  unfold is_space. rewrite !orb_true_iff, !in_range_spec, !N.eqb_eq. tauto.
Qed.

Lemma space_lowerUnit c : is_space c = true -> lowerUnit c = [c].
Proof.
  rewrite is_space_spec. intros H. unfold lowerUnit, is_upper, in_range.
  repeat (destruct H as [H | H]; [cases_N; reflexivity |]).
  cases_N; reflexivity.
Qed.

Lemma no_word_separator c :
  is_hangul c = true \/ is_space c = true ->
  Forall (fun u => is_lower_word u = false) (lowerUnit c).
Proof.
  intros [H | H]; [apply hangul_separator; exact H |].
  rewrite (space_lowerUnit c H). constructor; [| constructor].
  destruct (is_lower_word c) eqn:Hl; [| reflexivity].
  rewrite (TokenizeMore.lower_word_not_space c Hl) in H. discriminate.
Qed.

(** X7. The empty cases of [search]. A query without a token returns
    nothing, whatever the collection; such is every query made of Hangul
    and white space only. Nothing is returned either from the empty
    collection, or for [topK = 0] and every other [topK] at which
    [slice(0, topK)] keeps no element. *)
Theorem search_returns_nothing :
  forall (docs : list Document) (c : PartialConfig)
         (earlier : list (jsstring * number)) (query : jsstring)
         (topK : number),
    let s := afterSearches (new docs c) earlier in
    (tokenize query = [] -> fst (search s query topK) = [])
    /\ (Forall (fun u => is_hangul u = true \/ is_space u = true) query ->
          fst (search s query topK) = [])
    /\ (docs = [] -> fst (search s query topK) = [])
    /\ (sliceEnd (length docs) topK = 0 -> fst (search s query topK) = [])
    /\ fst (search s query (ofNat 0)) = [].
Proof.
  intros docs c earlier query topK s. subst s. rewrite !search_new.
  split; [| split; [| split; [| split]]].
  - apply ranked_no_terms.
  - intros H. apply ranked_no_terms. apply tokenize_all_separators.
    rewrite List.Forall_forall in *. intros u Hu.
    apply no_word_separator, H, Hu.
  - intros ->. unfold ranked.
    change (documents (new [] c)) with (@nil Document).
    cbn [List.map sortByScore]. rewrite firstn_nil. reflexivity.
  - intros ->. reflexivity.
  - rewrite sliceEnd_ofNat. reflexivity.
Qed.

Lemma search_returns_nothing_witness :
  fst (search (new workedDocs defaultPartial) [49324; 44284; 32; 44032; 44201]%N
         defaultTopK) = []
  /\ fst (search (new workedDocs defaultPartial) workedQuery (ofNat 0)) = []
  /\ fst (search (new workedDocs defaultPartial) workedQuery NaN) = [].
Proof.
  destruct (search_returns_nothing workedDocs defaultPartial []
              [49324; 44284; 32; 44032; 44201]%N defaultTopK) as (_ & H & _).
  destruct (search_returns_nothing workedDocs defaultPartial []
              workedQuery NaN) as (_ & _ & _ & H0 & Hzero).
  split; [| split; [exact Hzero | exact (H0 eq_refl)]].
  apply H. repeat (apply List.Forall_cons; [vm_compute; auto |]).
  apply List.Forall_nil.
Defined.

(** X8. With room for every document ([slice(0, topK)] keeps the whole
    list, as it does for every natural [topK] at least the size of the
    collection), distinct titles, [k1 >= 0] and [0 <= b <= 1], [search]
    returns exactly the documents that share a token with the query: each
    of them, and no other. *)
Theorem search_returns_all_matches :
  forall (docs : list Document) (c : PartialConfig)
         (earlier : list (jsstring * number)) (query : jsstring)
         (topK : number),
    (0 <= k1 (fillConfig c))%R ->
    (0 <= b (fillConfig c) <= 1)%R ->
    List.NoDup (List.map title docs) ->
    (sliceEnd (length docs) topK = length docs
     \/ exists n : nat, topK = ofNat n /\ length docs <= n) ->
    forall d : Document,
      (exists r, In r (fst (search (afterSearches (new docs c) earlier)
                              query topK))
                 /\ document r = d)
      <-> (In d docs
           /\ exists term, In term (tokenize query)
                           /\ In term (tokenize (content d))).
Proof.
  intros docs c earlier query topK Hk Hb Hnd Hroom d.
  assert (Hlen : length docs <= sliceEnd (length docs) topK).
  { destruct Hroom as [-> | [n [-> Hn]]]; [lia |].
    rewrite sliceEnd_ofNat. lia. }
  rewrite search_new. split.
  - intros [r [Hr <-]]. apply ranked_In in Hr.
    destruct Hr as [Hpos [d [Hd ->]]]. simpl in *.
    split; [exact Hd |].
    destruct (scoreOf_pos_shares docs c _ _ Hpos) as [d' [term [Hi [Hq Ht]]]].
    rewrite (indexedUnder_NoDup docs d Hnd Hd) in Hi. injection Hi as <-.
    eauto.
  - intros [Hd [term [Hq Ht]]].
    exists (resultOf (new docs c) (tokenize query) d).
    split; [| reflexivity].
    apply ranked_complete; [exact Hd | exact Hlen |].
    apply (scoreOf_shares_pos docs c _ _ d term Hk Hb); try assumption.
    apply indexedUnder_NoDup; assumption.
Qed.

Lemma search_returns_all_matches_witness :
  exists r,
    In r (fst (search (new workedDocs defaultPartial) workedQuery defaultTopK))
    /\ document r = workedD2.
Proof.
  apply (search_returns_all_matches workedDocs defaultPartial [] workedQuery
           defaultTopK).
  - simpl. lra.
  - simpl. lra.
  - repeat constructor; vm_compute; intros H;
      repeat (destruct H as [H | H]; [discriminate H |]); exact H.
  - right. exists 7. split; [reflexivity | simpl; lia].
  - split; [right; left; reflexivity |].
    exists (js "apple"). split; vm_compute; auto.
Defined.

Lemma norm_nonneg k1 b docLength avg :
  (0 <= k1)%R -> (0 <= b <= 1)%R -> (0 < avg)%R ->
  (0 <= k1 * (1 - b + b * (INR docLength / avg)))%R.
Proof.
  intros Hk Hb Havg. pose proof (pos_INR docLength) as Hdl.
  assert (Hq : (0 <= INR docLength / avg)%R).
  { unfold Rdiv. apply Rmult_le_pos; [exact Hdl |].
    left. apply Rinv_0_lt_compat. exact Havg. }
  assert (Hn : (0 <= b * (INR docLength / avg))%R)
    by (apply Rmult_le_pos; lra).
  apply Rmult_le_pos; lra.
Qed.

Lemma ratio_le (x1 x2 K1 K2 m : R) :
  (0 < x1 <= x2)%R -> (0 <= K2 <= K1)%R -> (0 <= m)%R ->
  (x1 * m / (x1 + K1) <= x2 * m / (x2 + K2))%R.
Proof.
  intros Hx HK Hm.
  apply (Rmult_le_reg_r ((x1 + K1) * (x2 + K2))).
  - apply Rmult_lt_0_compat; lra.
  - replace (x1 * m / (x1 + K1) * ((x1 + K1) * (x2 + K2)))%R
      with (x1 * m * (x2 + K2))%R by (field; lra).
    replace (x2 * m / (x2 + K2) * ((x1 + K1) * (x2 + K2)))%R
      with (x2 * m * (x1 + K1))%R by (field; lra).
    assert (H1 : (0 <= m * (x2 * K1 - x1 * K2))%R).
    { apply Rmult_le_pos; [exact Hm |].
      assert ((x1 * K2 <= x2 * K1)%R); [| lra].
      apply Rmult_le_compat; lra. }
    lra.
Qed.

(** X9. The factor [tf*(k1+1) / (tf + k1*(1 - b + b*(docLen/avgDocLen)))]
    of a score, for [k1 >= 0], [0 <= b <= 1] and a positive average
    length: it grows with the term frequency, falls with the document
    length, and never exceeds [k1 + 1]. *)
Theorem saturation_monotone_bounded :
  forall (k1 b avg : R) (tf tf' docLength docLength' : nat),
    (0 <= k1)%R -> (0 <= b <= 1)%R -> (0 < avg)%R ->
    0 < tf -> tf <= tf' -> docLength <= docLength' ->
    (saturation k1 b tf docLength avg <= saturation k1 b tf' docLength avg)%R
    /\ (saturation k1 b tf docLength' avg <= saturation k1 b tf docLength avg)%R
    /\ (saturation k1 b tf docLength avg <= k1 + 1)%R.
Proof.
  intros k1 b avg tf tf' dl dl' Hk Hb Havg Htf Htf' Hdl.
  pose proof (norm_nonneg k1 b dl avg Hk Hb Havg) as HK.
  pose proof (norm_nonneg k1 b dl' avg Hk Hb Havg) as HK'.
  assert (Hx : (0 < INR tf <= INR tf')%R).
  { split; [apply lt_0_INR; exact Htf | apply le_INR; exact Htf']. }
  assert (HKK : (k1 * (1 - b + b * (INR dl / avg))
                 <= k1 * (1 - b + b * (INR dl' / avg)))%R).
  { apply Rmult_le_compat_l; [exact Hk |].
    apply Rplus_le_compat_l. apply Rmult_le_compat_l; [lra |].
    unfold Rdiv. apply Rmult_le_compat_r.
    - left. apply Rinv_0_lt_compat. exact Havg.
    - apply le_INR. exact Hdl. }
  unfold saturation.
  set (K := (k1 * (1 - b + b * (INR dl / avg)))%R) in *.
  set (K' := (k1 * (1 - b + b * (INR dl' / avg)))%R) in *.
  split; [| split].
  - apply ratio_le; lra.
  - apply ratio_le; lra.
  - apply (Rmult_le_reg_r (INR tf + K)); [lra |].
    replace (INR tf * (k1 + 1) / (INR tf + K) * (INR tf + K))%R
      with (INR tf * (k1 + 1))%R by (field; lra).
    assert (H : (0 <= (k1 + 1) * K)%R) by (apply Rmult_le_pos; lra).
    lra.
Qed.

Lemma saturation_monotone_bounded_witness :
  (saturation 1.5 0.75 1 5 7.5 <= saturation 1.5 0.75 3 5 7.5)%R
  /\ (saturation 1.5 0.75 1 10 7.5 <= saturation 1.5 0.75 1 5 7.5)%R
  /\ (saturation 1.5 0.75 1 5 7.5 <= 1.5 + 1)%R.
Proof.
  apply (saturation_monotone_bounded 1.5 0.75 7.5 1 3 5 10); try lra; lia.
Defined.

End SearchMore.

(** ** More on the crawler *)

Module CrawlingMore.

Import Crawling CrawlingClaims.

Local Open Scope nat_scope.

Lemma eventsOf_same {A} (c : M World A) w (r : Outcome A) :
  c w = (r, w) -> eventsOf c w = [].
Proof. intros H. unfold eventsOf. rewrite H. apply skipn_all. Qed.

(** X10. A robots.txt that is fetched and read decides for its whole
    origin: [isUrlAllowed] returns what the parser says for the target URL
    ([true] when the parser has no answer), stores it under the origin's
    robots.txt URL, and every later call for a URL of that origin returns
    the stored decision, with no fetch and without asking the parser about
    the new URL. *)
Theorem robots_decision_is_per_origin :
  forall (net : Net) (w : World) (targetUrl userAgent origin : jsstring)
         (response : Response) (robotsTxt : jsstring),
    net_origin net targetUrl = Some origin ->
    robotsCache w !! robotsUrlOf origin = None ->
    net_fetch net (robotsUrlOf origin) = Returned response ->
    resp_ok response = true ->
    resp_text response = Returned robotsTxt ->
    let robotsUrl := robotsUrlOf origin in
    let decision :=
      default true (net_robots net robotsUrl robotsTxt targetUrl userAgent) in
    let w' := cached robotsUrl decision (fetched robotsUrl w) in
    isUrlAllowed net targetUrl userAgent w = (Returned decision, w')
    /\ forall net' targetUrl' userAgent',
         net_origin net' targetUrl' = Some origin ->
         isUrlAllowed net' targetUrl' userAgent' w' = (Returned decision, w').
Proof.
  intros net w targetUrl userAgent origin response robotsTxt
         Ho Hmiss Hfetch Hok Htext robotsUrl decision w'.
  split.
  - rewrite (isUrlAllowed_miss _ _ _ _ _ Ho Hmiss). cbn zeta.
    rewrite Hfetch, Hok, Htext. reflexivity.
  - intros net' targetUrl' userAgent' Ho'.
    apply (isUrlAllowed_hit _ _ _ _ origin); [exact Ho' |].
    apply lookup_insert_eq.
Qed.

Lemma robots_decision_is_per_origin_witness :
  let net :=
    exampleNet (Returned {| resp_ok := true; resp_status := 200;
                            resp_text := Returned (js "User-agent: *") |}) in
  let url := js "https://example.com/page" in
  fst (isUrlAllowed net url USER_AGENT emptyWorld) = Returned true
  /\ isUrlAllowed net url USER_AGENT
       (snd (isUrlAllowed net url USER_AGENT emptyWorld))
     = (Returned true, snd (isUrlAllowed net url USER_AGENT emptyWorld)).
Proof.
  intros net url.
  destruct (robots_decision_is_per_origin net emptyWorld url USER_AGENT
              (js "https://example.com")
              {| resp_ok := true; resp_status := 200;
                 resp_text := Returned (js "User-agent: *") |}
              (js "User-agent: *")) as [H1 H2];
    try reflexivity.
  rewrite H1. split; [reflexivity |].
  apply (H2 net url USER_AGENT). reflexivity.
Defined.

(** X11. What one call of [isUrlAllowed] does to the outside. It fetches
    at most once, and only the robots.txt of the target's origin, never
    the target itself; it writes to the cache at most once, under that
    URL, after the fetch, and only when the URL had no entry. The value
    it writes is the value it returns, and a call that fetched and wrote
    nothing returns [false]. *)
Theorem isUrlAllowed_effects :
  forall (net : Net) (targetUrl userAgent : jsstring) (w : World),
    let result := fst (isUrlAllowed net targetUrl userAgent w) in
    let events := eventsOf (isUrlAllowed net targetUrl userAgent) w in
    events = []
    \/ exists origin,
         net_origin net targetUrl = Some origin
         /\ robotsCache w !! robotsUrlOf origin = None
         /\ ((events = [EvFetch (robotsUrlOf origin)]
              /\ result = Returned false)
             \/ exists v,
                  events = [EvFetch (robotsUrlOf origin);
                            EvCacheSet (robotsUrlOf origin) v]
                  /\ result = Returned v).
Proof.
  intros net targetUrl userAgent w result events. subst result events.
  destruct (net_origin net targetUrl) as [origin |] eqn:Ho.
  - destruct (robotsCache w !! robotsUrlOf origin) as [v |] eqn:Hc.
    + left. pose proof (isUrlAllowed_hit _ _ userAgent _ _ _ Ho Hc) as H.
      apply (eventsOf_same _ _ _ H).
    + right. exists origin. split; [reflexivity |]. split; [exact Hc |].
      pose proof (isUrlAllowed_miss _ _ userAgent _ _ Ho Hc) as H.
      cbn zeta in H. unfold onError in H.
      assert (Hquiet :
                isUrlAllowed net targetUrl userAgent w
                = (Returned false, fetched (robotsUrlOf origin) w) ->
                eventsOf (isUrlAllowed net targetUrl userAgent) w
                = [EvFetch (robotsUrlOf origin)]
                /\ fst (isUrlAllowed net targetUrl userAgent w)
                   = Returned false).
      { intros Hr. split; [| rewrite Hr; reflexivity].
        apply (eventsOf_fetched _ w _ (Returned false) [] (robotsCache w)).
        rewrite Hr, app_nil_r. reflexivity. }
      assert (Hset : forall v,
                isUrlAllowed net targetUrl userAgent w
                = (Returned v, cached (robotsUrlOf origin) v
                                 (fetched (robotsUrlOf origin) w)) ->
                eventsOf (isUrlAllowed net targetUrl userAgent) w
                = [EvFetch (robotsUrlOf origin);
                   EvCacheSet (robotsUrlOf origin) v]
                /\ fst (isUrlAllowed net targetUrl userAgent w)
                   = Returned v).
      { intros v Hr. split; [| rewrite Hr; reflexivity].
        apply (eventsOf_fetched _ w _ (Returned v)
                 [EvCacheSet (robotsUrlOf origin) v]
                 (<[robotsUrlOf origin := v]> (robotsCache w))).
        exact Hr. }
      destruct (net_fetch net (robotsUrlOf origin)) as [response | e].
      * destruct (resp_ok response); [| right; eauto].
        destruct (resp_text response) as [txt | e]; [right; eauto |].
        destruct (isAbortError e); [left; auto | right; eauto].
      * destruct (isAbortError e); [left; auto | right; eauto].
  - left. pose proof (isUrlAllowed_invalid _ _ userAgent w Ho) as H.
    apply (eventsOf_same _ _ _ H).
Qed.

(** X12. [crawlWebsite] asks the robots policy first and keeps what that
    call did to the cache. Unless the answer is [true] it returns [null]
    without requesting the page; when the answer is [true] it requests
    the page once and returns its extracted content exactly when the
    response is ok and its body can be read, and [null] otherwise. *)
Theorem crawlWebsite_outcomes :
  forall (net : Net) (r : SearchResult) (w : World),
    let asked := isUrlAllowed net (sr_url r) USER_AGENT w in
    (fst asked <> Returned true ->
       crawlWebsite net r w = (Returned None, snd asked))
    /\ (fst asked = Returned true ->
          crawlWebsite net r w
          = (Returned (pageResult net r), fetched (sr_url r) (snd asked))).
Proof.
  intros net r w asked. subst asked.
  unfold crawlWebsite, try_catch, fetchWithTimeout, bind, modify, await, ret,
    pageResult.
  destruct (isUrlAllowed net (sr_url r) USER_AGENT w) as [[[|] | e] w1];
    cbn [fst snd negb]; split; intros H;
    try congruence; try reflexivity.
  destruct (net_fetch net (sr_url r)) as [response | e]; [| reflexivity].
  destruct (resp_ok response); cbn [negb]; [| reflexivity].
  destruct (resp_text response); reflexivity.
Qed.

Lemma crawlWebsite_outcomes_witness :
  crawlWebsite (exampleNet (Threw timeoutError))
    {| sr_title := js "t"; sr_url := js "https://example.com/page";
       sr_description := js "d" |} emptyWorld
  = (Returned None,
     fetched (js "https://example.com/robots.txt") emptyWorld).
Proof.
  apply (proj1 (crawlWebsite_outcomes (exampleNet (Threw timeoutError))
                  {| sr_title := js "t"; sr_url := js "https://example.com/page";
                     sr_description := js "d" |} emptyWorld)).
  vm_compute. discriminate.
Defined.

End CrawlingMore.

(** ** Content extraction *)

Module ContentFacts.

Import Crawling Content.

Local Open Scope nat_scope.

Lemma collapse_spaced s : forall skip,
  spaced (collapse skip s) = true
  /\ (skip = true -> startsWithSpace (collapse skip s) = false).
Proof.
  induction s as [| c r IH]; intros skip; simpl; [auto |].
  destruct (is_space c) eqn:Hc.
  - destruct skip.
    + apply IH.
    + destruct (IH true) as [H1 H2]. simpl.
      rewrite H1, (H2 eq_refl). split; [reflexivity | discriminate].
  - destruct (IH false) as [H1 _]. simpl. rewrite Hc, H1. auto.
Qed.

Lemma trimStart_suffix s : exists pre, s = pre ++ trimStart s.
Proof.
  induction s as [| c r [pre IH]]; simpl; [exists []; reflexivity |].
  destruct (is_space c).
  - exists (c :: pre). simpl. f_equal. exact IH.
  - exists []. reflexivity.
Qed.

Lemma trimStart_starts s : startsWithSpace (trimStart s) = false.
Proof.
  induction s as [| c r IH]; simpl; [reflexivity |].
  destruct (is_space c) eqn:Hc; [exact IH | simpl; exact Hc].
Qed.

Lemma trimStart_id s : startsWithSpace s = false -> trimStart s = s.
Proof. destruct s as [| c r]; simpl; [auto | intros ->; reflexivity]. Qed.

Lemma spaced_suffix pre s : spaced (pre ++ s) = true -> spaced s = true.
Proof.
  induction pre as [| c r IH]; simpl; [auto |].
  intros H. apply andb_true_iff in H. apply IH, H.
Qed.

Lemma ends_of_suffix pre s :
  s <> [] -> startsWithSpace (rev (pre ++ s)) = startsWithSpace (rev s).
Proof.
  intros Hs. rewrite rev_app_distr.
  destruct (rev s) eqn:Hr; [| reflexivity].
  exfalso. apply Hs. rewrite <- (rev_involutive s), Hr. reflexivity.
Qed.

Lemma spaced_snoc l c :
  spaced (l ++ [c])
  = spaced l
    && (if is_space c
        then (c =? 32)%N && negb (startsWithSpace (rev l)) else true).
Proof.
  induction l as [| d r IH].
  - simpl. destruct (is_space c); simpl; rewrite ?andb_true_r; reflexivity.
  - destruct r as [| e r'].
    + simpl. destruct (is_space d), (is_space c), (d =? 32)%N, (c =? 32)%N;
        reflexivity.
    + change (spaced ((d :: e :: r') ++ [c]))
        with ((if is_space d
               then (d =? 32)%N && negb (startsWithSpace (e :: r'))
               else true)
              && spaced ((e :: r') ++ [c])).
      change (spaced (d :: e :: r'))
        with ((if is_space d
               then (d =? 32)%N && negb (startsWithSpace (e :: r'))
               else true)
              && spaced (e :: r')).
      rewrite IH.
      change (d :: e :: r') with ([d] ++ e :: r').
      rewrite (ends_of_suffix [d] (e :: r')) by discriminate.
      apply andb_assoc.
Qed.

Lemma spaced_rev s : spaced (rev s) = spaced s.
Proof.
  induction s as [| c r IH]; simpl; [reflexivity |].
  rewrite spaced_snoc, IH, rev_involutive.
  destruct (is_space c), (spaced r); simpl;
    rewrite ?andb_true_r, ?andb_false_r; reflexivity.
Qed.

Lemma spaced_trimStart s : spaced s = true -> spaced (trimStart s) = true.
Proof.
  intros H. destruct (trimStart_suffix s) as [pre Hs].
  rewrite Hs in H. eapply spaced_suffix. exact H.
Qed.

Lemma trim_normalForm s : spaced s = true -> normalForm (trim s) = true.
Proof.
  intros Hs. unfold normalForm, trim.
  set (t := trimStart s). set (y := rev t). set (z := trimStart y).
  assert (Hz : spaced z = true).
  { subst z y t. apply spaced_trimStart. rewrite spaced_rev.
    apply spaced_trimStart. exact Hs. }
  rewrite spaced_rev, Hz, rev_involutive.
  assert (Hend : startsWithSpace z = false) by apply trimStart_starts.
  rewrite Hend. simpl. rewrite andb_true_r.
  destruct z as [| c z'] eqn:Hzz; [reflexivity |].
  destruct (trimStart_suffix y) as [pre Hy]. fold z in Hy. rewrite Hzz in Hy.
  rewrite <- (ends_of_suffix pre (c :: z')) by discriminate.
  rewrite <- Hy. subst y. rewrite rev_involutive. subst t.
  rewrite trimStart_starts. reflexivity.
Qed.

Lemma normalize_normalForm s : normalForm (normalize s) = true.
Proof. apply trim_normalForm, collapse_spaced. Qed.

Lemma collapse_id s : forall skip,
  spaced s = true -> (skip = true -> startsWithSpace s = false) ->
  collapse skip s = s.
Proof.
  induction s as [| c r IH]; intros skip Hs Hskip; simpl; [reflexivity |].
  simpl in Hs. apply andb_true_iff in Hs. destruct Hs as [Hc Hr].
  destruct (is_space c) eqn:Hsp.
  - destruct skip; [specialize (Hskip eq_refl); simpl in Hskip; congruence |].
    apply andb_true_iff in Hc. destruct Hc as [H32 Hnext].
    apply N.eqb_eq in H32. subst c. f_equal.
    apply IH; [exact Hr |]. intros _.
    destruct (startsWithSpace r); [discriminate Hnext | reflexivity].
  - f_equal. apply IH; [exact Hr | discriminate].
Qed.

Lemma normalize_id s : normalForm s = true -> normalize s = s.
Proof.
  unfold normalForm, normalize, trim. intros H.
  apply andb_true_iff in H. destruct H as [H Hend].
  apply andb_true_iff in H. destruct H as [Hs Hstart].
  apply negb_true_iff in Hend. apply negb_true_iff in Hstart.
  rewrite (collapse_id s false Hs) by discriminate.
  rewrite (trimStart_id s Hstart), (trimStart_id (rev s) Hend).
  apply rev_involutive.
Qed.

(** X13. The text [extractContent] keeps of an element is in normal form:
    its white space is single U+0020 spaces between other code units, with
    none at either end. A text in that form is left as it is, so that
    normalizing twice is normalizing once. *)
Theorem normalize_normal_form :
  forall s : jsstring,
    normalForm (normalize s) = true
    /\ normalize (normalize s) = normalize s
    /\ (normalForm s = true -> normalize s = s).
Proof.
  intros s. split; [apply normalize_normalForm |]. split.
  - apply normalize_id, normalize_normalForm.
  - apply normalize_id.
Qed.

Lemma normalize_normal_form_witness :
  normalize (js "price of bread") = js "price of bread".
Proof.
  apply (proj2 (proj2 (normalize_normal_form (js "price of bread")))).
  reflexivity.
Defined.

Lemma setAdd_In x y textSet :
  In x (setAdd y textSet) <-> x = y \/ In x textSet.
Proof.
  unfold setAdd. case_bool_decide as Hy.
  - split; [auto | intros [-> | H]; [apply list_elem_of_In; exact Hy | exact H]].
  - rewrite in_app_iff. simpl. split.
    + intros [H | [<- | []]]; auto.
    + intros [-> | H]; auto.
Qed.

Lemma setAdd_NoDup y textSet :
  List.NoDup textSet -> List.NoDup (setAdd y textSet).
Proof.
  intros H. unfold setAdd. case_bool_decide as Hy; [exact H |].
  apply (Permutation.Permutation_NoDup
           (Permutation.Permutation_cons_append textSet y)).
  constructor; [| exact H].
  intros Hin. apply Hy. apply list_elem_of_In. exact Hin.
Qed.

Lemma visit_In x textSet e :
  In x (visit textSet e)
  <-> In x textSet \/ (kept e = true /\ x = normalize (el_text e)).
Proof.
  unfold visit, kept. cbv zeta. destruct (el_nested e); cbn [negb andb].
  - split; [auto | intros [H | [H _]]; [exact H | discriminate]].
  - destruct (Nat.leb MIN_TEXT_LENGTH (length (normalize (el_text e)))).
    + rewrite setAdd_In. split; intros [H | H]; auto. destruct H; auto.
    + split; [auto | intros [H | [H _]]; [exact H | discriminate]].
Qed.

Lemma visit_NoDup textSet e :
  List.NoDup textSet -> List.NoDup (visit textSet e).
Proof.
  intros H. unfold visit. cbv zeta. destruct (el_nested e); [exact H |].
  destruct (Nat.leb _ _); [apply setAdd_NoDup; exact H | exact H].
Qed.

Lemma visits_In elements : forall textSet x,
  In x (List.fold_left visit elements textSet)
  <-> In x textSet
      \/ exists e, In e elements /\ kept e = true
                   /\ x = normalize (el_text e).
Proof.
  induction elements as [| e r IH]; intros textSet x; simpl.
  - split; [auto | intros [H | [e [[] _]]]; exact H].
  - rewrite IH, visit_In. split.
    + intros [[H | [Hk Hx]] | [e' [Hin H]]]; eauto 6.
    + intros [H | [e' [[<- | Hin] [Hk Hx]]]]; eauto 6.
Qed.

Lemma visits_NoDup elements : forall textSet,
  List.NoDup textSet -> List.NoDup (List.fold_left visit elements textSet).
Proof.
  induction elements as [| e r IH]; intros textSet H; simpl; [exact H |].
  apply IH, visit_NoDup, H.
Qed.

(** X14. What [extractContent] returns: the title it was given, and texts
    without repetition. A text is returned exactly when it is the
    normalized text of a selected element that has no selected element
    inside it and whose normalized text has at least 30 code units; each
    returned text is therefore at least 30 code units long and in normal
    form. *)
Theorem extractContent_texts :
  forall (elements : list Element) (title : jsstring),
    let result := extractContent elements title in
    cr_title result = title
    /\ List.NoDup (cr_texts result)
    /\ (forall text,
          In text (cr_texts result)
          <-> exists e, In e elements /\ el_nested e = false
                        /\ MIN_TEXT_LENGTH <= length (normalize (el_text e))
                        /\ text = normalize (el_text e))
    /\ (forall text, In text (cr_texts result) ->
          MIN_TEXT_LENGTH <= length text /\ normalForm text = true).
Proof.
  intros elements title result.
  assert (Hin : forall text,
            In text (cr_texts result)
            <-> exists e, In e elements /\ el_nested e = false
                          /\ MIN_TEXT_LENGTH <= length (normalize (el_text e))
                          /\ text = normalize (el_text e)).
  { intros text. subst result. simpl. rewrite visits_In. split.
    - intros [[] | [e [He [Hk Hx]]]]. exists e. unfold kept in Hk.
      apply andb_true_iff in Hk. destruct Hk as [Hn Hl].
      apply negb_true_iff in Hn. apply Nat.leb_le in Hl. auto.
    - intros [e [He [Hn [Hl Hx]]]]. right. exists e.
      split; [exact He |]. split; [| exact Hx].
      unfold kept. rewrite Hn. cbn [negb andb]. apply Nat.leb_le. exact Hl. }
  split; [reflexivity |]. split; [| split; [exact Hin |]].
  - apply visits_NoDup. constructor.
  - intros text Ht. apply Hin in Ht. destruct Ht as [e [_ [_ [Hl ->]]]].
    split; [exact Hl | apply normalize_normalForm].
Qed.

End ContentFacts.

(** ** More on the orchestrator *)

Module BatchMore.

Import BM25 Crawling Batch BatchClaims.

Local Open Scope Z_scope.

Lemma addCalls_nil w : addCalls [] w = w.
Proof. unfold addCalls. rewrite app_nil_r. destruct w; reflexivity. Qed.

Lemma allOutcomes_returned {A B} (f : A -> B) l :
  allOutcomes (List.map (fun a => Returned (f a)) l) = Returned (List.map f l).
Proof.
  induction l as [| a r IH]; simpl; [reflexivity |]. rewrite IH. reflexivity.
Qed.

Lemma allOutcomes_length {A} (l : list (Outcome A)) : forall xs,
  allOutcomes l = Returned xs -> length xs = length l.
Proof.
  induction l as [| [x | e] r IH]; simpl; intros xs H.
  - injection H as <-. reflexivity.
  - destruct (allOutcomes r) as [ys | e]; [| discriminate].
    injection H as <-. simpl. f_equal. apply IH. reflexivity.
  - discriminate.
Qed.

Lemma getKeywordPublishedDate_run k w :
  getKeywordPublishedDate k w
  = (publishedDateOf (store w) k, addCalls [PublishedDateFind k] w).
Proof.
  unfold getKeywordPublishedDate, publishedDateOf, call, getStore.
  unfold bind, modify, get, ret, throw. cbn [store addCalls].
  destruct (keywords (store w) !! k) as [kw |]; [| reflexivity].
  destruct (kw_TodaysKeyword kw); reflexivity.
Qed.

Lemma generateRelatedData_run sv info w :
  generateRelatedData sv info w
  = let query := generateQuery info in
    match svc_search sv query with
    | Threw e => (Threw e, addCalls [SearchByKeyword query] w)
    | Returned results =>
        (Returned (relatedDataOf sv query results),
         addCalls (SearchByKeyword query
                     :: List.map CrawlWebsite results
                     ++ [Rank (validDocsOf (List.map (svc_crawl sv) results))
                              query])
                  w)
    end.
Proof.
  unfold generateRelatedData. cbn zeta. unfold bind at 1.
  unfold call at 1, modify. unfold bind at 1. unfold await at 1.
  destruct (svc_search sv (generateQuery info)) as [results | e];
    [| reflexivity].
  unfold bind at 1.
  rewrite (promiseAll_calls _ CrawlWebsite
             (fun r => Returned (svc_crawl sv r)))
    by (intros a w0; reflexivity).
  rewrite allOutcomes_returned, addCalls_addCalls.
  unfold bind, call, modify, ret. rewrite addCalls_addCalls.
  reflexivity.
Qed.

Lemma createPrompts_run sv info w :
  createPrompts sv info w
  = let query := generateQuery info in
    match svc_search sv query with
    | Threw e => (Threw e, addCalls [SearchByKeyword query] w)
    | Returned results =>
        (Returned (promptsOf info (relatedDataOf sv query results)),
         addCalls (SearchByKeyword query
                     :: List.map CrawlWebsite results
                     ++ [Rank (validDocsOf (List.map (svc_crawl sv) results))
                              query])
                  w)
    end.
Proof.
  unfold createPrompts, bind. rewrite generateRelatedData_run. cbn zeta.
  destruct (svc_search sv (generateQuery info)); reflexivity.
Qed.

Lemma persistArticles_nil w : persistArticles [] w = w.
Proof.
  unfold persistArticles. simpl. rewrite !app_nil_r, Z.add_0_r.
  destruct w as [[kws arts qs next] cs]. reflexivity.
Qed.

Lemma persistArticles_app rows1 rows2 w :
  persistArticles rows2 (persistArticles rows1 w)
  = persistArticles (rows1 ++ rows2) w.
Proof.
  unfold persistArticles. simpl.
  rewrite map_app, !app_assoc, length_app, Nat2Z.inj_add, Z.add_assoc.
  reflexivity.
Qed.

Lemma forCollect_articleCreate dateAt k l : forall w,
  forCollect
    (fun '(idx, (tc, summary)) => articleCreate tc summary (dateAt idx) k) l w
  = (Returned (newArticlesAt (nextArticleId (store w)) dateAt k l),
     persistArticles (newArticlesAt (nextArticleId (store w)) dateAt k l) w).
Proof.
  induction l as [| [idx [tc summary]] r IH]; intros w.
  - simpl. rewrite persistArticles_nil. reflexivity.
  - cbn [forCollect newArticlesAt]. unfold bind at 1.
    set (a := {| art_id := nextArticleId (store w); art_title := tc_title tc;
                 art_content := tc_content tc; art_summary := summary;
                 art_publishedAt := dateAt idx; art_keywordId := k |}).
    change (articleCreate tc summary (dateAt idx) k w)
      with (Returned a, persistArticles [a] w).
    cbv beta iota. unfold bind at 1. rewrite IH.
    change (nextArticleId (store (persistArticles [a] w)))
      with (nextArticleId (store w) + 1).
    rewrite persistArticles_app. reflexivity.
Qed.

(** With one date for every index the rows are those of [newArticles]. *)
Lemma newArticlesAt_const date k l : forall next idx,
  newArticlesAt next (fun _ => date) k (indexed idx l)
  = newArticles next date k l.
Proof.
  induction l as [| [tc summary] r IH]; intros next idx; simpl;
    [reflexivity | rewrite IH; reflexivity].
Qed.

Lemma generateArticles_run sv (publishedAt : M World (nat -> Date))
    (dateOf : Store -> Outcome (nat -> Date)) dcalls k prompts w :
  (forall w0, publishedAt w0 = (dateOf (store w0), addCalls dcalls w0)) ->
  generateArticles sv publishedAt k prompts w
  = let c1 := List.map GenerateObjFromAi prompts in
    match allOutcomes (List.map (svc_articleFromAi sv) prompts) with
    | Threw e => (Threw e, addCalls c1 w)
    | Returned tcs =>
        let c2 :=
          c1 ++ List.map (fun tc => GenerateTextFromAi (summaryPromptOf tc))
                         tcs in
        match allOutcomes
                (List.map (fun tc => svc_textFromAi sv (summaryPromptOf tc))
                          tcs) with
        | Threw e => (Threw e, addCalls c2 w)
        | Returned summaries =>
            match dateOf (store w) with
            | Threw e => (Threw e, addCalls (c2 ++ dcalls) w)
            | Returned dateAt =>
                let rows :=
                  newArticlesAt (nextArticleId (store w)) dateAt k
                                (indexed 0 (combine tcs summaries)) in
                (Returned rows,
                 persistArticles rows (addCalls (c2 ++ dcalls) w))
            end
        end
    end.
Proof.
  intros Hdate. unfold generateArticles. cbn zeta. unfold bind at 1.
  rewrite (promiseAll_calls _ GenerateObjFromAi (svc_articleFromAi sv))
    by (intros a w0; reflexivity).
  destruct (allOutcomes (List.map (svc_articleFromAi sv) prompts))
    as [tcs | e]; [| reflexivity].
  unfold bind at 1.
  rewrite (promiseAll_calls _
             (fun tc => GenerateTextFromAi (summaryPromptOf tc))
             (fun tc => svc_textFromAi sv (summaryPromptOf tc)))
    by (intros a w0; reflexivity).
  rewrite addCalls_addCalls.
  destruct (allOutcomes
              (List.map (fun tc => svc_textFromAi sv (summaryPromptOf tc)) tcs))
    as [summaries | e]; [| reflexivity].
  unfold bind at 1. rewrite Hdate, addCalls_addCalls. cbn [store addCalls].
  destruct (dateOf (store w)) as [dateAt | e]; [| reflexivity].
  rewrite forCollect_articleCreate. reflexivity.
Qed.

Lemma articlesThenQuizzes_run sv (publishedAt : M World (nat -> Date))
    (dateOf : Store -> Outcome (nat -> Date)) dcalls k info w :
  (forall w0, publishedAt w0 = (dateOf (store w0), addCalls dcalls w0)) ->
  articlesThenQuizzes sv publishedAt k info w
  = let query := generateQuery info in
    match svc_search sv query with
    | Threw e => (Threw e, addCalls [SearchByKeyword query] w)
    | Returned results =>
        let prompts := promptsOf info (relatedDataOf sv query results) in
        let c0 := discoveryCalls sv query results in
        match generatedArticles sv prompts with
        | Threw e =>
            (Threw e, addCalls (c0 ++ List.map GenerateObjFromAi prompts) w)
        | Returned tcs =>
            let c1 := c0 ++ generationCalls prompts tcs in
            match generatedSummaries sv tcs with
            | Threw e => (Threw e, addCalls c1 w)
            | Returned summaries =>
                match dateOf (store w) with
                | Threw e => (Threw e, addCalls (c1 ++ dcalls) w)
                | Returned dateAt =>
                    generateQuizzes sv k
                      (persistArticles
                         (newArticlesAt (nextArticleId (store w)) dateAt k
                                        (indexed 0 (combine tcs summaries)))
                         (addCalls (c1 ++ dcalls) w))
                end
            end
        end
    end.
Proof.
  intros Hdate. unfold articlesThenQuizzes. unfold bind at 1.
  rewrite createPrompts_run. cbn zeta.
  destruct (svc_search sv (generateQuery info)) as [results | e];
    [| reflexivity].
  unfold bind at 1.
  rewrite (generateArticles_run sv publishedAt dateOf dcalls k _ _ Hdate).
  cbn zeta. unfold generatedArticles, generatedSummaries, generationCalls.
  fold (discoveryCalls sv (generateQuery info) results).
  destruct (allOutcomes _) as [tcs | e];
    [| rewrite addCalls_addCalls; reflexivity].
  destruct (allOutcomes _) as [summaries | e];
    [| rewrite addCalls_addCalls; reflexivity].
  cbn [store addCalls].
  destruct (dateOf (store w)) as [dateAt | e];
    rewrite addCalls_addCalls, <- ?app_assoc; reflexivity.
Qed.

(** The first version on a keyword that has a row and no article. *)
Lemma generateContents_fresh sv k w kw :
  articlesOf (store w) k = [] ->
  keywords (store w) !! k = Some kw ->
  generateContents sv k w
  = articlesThenQuizzes sv (publishedAtFromStore k) k (infoOf kw)
      (addCalls [ArticleFindFirst k; KeywordFindUnique k] w).
Proof.
  intros Ha Hk. unfold generateContents. unfold bind at 1.
  rewrite isArticleExists_run, Ha. cbn [nonEmptyList].
  unfold bind at 1. rewrite findKeyword_run, addCalls_addCalls.
  cbn [store addCalls app]. rewrite Hk. reflexivity.
Qed.

(** The second version on a keyword that has a row and no article. *)
Lemma generateContents2_fresh sv k w kw :
  articlesOf (store w) k = [] ->
  keywords (store w) !! k = Some kw ->
  generateContents2 sv k w
  = articlesThenQuizzes sv (publishedAtNow sv) k (infoOf kw)
      (addCalls [KeywordFindUnique k; ArticleFindFirst k] w).
Proof.
  intros Ha Hk. unfold generateContents2. unfold bind at 1.
  rewrite findKeyword_run, Hk. unfold bind at 1.
  rewrite isArticleExists_run. cbn [store addCalls]. rewrite Ha.
  cbn [nonEmptyList]. rewrite addCalls_addCalls. reflexivity.
Qed.

Lemma publishedDate_v1 k w0 :
  publishedAtFromStore k w0
  = ((fun st => match publishedDateOf st k with
                | Returned date => Returned (fun _ : nat => date)
                | Threw e => Threw e
                end) (store w0),
     addCalls [PublishedDateFind k] w0).
Proof.
  unfold publishedAtFromStore, bind. rewrite getKeywordPublishedDate_run.
  destruct (publishedDateOf (store w0) k); reflexivity.
Qed.

Lemma publishedDate_v2 sv (w0 : World) :
  publishedAtNow sv w0
  = ((fun _ : Store => Returned (svc_now sv)) (store w0), addCalls [] w0).
Proof. rewrite addCalls_nil. reflexivity. Qed.

(** X15. When the search client fails, the failure is the outcome of
    [generateContents]: in both versions, on a keyword that has a row and
    no article, the search error is thrown after the two reads and the one
    search call, nothing is crawled or generated, and the store is as it
    was. *)
Theorem search_failure_ends_invocation :
  forall (sv : Services) (k : Z) (w : World) (kw : Keyword) (e : Exn),
    articlesOf (store w) k = [] ->
    keywords (store w) !! k = Some kw ->
    svc_search sv (generateQuery (infoOf kw)) = Threw e ->
    generateContents sv k w
    = (Threw e,
       addCalls [ArticleFindFirst k; KeywordFindUnique k;
                 SearchByKeyword (generateQuery (infoOf kw))] w)
    /\ generateContents2 sv k w
       = (Threw e,
          addCalls [KeywordFindUnique k; ArticleFindFirst k;
                    SearchByKeyword (generateQuery (infoOf kw))] w).
Proof.
  intros sv k w kw e Ha Hk Hs. split.
  - rewrite (generateContents_fresh sv k w kw Ha Hk).
    rewrite (articlesThenQuizzes_run sv _ _ _ k _ _ (publishedDate_v1 k)).
    cbn zeta. rewrite Hs, addCalls_addCalls. reflexivity.
  - rewrite (generateContents2_fresh sv k w kw Ha Hk).
    rewrite (articlesThenQuizzes_run sv _ _ _ k _ _ (publishedDate_v2 sv)).
    cbn zeta. rewrite Hs, addCalls_addCalls. reflexivity.
Qed.

Lemma search_failure_ends_invocation_witness :
  fst (generateContents failingSearch 1 (worldOf keywordOnlyStore))
  = Threw (Error BRAVE_SEARCH_API_REQUEST_FAILED)
  /\ store (snd (generateContents failingSearch 1 (worldOf keywordOnlyStore)))
     = keywordOnlyStore.
Proof.
  destruct (search_failure_ends_invocation failingSearch 1
              (worldOf keywordOnlyStore) inflation
              (Error BRAVE_SEARCH_API_REQUEST_FAILED)) as [H _];
    try reflexivity.
  rewrite H. split; reflexivity.
Defined.

Lemma generateQuizzes_keeps_articles sv k w :
  articles (store (snd (generateQuizzes sv k w))) = articles (store w)
  /\ keywords (store (snd (generateQuizzes sv k w))) = keywords (store w)
  /\ nextArticleId (store (snd (generateQuizzes sv k w)))
     = nextArticleId (store w).
Proof.
  pose proof (generateQuizzes_run sv k w) as H. cbn zeta in H.
  destruct (generatedQuizzes sv (articlesOf (store w) k)).
  - destruct H as [later [-> _]]. auto.
  - rewrite H. auto.
Qed.

Lemma newArticles_length next date k l :
  length (newArticles next date k l) = length l.
Proof.
  revert next. induction l as [| [tc s] r IH]; intros next; simpl;
    [reflexivity | f_equal; apply IH].
Qed.

Lemma newArticles_keyword next date k l :
  Forall (fun a => art_keywordId a = k /\ art_publishedAt a = date)
         (newArticles next date k l).
Proof.
  revert next. induction l as [| [tc s] r IH]; intros next; simpl;
    constructor; auto.
Qed.

Lemma newArticles_ids next date k l :
  List.map art_id (newArticles next date k l)
  = List.map (fun i => next + Z.of_nat i) (seq 0 (length l)).
Proof.
  revert next. induction l as [| [tc s] r IH]; intros next;
    [reflexivity |].
  cbn [newArticles List.map length seq art_id]. f_equal; [lia |].
  rewrite IH, <- seq_shift, map_map. apply map_ext. intros i. lia.
Qed.

Lemma five_pairs sv info docs tcs summaries :
  generatedArticles sv (promptsOf info docs) = Returned tcs ->
  generatedSummaries sv tcs = Returned summaries ->
  length (combine tcs summaries) = 5%nat.
Proof.
  intros Ht Hs. apply allOutcomes_length in Ht. apply allOutcomes_length in Hs.
  rewrite length_map in Ht, Hs. rewrite length_combine, Hs, Ht.
  reflexivity.
Qed.

Lemma newArticlesAt_length dateAt k l : forall next,
  length (newArticlesAt next dateAt k l) = length l.
Proof.
  induction l as [| [idx [tc s]] r IH]; intros next; simpl;
    [reflexivity | f_equal; apply IH].
Qed.

Lemma newArticlesAt_keyword dateAt k l : forall next,
  Forall (fun a => art_keywordId a = k) (newArticlesAt next dateAt k l).
Proof.
  induction l as [| [idx [tc s]] r IH]; intros next; simpl; constructor; auto.
Qed.

Lemma newArticlesAt_dates dateAt k (l : list (TitleAndContent * jsstring)) :
  forall next idx,
    List.map art_publishedAt (newArticlesAt next dateAt k (indexed idx l))
    = List.map dateAt (seq idx (length l)).
Proof.
  induction l as [| [tc s] r IH]; intros next idx; simpl;
    [reflexivity | rewrite IH; reflexivity].
Qed.

Lemma indexed_length {A} (l : list A) : forall idx,
  length (indexed idx l) = length l.
Proof.
  induction l as [| a r IH]; intros idx; simpl;
    [reflexivity | rewrite IH; reflexivity].
Qed.

(** Articles written by the article stage: none, or five. *)
Lemma articlesThenQuizzes_articles sv publishedAt dateOf dcalls k info w :
  (forall w0, publishedAt w0 = (dateOf (store w0), addCalls dcalls w0)) ->
  let w' := snd (articlesThenQuizzes sv publishedAt k info w) in
  articles (store w') = articles (store w)
  \/ exists dateAt (pairs : list (TitleAndContent * jsstring)),
       dateOf (store w) = Returned dateAt
       /\ length pairs = 5%nat
       /\ articles (store w')
          = articles (store w)
            ++ newArticlesAt (nextArticleId (store w)) dateAt k
                             (indexed 0 pairs).
Proof.
  intros Hdate w'. subst w'.
  rewrite (articlesThenQuizzes_run sv _ _ _ k info w Hdate). cbn zeta.
  destruct (svc_search sv (generateQuery info)) as [results | e]; [| auto].
  destruct (generatedArticles sv _) as [tcs | e] eqn:Ht; [| auto].
  destruct (generatedSummaries sv tcs) as [summaries | e] eqn:Hs; [| auto].
  destruct (dateOf (store w)) as [dateAt | e]; [| auto].
  right. exists dateAt, (combine tcs summaries).
  split; [reflexivity |].
  split; [eapply five_pairs; eassumption |].
  rewrite (proj1 (generateQuizzes_keeps_articles sv k _)). reflexivity.
Qed.

Lemma generateContents2_with_articles sv k w kw :
  keywords (store w) !! k = Some kw ->
  articlesOf (store w) k <> [] ->
  generateContents2 sv k w
  = if nonEmptyList (quizzesOf (store w) k)
    then (Threw (Error CONTENTS_ALREADY_EXISTS),
          addCalls [KeywordFindUnique k; ArticleFindFirst k; QuizFindFirst k] w)
    else generateQuizzes sv k
           (addCalls [KeywordFindUnique k; ArticleFindFirst k; QuizFindFirst k]
                     w).
Proof.
  intros Hk Ha. unfold generateContents2. unfold bind at 1.
  rewrite findKeyword_run, Hk. unfold bind at 1.
  rewrite isArticleExists_run. cbn [store addCalls].
  rewrite (nonEmptyList_true _ Ha), addCalls_addCalls.
  unfold bind at 1. rewrite isQuizExists_run. cbn [store addCalls].
  rewrite addCalls_addCalls.
  destruct (nonEmptyList (quizzesOf (store w) k)); reflexivity.
Qed.

(** X16. Articles are written all five or not at all. Whatever the store
    and whatever the collaborators answer, an invocation of
    [generateContents] (either version) leaves the article table as it
    was or appends exactly five rows to it, all for the keyword of the
    invocation. In the first version the five rows bear one date, the
    first of the keyword's [TodaysKeyword]; in the second each row bears
    the reading of the clock taken for it, in the order of the rows. *)
Theorem articles_five_or_none :
  forall (sv : Services) (k : Z) (w : World),
    let grown (w' : World) (dated : list Article -> Prop) :=
      articles (store w') = articles (store w)
      \/ exists rows,
           length rows = 5%nat
           /\ articles (store w') = articles (store w) ++ rows
           /\ Forall (fun a => art_keywordId a = k) rows
           /\ dated rows in
    grown (snd (generateContents sv k w))
      (fun rows =>
         exists kw date later,
           keywords (store w) !! k = Some kw
           /\ kw_TodaysKeyword kw = date :: later
           /\ Forall (fun a => art_publishedAt a = date) rows)
    /\ grown (snd (generateContents2 sv k w))
         (fun rows =>
            List.map art_publishedAt rows = List.map (svc_now sv) (seq 0 5)).
Proof.
  intros sv k w grown. subst grown. cbv beta.
  destruct (keywords (store w) !! k) as [kw |] eqn:Hk;
    destruct (articlesOf (store w) k) as [| a0 arts] eqn:Ha.
  - split.
    + rewrite (generateContents_fresh sv k w kw Ha Hk).
      destruct (articlesThenQuizzes_articles sv _ _ _ k (infoOf kw)
                  (addCalls [ArticleFindFirst k; KeywordFindUnique k] w)
                  (publishedDate_v1 k))
        as [H | (dateAt & pairs & Hd & Hlen & H)]; [left; exact H |].
      right. cbn [store addCalls] in Hd, H.
      unfold publishedDateOf in Hd. rewrite Hk in Hd.
      destruct (kw_TodaysKeyword kw) as [| date later] eqn:Hdates;
        [discriminate |].
      injection Hd as <-. rewrite newArticlesAt_const in H.
      exists (newArticles (nextArticleId (store w)) date k pairs).
      split; [rewrite newArticles_length; exact Hlen |].
      split; [exact H |].
      pose proof (newArticles_keyword (nextArticleId (store w)) date k pairs)
        as Hrows.
      split.
      * eapply List.Forall_impl; [| exact Hrows]. intros a [Hka _]. exact Hka.
      * exists kw, date, later. split; [reflexivity |].
        split; [exact Hdates |].
        eapply List.Forall_impl; [| exact Hrows]. intros a [_ Hda]. exact Hda.
    + rewrite (generateContents2_fresh sv k w kw Ha Hk).
      destruct (articlesThenQuizzes_articles sv _ _ _ k (infoOf kw)
                  (addCalls [KeywordFindUnique k; ArticleFindFirst k] w)
                  (publishedDate_v2 sv))
        as [H | (dateAt & pairs & Hd & Hlen & H)]; [left; exact H |].
      right. cbn [store addCalls] in Hd, H. injection Hd as <-.
      exists (newArticlesAt (nextArticleId (store w)) (svc_now sv) k
                (indexed 0 pairs)).
      split; [rewrite newArticlesAt_length, indexed_length; exact Hlen |].
      split; [exact H |].
      split; [apply newArticlesAt_keyword |].
      rewrite newArticlesAt_dates, Hlen. reflexivity.
  - assert (Hne : articlesOf (store w) k <> []) by (rewrite Ha; discriminate).
    split; left.
    + rewrite (generateContents_with_articles sv k w Hne).
      destruct (nonEmptyList _); [reflexivity |].
      exact (proj1 (generateQuizzes_keeps_articles sv k _)).
    + rewrite (generateContents2_with_articles sv k w kw Hk Hne).
      destruct (nonEmptyList _); [reflexivity |].
      exact (proj1 (generateQuizzes_keeps_articles sv k _)).
  - split; left.
    + rewrite (generateContents_absent sv k w Ha Hk). reflexivity.
    + rewrite (generateContents2_absent sv k w Hk). reflexivity.
  - assert (Hne : articlesOf (store w) k <> []) by (rewrite Ha; discriminate).
    split; left.
    + rewrite (generateContents_with_articles sv k w Hne).
      destruct (nonEmptyList _); [reflexivity |].
      exact (proj1 (generateQuizzes_keeps_articles sv k _)).
    + rewrite (generateContents2_absent sv k w Hk). reflexivity.
Qed.

(** X17. In the first version the publish date is read only after every
    article and summary has been generated. On a keyword without a date
    in [TodaysKeyword] (and with no article yet), when search and
    generation succeed, the invocation ends with [KEYWORD_DATE_NOT_EXISTS]
    after the search, the crawls, the ranking and the ten generation
    calls, and writes nothing. *)
Theorem publish_date_missing_after_generation :
  forall (sv : Services) (k : Z) (w : World) (kw : Keyword)
         (results : list SearchResult) (tcs : list TitleAndContent)
         (summaries : list jsstring),
    articlesOf (store w) k = [] ->
    keywords (store w) !! k = Some kw ->
    kw_TodaysKeyword kw = [] ->
    let query := generateQuery (infoOf kw) in
    let prompts := promptsOf (infoOf kw) (relatedDataOf sv query results) in
    svc_search sv query = Returned results ->
    generatedArticles sv prompts = Returned tcs ->
    generatedSummaries sv tcs = Returned summaries ->
    generateContents sv k w
    = (Threw (Error KEYWORD_DATE_NOT_EXISTS),
       addCalls
         ([ArticleFindFirst k; KeywordFindUnique k]
          ++ discoveryCalls sv query results
          ++ generationCalls prompts tcs
          ++ [PublishedDateFind k])
         w)
    /\ length (generationCalls prompts tcs) = 10%nat.
Proof.
  intros sv k w kw results tcs summaries Ha Hk Hdate query prompts Hs Ht Hsum.
  split.
  - rewrite (generateContents_fresh sv k w kw Ha Hk).
    rewrite (articlesThenQuizzes_run sv _ _ _ k _ _ (publishedDate_v1 k)).
    cbn zeta. fold query. rewrite Hs. fold prompts. rewrite Ht, Hsum.
    cbn [store addCalls]. unfold publishedDateOf. rewrite Hk, Hdate.
    rewrite addCalls_addCalls, <- !app_assoc. reflexivity.
  - unfold generationCalls. rewrite length_app, !length_map.
    apply allOutcomes_length in Ht. rewrite length_map in Ht. rewrite Ht.
    reflexivity.
Qed.

Lemma publish_date_missing_after_generation_witness :
  fst (generateContents exampleServices 1 (worldOf undatedStore))
  = Threw (Error KEYWORD_DATE_NOT_EXISTS)
  /\ store (snd (generateContents exampleServices 1 (worldOf undatedStore)))
     = undatedStore.
Proof.
  pose (kw := {| kw_name := kw_name inflation;
                 kw_description := kw_description inflation;
                 kw_TodaysKeyword := [] |}).
  pose (tc := {| tc_title := js "title"; tc_content := js "content" |}).
  destruct (publish_date_missing_after_generation exampleServices 1
              (worldOf undatedStore) kw [] [tc; tc; tc; tc; tc]
              [js "summary"; js "summary"; js "summary"; js "summary";
               js "summary"]) as [H _];
    try reflexivity.
  rewrite H. split; reflexivity.
Defined.









Lemma quizRows_In q generated :
  In q (quizRows generated) ->
  In (quiz_articleId q) (List.map fst generated).
Proof.
  unfold quizRows. induction generated as [| [articleId items] r IH]; simpl;
    [tauto |].
  rewrite in_app_iff. intros [H | H]; [left | right; apply IH; exact H].
  apply in_map_iff in H. destruct H as [item [<- _]]. reflexivity.
Qed.

Lemma quizRows_of_keyword sv arts generated written :
  generatedQuizzes sv arts = Returned generated ->
  Permutation written (quizRows generated) ->
  List.filter
    (fun q => existsb (fun a => art_id a =? quiz_articleId q) arts)
    written
  = written.
Proof.
  intros Hgen Hperm.
  pose proof (generatedQuizzes_ids sv arts generated Hgen) as Hids.
  apply forallb_filter_id, forallb_forall. intros q Hq.
  apply (Permutation_in _ Hperm) in Hq.
  apply quizRows_In in Hq. rewrite Hids in Hq.
  apply in_map_iff in Hq. destruct Hq as [a [Ha Hin]].
  apply existsb_exists. exists a. split; [exact Hin |].
  apply Z.eqb_eq. exact Ha.
Qed.

(** X19. Invoking again after the quiz stage. Let a keyword have articles
    and no quiz, and let the quiz generation succeed. If it gave at least
    one quiz item, the keyword is complete: the next invocation, whatever
    the collaborators would answer, fails with [CONTENTS_ALREADY_EXISTS]
    after its two reads and changes nothing. If it gave no item for any
    article, nothing was written, the store is as before, and the next
    invocation runs the quiz stage again. *)
Theorem invoking_again_after_quizzes :
  forall (sv sv' : Services) (k : Z) (w : World)
         (generated : list (Z * list QuizItem)),
    articlesOf (store w) k <> [] ->
    quizzesOf (store w) k = [] ->
    generatedQuizzes sv (articlesOf (store w) k) = Returned generated ->
    let w1 := snd (generateContents sv k w) in
    (quizRows generated <> [] ->
       generateContents sv' k w1
       = (Threw (Error CONTENTS_ALREADY_EXISTS),
          addCalls [ArticleFindFirst k; QuizFindFirst k] w1))
    /\ (quizRows generated = [] ->
          store w1 = store w
          /\ generateContents sv' k w1
             = generateQuizzes sv' k
                 (addCalls [ArticleFindFirst k; QuizFindFirst k] w1)).
Proof.
  intros sv sv' k w generated Ha Hq Hgen w1.
  assert (Hw1 : exists written,
            Permutation written (quizRows generated)
            /\ w1
               = persistQuizzes written
                   (addCalls
                      (ArticleFindFirst k :: QuizFindFirst k
                         :: ArticleFindMany k
                         :: List.map
                              (fun a => GenerateObjFromAi (quizPromptOf a))
                              (articlesOf (store w) k))
                      w)).
  { subst w1. rewrite (generateContents_with_articles sv k w Ha), Hq.
    cbn [nonEmptyList].
    pose proof (generateQuizzes_run sv k
                  (addCalls [ArticleFindFirst k; QuizFindFirst k] w)) as Hrun.
    cbn zeta in Hrun. cbn [store addCalls] in Hrun. rewrite Hgen in Hrun.
    destruct Hrun as [later [Hrun Hperm]].
    exists (firstRows generated ++ later). split; [exact Hperm |].
    rewrite Hrun, addCalls_addCalls. reflexivity. }
  destruct Hw1 as [written [Hperm Hw1]].
  assert (Harts : articlesOf (store w1) k = articlesOf (store w) k)
    by (rewrite Hw1; reflexivity).
  assert (Hquiz : quizzesOf (store w1) k = written).
  { unfold quizzesOf. rewrite Harts. rewrite Hw1.
    cbn [store persistQuizzes addCalls quizzes].
    rewrite List.filter_app.
    change (List.filter
              (fun q => existsb (fun a => art_id a =? quiz_articleId q)
                                (articlesOf (store w) k))
              (quizzes (store w)))
      with (quizzesOf (store w) k).
    rewrite Hq, (quizRows_of_keyword sv _ _ _ Hgen Hperm). reflexivity. }
  assert (Ha1 : articlesOf (store w1) k <> []) by (rewrite Harts; exact Ha).
  split.
  - intros Hrows. rewrite (generateContents_with_articles sv' k w1 Ha1), Hquiz.
    rewrite nonEmptyList_true; [reflexivity |].
    intros ->. apply Hrows. apply Permutation_nil. exact Hperm.
  - intros Hrows. rewrite Hrows in Hperm.
    apply Permutation_sym, Permutation_nil in Hperm. subst written. split.
    + rewrite Hw1. rewrite persistQuizzes_nil. reflexivity.
    + rewrite (generateContents_with_articles sv' k w1 Ha1), Hquiz.
      reflexivity.
Qed.

Lemma invoking_again_after_quizzes_witness :
  fst (generateContents exampleServices 1
         (snd (generateContents exampleServices 1 (worldOf articleOnlyStore))))
  = Threw (Error CONTENTS_ALREADY_EXISTS)
  /\ store (snd (generateContents noQuizServices 1 (worldOf articleOnlyStore)))
     = articleOnlyStore.
Proof.
  assert (Ha : articlesOf (store (worldOf articleOnlyStore)) 1 <> [])
    by (vm_compute; discriminate).
  assert (Hq : quizzesOf (store (worldOf articleOnlyStore)) 1 = [])
    by (vm_compute; reflexivity).
  split.
  - destruct (invoking_again_after_quizzes exampleServices exampleServices 1
                (worldOf articleOnlyStore) [(10, [exampleItem])] Ha Hq)
      as [H _]; [vm_compute; reflexivity |].
    rewrite H by discriminate. reflexivity.
  - destruct (invoking_again_after_quizzes noQuizServices exampleServices 1
                (worldOf articleOnlyStore) [(10, [])] Ha Hq)
      as [_ H]; [vm_compute; reflexivity |].
    destruct (H eq_refl) as [Hs _]. exact Hs.
Defined.

Lemma beforeDot_split s :
  exists rest,
    s = beforeDot s ++ rest /\ (rest = [] \/ exists r, rest = 46%N :: r).
Proof.
  induction s as [| c r [rest [Hs Hrest]]]; simpl.
  - exists []. auto.
  - destruct (N.eqb_spec c 46) as [-> | Hc].
    + exists (46%N :: r). eauto.
    + exists rest. split; [simpl; f_equal; exact Hs | exact Hrest].
Qed.

Lemma beforeDot_no_dot s : ~ In 46%N (beforeDot s).
Proof.
  induction s as [| c r IH]; simpl; [tauto |].
  destruct (N.eqb_spec c 46) as [-> | Hc]; simpl; [tauto |].
  intros [H | H]; [exact (Hc H) | exact (IH H)].
Qed.

(** X20. The search query is the keyword's name, a space, and the first
    sentence of its description: the longest beginning of the description
    without a full stop. The description is that beginning followed by
    nothing or by a full stop and the rest, and a description without a
    full stop is taken whole. *)
Theorem generateQuery_first_sentence :
  forall info : KeywordInfo,
    exists sentence rest,
      generateQuery info = name info ++ 32%N :: sentence
      /\ description info = sentence ++ rest
      /\ ~ In 46%N sentence
      /\ (rest = [] \/ exists r, rest = 46%N :: r)
      /\ (~ In 46%N (description info) -> sentence = description info).
Proof.
  intros info. destruct (beforeDot_split (description info)) as [rest [Hs Hr]].
  exists (beforeDot (description info)), rest.
  split; [reflexivity |]. split; [exact Hs |].
  split; [apply beforeDot_no_dot |]. split; [exact Hr |].
  intros Hno. destruct Hr as [-> | [r ->]].
  - rewrite app_nil_r in Hs. symmetry. exact Hs.
  - exfalso. apply Hno. rewrite Hs. apply in_app_iff. right. left. reflexivity.
Qed.

(** X21. The documents handed to the ranking engine. Each comes from a
    crawl that gave a result, bears its title, and has for content its
    texts joined by line feeds, of at most 1000 code units; every such
    crawl result is there; failed crawls and longer contents give
    nothing, so there are at most as many documents as search results. *)
Theorem validDocs_within_bound :
  forall crawledArr : list (option CrawlResult),
    let docOf (c : CrawlResult) :=
      {| title := cr_title c; content := join [10%N] (cr_texts c) |} in
    (forall d, In d (validDocsOf crawledArr)
       <-> exists c, In (Some c) crawledArr /\ d = docOf c
                     /\ (length (content d) <= MAX_TEXT_LENGTH_FOR_BM25)%nat)
    /\ (length (validDocsOf crawledArr) <= length crawledArr)%nat.
Proof.
  intros crawledArr docOf. split.
  - intros d. unfold validDocsOf. rewrite filter_In, in_map_iff. split.
    + intros [[c [<- Hc]] Hl]. exists c.
      apply list_elem_of_In, list_elem_of_omap in Hc.
      destruct Hc as [o [Ho Heq]]. simpl in Heq. subst o.
      apply list_elem_of_In in Ho. apply Nat.leb_le in Hl. auto.
    + intros [c [Hc [-> Hl]]]. split; [| apply Nat.leb_le; exact Hl].
      exists c. split; [reflexivity |].
      apply list_elem_of_In, list_elem_of_omap. exists (Some c).
      split; [apply list_elem_of_In; exact Hc | reflexivity].
  - unfold validDocsOf.
    etransitivity; [apply List.filter_length_le |].
    rewrite length_map.
    induction crawledArr as [| [c |] r IH]; cbn in *; lia.
Qed.

End BatchMore.

(** ** The order of the extracted texts, and the search client *)

Module ContentOrder.

Import BM25 Crawling Content ContentFacts.

Local Open Scope nat_scope.

Lemma filter_twice {A} (f g h : A -> bool) l :
  (forall x, h x = g x && f x) ->
  List.filter f (List.filter g l) = List.filter h l.
Proof.
  intros H. induction l as [| x r IH]; simpl; [reflexivity |].
  rewrite H. destruct (g x); simpl; [| exact IH].
  destruct (f x); rewrite IH; reflexivity.
Qed.

Lemma filter_all {A} (f : A -> bool) l :
  (forall x, f x = true) -> List.filter f l = l.
Proof.
  intros H. induction l as [| x r IH]; simpl; [reflexivity |].
  rewrite H, IH. reflexivity.
Qed.

Lemma visit_kept acc e :
  visit acc e
  = if kept e then setAdd (normalize (el_text e)) acc else acc.
Proof.
  unfold visit, kept. cbv zeta. destruct (el_nested e); cbn [negb andb];
    reflexivity.
Qed.

Lemma visits_from elements : forall acc,
  List.fold_left visit elements acc
  = acc ++ List.filter (fresh acc) (uniqueTerms (textsOf elements)).
Proof.
  induction elements as [| e r IH]; intros acc.
  - simpl. rewrite app_nil_r. reflexivity.
  - cbn [List.fold_left]. rewrite IH, visit_kept. unfold textsOf.
    cbn [List.filter]. destruct (kept e); [| reflexivity].
    cbn [List.map uniqueTerms List.filter].
    set (t := normalize (el_text e)).
    fold (textsOf r). unfold setAdd, fresh at 2.
    case_bool_decide as Ht; cbn [negb].
    + f_equal. symmetry. apply filter_twice. intros x. unfold fresh.
      case_bool_decide as Hx; cbn [negb];
        [rewrite andb_false_r; reflexivity |].
      rewrite bool_decide_eq_false_2; [reflexivity |].
      intros ->. exact (Hx Ht).
    + rewrite <- app_assoc. cbn [app]. f_equal. f_equal. symmetry.
      apply filter_twice. intros x. unfold fresh.
      destruct (decide (x = t)) as [-> | Hne].
      * rewrite bool_decide_eq_true_2 by (apply elem_of_app; right;
                                          apply list_elem_of_In; left;
                                          reflexivity).
        rewrite (bool_decide_eq_true_2 (t = t)) by reflexivity. reflexivity.
      * rewrite (bool_decide_eq_false_2 (x = t)) by exact Hne. cbn [negb andb].
        f_equal. apply bool_decide_ext. rewrite elem_of_app.
        split; [intros [Hx | Hx]; [exact Hx |] | auto].
        apply list_elem_of_In in Hx. destruct Hx as [Hx | []]. congruence.
Qed.

(** X22. The texts [extractContent] returns come in the order in which
    they first occur in the page: they are the normalized texts of the
    elements it keeps, each at its first occurrence. *)
Theorem extractContent_first_occurrences :
  forall (elements : list Element) (title : jsstring),
    cr_texts (extractContent elements title)
    = uniqueTerms
        (List.map (fun e => normalize (el_text e))
                  (List.filter kept elements)).
Proof.
  intros elements title. unfold extractContent. cbn [cr_texts].
  rewrite visits_from. apply filter_all. intros x. unfold fresh.
  rewrite bool_decide_eq_false_2; [reflexivity |].
  apply not_elem_of_nil.
Qed.

End ContentOrder.

Module BraveFacts.

Import Crawling Brave.



End BraveFacts.

(** ** More on scores *)

Module ScoreMore.

Import BM25 IndexFacts ScoreFacts SignFacts.

Local Open Scope nat_scope.

(** X24. [calculateIDF] remembers: a second call for the same term returns
    the value of the first and leaves the service as the first call left
    it, whatever the cache held before. *)
Theorem calculateIDF_memoizes :
  forall (s : BM25Service) (term : jsstring),
    let first := calculateIDF s term in
    calculateIDF (snd first) term = (fst first, snd first)
    /\ idfCache (snd first) !! term = Some (fst first).
Proof.
  intros s term first. subst first. unfold calculateIDF.
  destruct (idfCache s !! term) as [v |] eqn:Hc; cbn [fst snd].
  - rewrite Hc. auto.
  - cbn [idfCache setCache]. rewrite lookup_insert_eq. auto.
Qed.

(** X25. With the count of every indexed term held at 1, every term that
    occurs in the collection has the same IDF, [ln((N + 1) / 1.5)] for a
    collection of [N] documents, however many documents contain it; a
    term that occurs nowhere has [ln(2N + 2)]. *)
Theorem idf_same_for_indexed_terms :
  forall (docs : list Document) (c : PartialConfig)
         (earlier : list (jsstring * number)) (term : jsstring),
    let s := afterSearches (new docs c) earlier in
    ((exists d, In d docs /\ In term (tokenize (content d))) ->
       fst (calculateIDF s term) = ln ((INR (length docs) + 1) / 1.5))
    /\ ((forall d, In d docs -> ~ In term (tokenize (content d))) ->
          fst (calculateIDF s term) = ln (2 * INR (length docs) + 2)).
Proof.
  intros docs c earlier term s.
  destruct (afterSearches_ok earlier (new docs c) (cacheOk_new docs c))
    as [Hok [c' Hs]].
  fold s in Hok, Hs.
  destruct (calculateIDF_ok s term Hok) as [Hv _]. rewrite Hv.
  unfold idfOf. rewrite Hs. cbn [documents documentCntsHasTerm setCache].
  change (documents (new docs c)) with docs.
  rewrite counts_stunted. split.
  - intros [d [Hin Ht]]. rewrite bool_decide_eq_true_2.
    + unfold idfValue. f_equal. simpl. lra.
    + apply List.Exists_exists. exists d. split; [exact Hin |].
      apply list_elem_of_In. exact Ht.
  - intros Hno. rewrite bool_decide_eq_false_2.
    + unfold idfValue. f_equal. simpl. lra.
    + intros Hex. apply List.Exists_exists in Hex.
      destruct Hex as [d [Hin Ht]]. apply (Hno d Hin).
      apply list_elem_of_In. exact Ht.
Qed.

Lemma idf_same_for_indexed_terms_witness :
  fst (calculateIDF (new workedDocs defaultPartial) (js "apple"))
  = ln ((INR 2 + 1) / 1.5).
Proof.
  apply (proj1 (idf_same_for_indexed_terms workedDocs defaultPartial []
                  (js "apple"))).
  exists workedD1. split; [left; reflexivity |].
  vm_compute. left. reflexivity.
Defined.

Lemma calculateIDF_other_keys s term other :
  other <> term ->
  idfCache (snd (calculateIDF s term)) !! other = idfCache s !! other.
Proof.
  intros Hne. unfold calculateIDF.
  destruct (idfCache s !! term); cbn [snd]; [reflexivity |].
  cbn [idfCache setCache]. apply lookup_insert_ne. congruence.
Qed.

Lemma scoreStep_absent docLength termFreq acc term :
  default 0 (termFreq !! term) = 0 ->
  scoreStep docLength termFreq acc term = acc.
Proof.
  intros H. unfold scoreStep. destruct acc as [score s]. cbv zeta.
  rewrite H. reflexivity.
Qed.

Lemma scoreStep_skips docLength termFreq q : forall acc,
  List.fold_left (scoreStep docLength termFreq) q acc
  = List.fold_left (scoreStep docLength termFreq)
      (List.filter
         (fun term => negb (Nat.eqb (default 0 (termFreq !! term)) 0)) q)
      acc.
Proof.
  induction q as [| t r IH]; intros acc; [reflexivity |].
  cbn [List.fold_left List.filter].
  destruct (Nat.eqb_spec (default 0 (termFreq !! t)) 0) as [Hz | Hnz];
    cbn [negb List.fold_left].
  - rewrite (scoreStep_absent _ _ _ _ Hz). apply IH.
  - apply IH.
Qed.

Lemma scoreStep_cache docLength termFreq other q : forall acc,
  (forall term, In term q -> default 0 (termFreq !! term) <> 0 ->
                term <> other) ->
  idfCache (snd (List.fold_left (scoreStep docLength termFreq) q acc))
    !! other
  = idfCache (snd acc) !! other.
Proof.
  induction q as [| t r IH]; intros acc Hq; [reflexivity |].
  cbn [List.fold_left]. rewrite IH.
  - destruct acc as [score s]. unfold scoreStep. cbv zeta.
    destruct (Nat.eqb_spec (default 0 (termFreq !! t)) 0) as [Hz | Hnz];
      [reflexivity |].
    pose proof (calculateIDF_other_keys s t other) as Hk.
    destruct (calculateIDF s t) as [idf s']. cbn [snd] in *.
    apply Hk. intros ->. exact (Hq t (or_introl eq_refl) Hnz eq_refl).
  - intros term Hin. apply Hq. right. exact Hin.
Qed.

(** X26. Query terms that do not occur in the document are passed over:
    the score and the service that [caculateScore] returns are those for
    the query without them, and the IDF cache changes at most under the
    query terms that occur in the document. A term the query has twice is
    counted twice. *)
Theorem caculateScore_skips_absent_terms :
  forall (s : BM25Service) (title : jsstring) (queryTerm : list jsstring),
    let tf term :=
      default 0 (default ∅ (termFrequencies s !! title) !! term) in
    caculateScore s title queryTerm
    = caculateScore s title
        (List.filter (fun term => negb (Nat.eqb (tf term) 0)) queryTerm)
    /\ (forall term,
          idfCache (snd (caculateScore s title queryTerm)) !! term
          <> idfCache s !! term ->
          In term queryTerm /\ tf term <> 0)
    /\ (forall term,
          fst (caculateScore s title [term; term])
          = (2 * fst (caculateScore s title [term]))%R).
Proof.
  intros s title queryTerm tf. subst tf. unfold caculateScore.
  destruct (termFrequencies s !! title) as [termFreq |] eqn:Htf.
  - change (default ∅ (Some termFreq)) with termFreq.
    split; [apply scoreStep_skips |]. split.
    + intros term Hchanged.
      destruct (decide (term ∈ queryTerm)) as [Hin | Hout];
        rewrite list_elem_of_In in *.
      * split; [exact Hin |]. intros Hz. apply Hchanged.
        apply (scoreStep_cache _ _ term queryTerm (0%R, s)).
        intros t _ Hnz ->. exact (Hnz Hz).
      * exfalso. apply Hchanged.
        apply (scoreStep_cache _ _ term queryTerm (0%R, s)).
        intros t Hin _ ->. exact (Hout Hin).
    + intros term. cbn [List.fold_left]. unfold scoreStep. cbv zeta.
      destruct (Nat.eqb (default 0 (termFreq !! term)) 0); cbn [fst];
        [lra |].
      unfold calculateIDF.
      destruct (idfCache s !! term) as [v |] eqn:Hc; cbn [fst snd].
      * rewrite Hc. cbn [fst]. lra.
      * cbn [idfCache setCache config avgDocLength].
        rewrite lookup_insert_eq. cbn [fst]. lra.
  - split; [reflexivity |]. split.
    + intros term H. exfalso. apply H. reflexivity.
    + intros term. cbn [fst]. lra.
Qed.

End ScoreMore.
